(** * QuaC: the time integrator, the steady-state solver and the Hamiltonian parser

    A shallow embedding of [src/solver.c] (module [Solver]) and of
    [xacc/Utils/Hamiltonian.cpp] (module [Hamiltonian]), with the properties
    of the specification stated over them.

    The linear-algebra kernel (PETSc) and the scalar expression engine
    (exprtk) are external collaborators.  Their sparse matrices and vectors
    are modelled concretely (finite maps and lists of exact complex
    rationals, the idealisation of [PetscScalar]); their solvers are kept as
    the configuration the code hands to them. *)

From Stdlib Require Import ZArith QArith Qcanon List Ascii String Lia Bool DecimalString.
From stdpp Require Import base option list gmap.

Local Open Scope Z_scope.

(** ** Scalars, matrices and vectors of the linear-algebra kernel *)

Module Petsc.

(** [PetscReal]: a real number, idealised as an exact rational. *)
Definition PetscReal := Qc.

(** [PetscScalar]: a complex number [re + im*PETSC_i]. *)
Record PetscScalar := mkScalar { re : Qc; im : Qc }.

Definition Creal (r : Qc) : PetscScalar := mkScalar r 0%Qc.
Definition PETSC_i : PetscScalar := mkScalar 0%Qc 1%Qc.
Definition Cadd (a b : PetscScalar) : PetscScalar :=
  mkScalar (re a + re b)%Qc (im a + im b)%Qc.
Definition Csub (a b : PetscScalar) : PetscScalar :=
  mkScalar (re a - re b)%Qc (im a - im b)%Qc.
Definition Cmul (a b : PetscScalar) : PetscScalar :=
  mkScalar (re a * re b - im a * im b)%Qc (re a * im b + im a * re b)%Qc.
Definition Czero : PetscScalar := Creal 0%Qc.
Definition Cone : PetscScalar := Creal 1%Qc.

(** A sparse matrix: the stored entries, keyed by (row, column).  An entry
    that is not stored reads as zero. *)
Definition mat_get (m : gmap (Z * Z) PetscScalar) (row col : Z) : PetscScalar :=
  default Czero (m !! (row, col)).

(** [MatSetValue(m,row,col,v,ADD_VALUES)]. *)
Definition MatSetValue_ADD (m : gmap (Z * Z) PetscScalar) (row col : Z)
    (v : PetscScalar) : gmap (Z * Z) PetscScalar :=
  <[(row, col) := Cadd (mat_get m row col) v]> m.

(** [MatZeroEntries(m)]: the non-zero pattern stays, the values become zero. *)
Definition MatZeroEntries (m : gmap (Z * Z) PetscScalar) : gmap (Z * Z) PetscScalar :=
  (fun _ => Czero) <$> m.

(** [MatCopy(a,b,SAME_NONZERO_PATTERN)]: [b] receives the entries of [a]; what
    else [b] stores is kept. *)
Definition MatCopy (a b : gmap (Z * Z) PetscScalar) : gmap (Z * Z) PetscScalar :=
  a ∪ b.

(** [MatDuplicate(a,MAT_COPY_VALUES,&b)]. *)
Definition MatDuplicate (a : gmap (Z * Z) PetscScalar) : gmap (Z * Z) PetscScalar := a.

(** A vector: its entries in order. *)
Definition Vec := list PetscScalar.

Definition VecCreate (dim : Z) : Vec := replicate (Z.to_nat dim) Czero.
Definition VecSet (v : Vec) (a : PetscScalar) : Vec := replicate (length v) a.
Definition VecSetValue_INSERT (v : Vec) (row : Z) (a : PetscScalar) : Vec :=
  if row <? 0 then v else <[Z.to_nat row := a]> v.

(** The integers [first, first+1, ..., first+len-1] of a counting loop. *)
Definition loop_range (first len : Z) : list Z :=
  map (fun k => first + Z.of_nat k) (seq 0 (Z.to_nat len)).

End Petsc.

(** ** [src/solver.c] *)

Module Solver.
Import Petsc.

Abbreviation Mat := (gmap (Z * Z) PetscScalar).

(** What [solver.c] uses of the rest of the library and of the kernel, and
    whose code is not in [solver.c]: the operator tags of [operators.h], the
    Kronecker assembler of [kron.c] (it reads the global [total_levels],
    passed first here), the row range a process owns, and the kernel's
    2-norm normalisation with its error code. *)
Class Kernel := {
  op_type : Type;
  _add_to_PETSc_kron :
    Z -> Mat -> PetscScalar -> Z -> Z -> op_type -> Z -> Z -> Z -> Mat;
  MatGetOwnershipRange : Mat -> Z * Z;
  VecNormalize : Vec -> Z * Vec;
}.

Section WithKernel.
Context `{Kernel}.

(** [operators_p.h]: an operator of the registry, as [solver.c] reads it. *)
Record operator := mkOperator {
  n_before : Z;
  my_levels : Z;
  my_op_type : op_type;
  position : Z;
}.

(** An entry of [_time_dep_list]. *)
Record time_dep_struct := mkTimeDep {
  time_dep_func : PetscReal -> PetscReal;
  num_ops : Z;
  ops : list operator;
}.

(** The process-wide variables [solver.c] reads and writes. *)
Record globals := mkGlobals {
  nid : Z;
  total_levels : Z;
  full_A : Mat;
  ham_A : Mat;
  ham_stiff_A : Mat;
  _lindblad_terms : Z;
  _stiff_solver : Z;
  _num_time_dep : Z;
  _time_dep_list : list time_dep_struct;
  _num_quantum_gates : Z;
  _print_dense_ham : Z;
  _ts_monitor : bool;
  stab_added : Z;
  matrix_assembled : Z;
}.

Definition default_rtol : PetscReal := Q2Qc (1 # 100000000000).
Definition default_restart : Z := 100.

Definition set_full_A (g : globals) (m : Mat) : globals :=
  mkGlobals (nid g) (total_levels g) m (ham_A g) (ham_stiff_A g)
    (_lindblad_terms g) (_stiff_solver g) (_num_time_dep g) (_time_dep_list g)
    (_num_quantum_gates g) (_print_dense_ham g) (_ts_monitor g)
    (stab_added g) (matrix_assembled g).
Definition set_ham_A (g : globals) (m : Mat) : globals :=
  mkGlobals (nid g) (total_levels g) (full_A g) m (ham_stiff_A g)
    (_lindblad_terms g) (_stiff_solver g) (_num_time_dep g) (_time_dep_list g)
    (_num_quantum_gates g) (_print_dense_ham g) (_ts_monitor g)
    (stab_added g) (matrix_assembled g).
Definition set_ham_stiff_A (g : globals) (m : Mat) : globals :=
  mkGlobals (nid g) (total_levels g) (full_A g) (ham_A g) m
    (_lindblad_terms g) (_stiff_solver g) (_num_time_dep g) (_time_dep_list g)
    (_num_quantum_gates g) (_print_dense_ham g) (_ts_monitor g)
    (stab_added g) (matrix_assembled g).
Definition set_print_dense_ham (g : globals) (v : Z) : globals :=
  mkGlobals (nid g) (total_levels g) (full_A g) (ham_A g) (ham_stiff_A g)
    (_lindblad_terms g) (_stiff_solver g) (_num_time_dep g) (_time_dep_list g)
    (_num_quantum_gates g) v (_ts_monitor g)
    (stab_added g) (matrix_assembled g).
Definition set_stab_added (g : globals) (v : Z) : globals :=
  mkGlobals (nid g) (total_levels g) (full_A g) (ham_A g) (ham_stiff_A g)
    (_lindblad_terms g) (_stiff_solver g) (_num_time_dep g) (_time_dep_list g)
    (_num_quantum_gates g) (_print_dense_ham g) (_ts_monitor g)
    v (matrix_assembled g).
Definition set_matrix_assembled (g : globals) (v : Z) : globals :=
  mkGlobals (nid g) (total_levels g) (full_A g) (ham_A g) (ham_stiff_A g)
    (_lindblad_terms g) (_stiff_solver g) (_num_time_dep g) (_time_dep_list g)
    (_num_quantum_gates g) (_print_dense_ham g) (_ts_monitor g)
    (stab_added g) v.

(** A C integer used as a condition. *)
Definition truthy (z : Z) : bool := negb (z =? 0).

(** [solve_A] is a handle on [full_A] or on [ham_A]: a write through it
    lands in the matrix it names. *)
Inductive solve_handle := on_full_A | on_ham_A.

Definition get_solve_A (h : solve_handle) (g : globals) : Mat :=
  match h with on_full_A => full_A g | on_ham_A => ham_A g end.
Definition set_solve_A (h : solve_handle) (g : globals) (m : Mat) : globals :=
  match h with on_full_A => set_full_A g m | on_ham_A => set_ham_A g m end.

(** How a call ends: [exit(0)] leaves the process, otherwise the call
    returns with what it handed to the kernel's solver. *)
Inductive outcome (A : Type) :=
| Exit (g : globals)
| Done (g : globals) (a : A).
Arguments Exit {A} g.
Arguments Done {A} g a.

(** The block printing the dense Hamiltonian: what it leaves in the
    variables is the cleared request. *)
Definition print_dense_ham (g : globals) : globals :=
  if truthy (_print_dense_ham g) then set_print_dense_ham g 0 else g.

(** The loop over [i] in [0, total_levels) on row 0, column
    [i*(total_levels+1)] of [full_A], adding [mat_tmp]. *)
Definition stabilization_loop (g : globals) (mat_tmp : PetscScalar) : Mat :=
  fold_left
    (fun A i => MatSetValue_ADD A 0 (i * (total_levels g + 1)) mat_tmp)
    (loop_range 0 (total_levels g)) (full_A g).

(** The loop adding [0] to the diagonal of the rows this process owns. *)
Definition add_zero_diagonal (m : Mat) : Mat :=
  let '(Istart, Iend) := MatGetOwnershipRange m in
  fold_left
    (fun A i => MatSetValue_ADD A i i (Cadd (Creal 0) (Cmul (Creal 0) PETSC_i)))
    (loop_range Istart (Iend - Istart)) m.

(** The linear solver context as [steady_state] sets it up. *)
Inductive KSPType := KSPGMRES.
Inductive PCType := PCASM.
Record KSP := mkKSP {
  ksp_operators : Mat * Mat;
  ksp_rtol : PetscReal;
  ksp_pc_type : PCType;
  ksp_type : KSPType;
  ksp_gmres_restart : Z;
}.

(** What [steady_state] hands to [KSPSolve]: the context, [b] and [x]. *)
Record linear_system := mkLinearSystem {
  ls_ksp : KSP;
  ls_b : Vec;
  ls_x : Vec;
}.

Definition steady_state (g : globals) (x : Vec) : outcome linear_system :=
  let continue (dim : Z) (g : globals) :=
    let g :=
      if negb (truthy (stab_added g)) then
        let g :=
          if nid g =? 0 then
            let g := set_full_A g
                       (stabilization_loop g (Cadd (Creal 1) (Cmul (Creal 0) PETSC_i))) in
            print_dense_ham g
          else g in
        set_stab_added g 1
      else g in
    let g := set_full_A g (add_zero_diagonal (full_A g)) in
    let g := set_matrix_assembled g 1 in
    let b := VecCreate dim in
    let b := VecSet b (Creal 0) in
    let x := VecSet x (Creal 0) in
    let '(x, b) :=
      if nid g =? 0 then
        let mat_tmp := Cadd (Creal 1) (Cmul (Creal 0) PETSC_i) in
        (VecSetValue_INSERT x 0 mat_tmp, VecSetValue_INSERT b 0 mat_tmp)
      else (x, b) in
    let ksp := mkKSP (full_A g, full_A g) default_rtol PCASM KSPGMRES default_restart in
    Done g (mkLinearSystem ksp b x) in
  if truthy (_lindblad_terms g) then
    continue (total_levels g * total_levels g) g
  else if nid g =? 0 then Exit g
  else continue (total_levels g * total_levels g) g.

(** The time stepper as [time_step] sets it up. *)
Inductive TSType := TSRK_3BS | TSROSW.
Inductive event_function := QG_EventFunction | Normalize_EventFunction.
Inductive post_event_function := QG_PostEventFunction | Normalize_PostEventFunction.
Record event_handler := mkEventHandler {
  ev_nevents : Z;
  ev_direction : Z;
  ev_terminate : bool;
  ev_function : event_function;
  ev_post_function : post_event_function;
}.
Inductive rhs_jacobian :=
| TSComputeRHSJacobianConstant (A : Mat)
| RHS_time_dep_ham (AA : Mat).
Record TS := mkTS {
  ts_monitor_set : bool;
  ts_ifunction_set : bool;
  ts_rhs_jacobian : rhs_jacobian;
  ts_ijacobian : option Mat;
  ts_initial_step : PetscReal * PetscReal;
  ts_duration : Z * PetscReal;
  ts_type : TSType;
  (** the calls to [TSSetEventHandler], in the order they are made *)
  ts_event_handlers : list event_handler;
  ts_solution : option Vec;
}.

(** The entries [0 .. n-1] of a C array. *)
Definition first_n {A} (n : Z) (l : list A) : list A := take (Z.to_nat n) l.

(** The loops of [time_step] that add zero-valued entries where the
    time-dependent terms will be written. *)
Definition register_time_dep_pattern (g : globals) (solve_A : Mat) : Mat :=
  fold_left
    (fun A td =>
       fold_left
         (fun A op =>
            if truthy (_lindblad_terms g) then
              let A := _add_to_PETSc_kron (total_levels g) A
                         (Cadd (Creal 0) (Cmul (Creal 0) PETSC_i))
                         (n_before op) (my_levels op) (my_op_type op) (position op)
                         (total_levels g) 1 in
              _add_to_PETSc_kron (total_levels g) A
                (Cadd (Creal 0) (Cmul (Creal 0) PETSC_i))
                (n_before op) (my_levels op) (my_op_type op) (position op)
                1 (total_levels g)
            else
              _add_to_PETSc_kron (total_levels g) A
                (Cadd (Creal 0) (Cmul (Creal 0) PETSC_i))
                (n_before op) (my_levels op) (my_op_type op) (position op) 1 1)
         (first_n (num_ops td) (ops td)) A)
    (first_n (_num_time_dep g) (_time_dep_list g)) solve_A.

(** What [time_step] hands to [TSSolve]: the stepper and [x]. *)
Record integration := mkIntegration {
  in_ts : TS;
  in_x : Vec;
}.

(** The block under "Remove stabilization if it was previously added". *)
Definition remove_stabilization (g : globals) : globals :=
  if truthy (stab_added g) then
    if nid g =? 0 then
      set_full_A g (stabilization_loop g (Cadd (Creal (-1)) (Cmul (Creal 0) PETSC_i)))
    else g
  else g.

(** The two loops adding [0] to the diagonals of [solve_A] and, for the
    stiff solver, of [solve_stiff_A]. *)
Definition add_zero_diagonals (h : solve_handle) (g : globals) : globals :=
  let g := set_solve_A h g (add_zero_diagonal (get_solve_A h g)) in
  if truthy (_stiff_solver g)
  then set_ham_stiff_A g (add_zero_diagonal (ham_stiff_A g)) else g.

(** The branch on [_num_time_dep]: the variables after it, the Jacobian
    given to [TSSetRHSJacobian] and the one given to [TSSetIJacobian]. *)
Definition set_jacobians (h : solve_handle) (g : globals)
    : globals * rhs_jacobian * option Mat :=
  if truthy (_num_time_dep g) then
    let g := set_solve_A h g (register_time_dep_pattern g (get_solve_A h g)) in
    let AA := MatDuplicate (get_solve_A h g) in
    (g, RHS_time_dep_ham AA, None)
  else
    (g, TSComputeRHSJacobianConstant (get_solve_A h g),
     if truthy (_stiff_solver g) then Some (ham_stiff_A g) else None).

(** The calls to [TSSetEventHandler]. *)
Definition set_event_handlers (g : globals) : list event_handler :=
  (if 0 <? _num_quantum_gates g
   then [mkEventHandler 1 (-1) false QG_EventFunction QG_PostEventFunction]
   else []) ++
  (if truthy (_lindblad_terms g)
   then [mkEventHandler 1 0 false Normalize_EventFunction Normalize_PostEventFunction]
   else []).

(** [time_step] past the two checks at its head. *)
Definition integrate (h : solve_handle) (g : globals) (x : Vec)
    (time_max dt : PetscReal) (steps_max : Z) : outcome integration :=
  let g := if nid g =? 0 then print_dense_ham g else g in
  let g := remove_stabilization g in
  let g := add_zero_diagonals h g in
  let '(g, jac, ijac) := set_jacobians h g in
  let ts :=
    mkTS (_ts_monitor g) (truthy (_stiff_solver g)) jac ijac
      (0%Qc, dt) (steps_max, time_max)
      (if truthy (_stiff_solver g) then TSROSW else TSRK_3BS)
      (set_event_handlers g) None in
  Done g (mkIntegration ts x).

Definition time_step (g : globals) (x : Vec) (time_max dt : PetscReal)
    (steps_max : Z) : outcome integration :=
  if truthy (_lindblad_terms g) then
    (* solve_A = full_A *)
    if truthy (_stiff_solver g) then Exit g
    else integrate on_full_A g x time_max dt steps_max
  else
    (* solve_A = ham_A; solve_stiff_A = ham_stiff_A *)
    if truthy (_num_time_dep g) && truthy (_stiff_solver g) then Exit g
    else integrate on_ham_A g x time_max dt steps_max.

(** The Jacobian callback registered for time-dependent runs.  [BB] is the
    matrix the stepper passes; the value returned is [BB] after the call. *)
Definition _RHS_time_dep_ham (g : globals) (t : PetscReal) (X : Vec) (BB : Mat) : Mat :=
  let BB := MatZeroEntries BB in
  let BB := MatCopy (full_A g) BB in
  fold_left
    (fun BB td =>
       let time_dep_val := time_dep_func td t in
       fold_left
         (fun BB op =>
            (* Add -i *(I cross H(t)) *)
            let BB := _add_to_PETSc_kron (total_levels g) BB
                        (Csub (Creal 0) (Cmul (Creal time_dep_val) PETSC_i))
                        (n_before op) (my_levels op) (my_op_type op) (position op)
                        (total_levels g) 1 in
            (* Add i *(H(t) cross I) *)
            _add_to_PETSc_kron (total_levels g) BB
              (Cadd (Creal 0) (Cmul (Creal time_dep_val) PETSC_i))
              (n_before op) (my_levels op) (my_op_type op) (position op)
              1 (total_levels g))
         (first_n (num_ops td) (ops td)) BB)
    (first_n (_num_time_dep g) (_time_dep_list g)) BB.

(** The normalization event: [fvalue] is the array the stepper passes, with
    one slot per event. *)
Definition _Normalize_EventFunction (t : PetscReal) (U : Vec)
    (fvalue : list PetscScalar) : Z * list PetscScalar :=
  (0, <[0%nat := Creal 0]> fvalue).

(** Its post-event action; [CHKERRQ] returns the kernel's error code as soon
    as it is not zero. *)
Definition _Normalize_PostEventFunction (ts : TS) (nevents : Z)
    (event_list : list Z) (t : PetscReal) (U : Vec) : Z * TS * Vec :=
  let '(ierr, U) := VecNormalize U in
  if truthy ierr then (ierr, ts, U)
  else
    (0,
     mkTS (ts_monitor_set ts) (ts_ifunction_set ts) (ts_rhs_jacobian ts)
       (ts_ijacobian ts) (ts_initial_step ts) (ts_duration ts) (ts_type ts)
       (ts_event_handlers ts) (Some U),
     U).

(** The variables as a call leaves them. *)
Definition globals_after {A : Type} (o : outcome A) : globals :=
  match o with Exit g => g | Done g _ => g end.

(** What the call handed to the solver, when it returned. *)
Definition handed_over {A : Type} (o : outcome A) : option A :=
  match o with Exit _ => None | Done _ a => Some a end.

(** The matrix the stepper works with at time [t]: the constant one, or
    what the registered callback makes of [AA]. *)
Definition TSComputeRHSJacobian (g : globals) (ts : TS) (t : PetscReal) (X : Vec) : Mat :=
  match ts_rhs_jacobian ts with
  | TSComputeRHSJacobianConstant A => A
  | RHS_time_dep_ham AA => _RHS_time_dep_ham g t X AA
  end.

(** The rebuild as the specification words it (section 4.5): zero the
    matrix, copy [full_A] (Liouville) or [ham_A] (Schroedinger), then for
    every time-dependent term and each of its operators add
    [-i f(t) (I (x) O)] and [+i f(t) (O (x) I)] (Liouville), or
    [-i f(t) O] alone (Schroedinger). *)
Definition RHS_rebuild_spec (g : globals) (t : PetscReal) (BB : Mat) : Mat :=
  let BB := MatZeroEntries BB in
  let BB := MatCopy (if truthy (_lindblad_terms g) then full_A g else ham_A g) BB in
  fold_left
    (fun BB td =>
       let f := time_dep_func td t in
       fold_left
         (fun BB op =>
            if truthy (_lindblad_terms g) then
              let BB := _add_to_PETSc_kron (total_levels g) BB
                          (Csub (Creal 0) (Cmul (Creal f) PETSC_i))
                          (n_before op) (my_levels op) (my_op_type op) (position op)
                          (total_levels g) 1 in
              _add_to_PETSc_kron (total_levels g) BB
                (Cadd (Creal 0) (Cmul (Creal f) PETSC_i))
                (n_before op) (my_levels op) (my_op_type op) (position op)
                1 (total_levels g)
            else
              _add_to_PETSc_kron (total_levels g) BB
                (Csub (Creal 0) (Cmul (Creal f) PETSC_i))
                (n_before op) (my_levels op) (my_op_type op) (position op) 1 1)
         (first_n (num_ops td) (ops td)) BB)
    (first_n (_num_time_dep g) (_time_dep_list g)) BB.

(** The matrix the stepper works with at time [t] after the call [o], as
    the code rebuilds it and as the specification words it. *)
Definition rebuilt_at (o : outcome integration) (t : PetscReal) : Mat :=
  match o with
  | Done g r => TSComputeRHSJacobian g (in_ts r) t (in_x r)
  | Exit _ => ∅
  end.

Definition specified_at (o : outcome integration) (t : PetscReal) : Mat :=
  match o with
  | Done g r =>
      match ts_rhs_jacobian (in_ts r) with
      | RHS_time_dep_ham AA => RHS_rebuild_spec g t AA
      | TSComputeRHSJacobianConstant A => A
      end
  | Exit _ => ∅
  end.

(** What no step of [time_step] writes. *)
Definition same_flags (g g' : globals) : Prop :=
  nid g' = nid g /\ total_levels g' = total_levels g /\
  _lindblad_terms g' = _lindblad_terms g /\ _stiff_solver g' = _stiff_solver g /\
  _num_time_dep g' = _num_time_dep g /\ _time_dep_list g' = _time_dep_list g /\
  _num_quantum_gates g' = _num_quantum_gates g /\ _ts_monitor g' = _ts_monitor g /\
  stab_added g' = stab_added g /\ matrix_assembled g' = matrix_assembled g.

End WithKernel.

Arguments Exit {_ A} g.
Arguments Done {_ A} g a.

End Solver.

(** ** A kernel for two-level sites *)

Module QubitKernel.
Import Petsc Solver.

(** Modelled from the spec: the operator tags of [operators.h] and the
    Kronecker assembler [_add_to_PETSc_kron] of [kron.c] are not among the
    sources.  The spec's operator semantics (section 4.1) on a two-level
    site: [SP = |1><0|], [SM = |0><1|], the Pauli matrices and the
    identity.  Each is given by its non-zero entries (row, column, value). *)
Inductive qubit_op := OP_I | OP_X | OP_Y | OP_Z | OP_SP | OP_SM.

Definition single_site (o : qubit_op) : list (Z * Z * PetscScalar) :=
  match o with
  | OP_I => [(0, 0, Cone); (1, 1, Cone)]
  | OP_X => [(0, 1, Cone); (1, 0, Cone)]
  | OP_Y => [(0, 1, Csub Czero PETSC_i); (1, 0, PETSC_i)]
  | OP_Z => [(0, 0, Cone); (1, 1, Creal (-1))]
  | OP_SP => [(1, 0, Cone)]
  | OP_SM => [(0, 1, Cone)]
  end.

(** Modelled from the spec: the assembler embeds [O] at its site as
    [I_(n_before) (x) O (x) I_(n_after)], with
    [n_after = D / (n_before * levels)], puts the two outer identity factors
    [extra_before] and [extra_after] around it, and emits the product with
    the coefficient as [ADD_VALUES] contributions. *)
Definition kron_add (total_levels : Z) (matrix : Mat) (a : PetscScalar)
    (n_before my_levels : Z) (my_op_type : qubit_op)
    (position extra_before extra_after : Z) : Mat :=
  let n_after := total_levels / (my_levels * n_before) in
  fold_left (fun M eb =>
  fold_left (fun M kb =>
  fold_left (fun M (e : Z * Z * PetscScalar) =>
  fold_left (fun M ka =>
  fold_left (fun M ea =>
    MatSetValue_ADD M
      ((((eb * n_before + kb) * my_levels + e.1.1) * n_after + ka) * extra_after + ea)
      ((((eb * n_before + kb) * my_levels + e.1.2) * n_after + ka) * extra_after + ea)
      (Cmul a e.2))
    (loop_range 0 extra_after) M)
    (loop_range 0 n_after) M)
    (single_site my_op_type) M)
    (loop_range 0 n_before) M)
    (loop_range 0 extra_before) matrix.

(** The squared 2-norm of a vector. *)
Definition norm2_squared (v : Vec) : Qc :=
  fold_left (fun acc z => (acc + (re z * re z + im z * im z))%Qc) v 0%Qc.

(** A single process owning all [dim] rows.  Its normalisation is exact on
    what rationals can express: a vector of norm one is its own normal form;
    any other is refused with the kernel's unsupported-operation code. *)
Definition qubit_kernel (dim : Z) : Kernel :=
  {| op_type := qubit_op;
     _add_to_PETSc_kron := kron_add;
     MatGetOwnershipRange := fun _ => (0, dim);
     VecNormalize := fun v => if Qc_eq_dec (norm2_squared v) 1%Qc then (0, v) else (56, v) |}.

(** A qubit with decay: [D = 2], the Liouvillian of dimension 4 still
    empty, no time dependence, explicit solver, one process. *)
Definition lindblad_qubit : @globals (qubit_kernel 4) :=
  @mkGlobals (qubit_kernel 4) 0 2 ∅ ∅ ∅ 1 0 0 [] 0 0 false 0 0.

Definition after_steady_state : @globals (qubit_kernel 4) :=
  globals_after (steady_state lindblad_qubit (VecCreate 4)).
Definition after_first_time_step : @globals (qubit_kernel 4) :=
  globals_after (time_step after_steady_state (VecCreate 4) 1%Qc 1%Qc 10).
Definition after_second_time_step : @globals (qubit_kernel 4) :=
  globals_after (time_step after_first_time_step (VecCreate 4) 1%Qc 1%Qc 10).

(** A driven qubit without decay: [H = Z] held in [ham_A] as [-i Z], the
    drive [f(t) X] with [f(t) = t], nothing in [full_A]. *)
Definition driven_qubit : @globals (qubit_kernel 2) :=
  @mkGlobals (qubit_kernel 2) 0 2 ∅
    (<[(1, 1) := PETSC_i]> (<[(0, 0) := Csub Czero PETSC_i]> ∅)) ∅
    0 0 1 [@mkTimeDep (qubit_kernel 2) (fun t => t) 1 [@mkOperator (qubit_kernel 2) 1 2 OP_X 0]]
    0 0 false 0 0.

(** The same qubit with a decay term registered. *)
Definition driven_decaying_qubit : @globals (qubit_kernel 4) :=
  @mkGlobals (qubit_kernel 4) 0 2 ∅ ∅ ∅
    1 0 1 [@mkTimeDep (qubit_kernel 4) (fun t => t) 1 [@mkOperator (qubit_kernel 4) 1 2 OP_X 0]]
    0 0 false 0 0.

Definition driven_qubit_run : outcome integration :=
  time_step driven_qubit (VecCreate 2) 1%Qc 1%Qc 10.

Definition driven_decaying_qubit_run : outcome integration :=
  time_step driven_decaying_qubit (VecCreate 4) 1%Qc 1%Qc 10.

(** The stiff solver asked for together with a decay term. *)
Definition stiff_decaying_qubit : @globals (qubit_kernel 4) :=
  @mkGlobals (qubit_kernel 4) 0 2 ∅ ∅ ∅ 1 1 0 [] 0 0 false 0 0.

End QubitKernel.

(** ** [xacc/Utils/Hamiltonian.cpp] *)

Module Hamiltonian.

(** A [std::string]: its characters in order. *)
Abbreviation str := (list ascii).

(** A string literal. *)
Definition lit (s : string) : str := list_ascii_of_string s.

(** A [double], idealised as an exact rational. *)
Abbreviation double := Q.

(** *** How a call ends *)

(** A call returns, or leaves through one of: the exception of [std::stoi]
    on a value that does not fit [int]; its exception on a string that is
    not a number; the exception of the JSON library on a value of another
    type; a failed [assert]; an operation the language leaves undefined
    ([back()] of an empty string, a cast or an increment out of the range of
    [int]).  [fuel_exhausted] is the model's own: a recursion that ran out
    of its step bound. *)
Inductive failure :=
| out_of_range
| invalid_argument
| type_error
| assertion_failed
| undefined_behaviour
| fuel_exhausted.

Inductive result (A : Type) :=
| Ret (a : A)
| Raise (e : failure).
Arguments Ret {A} a.
Arguments Raise {A} e.

#[global] Instance result_ret : MRet result := fun A a => Ret a.
#[global] Instance result_bind : MBind result := fun A B f m =>
  match m with Ret a => f a | Raise e => Raise e end.

(** *** The operations of [std::string] and of [<cctype>] the parser uses *)

Definition INT_MAX : Z := 2147483647.
Definition INT_MIN : Z := -2147483648.

Definition code (c : ascii) : nat := nat_of_ascii c.

(** [std::isspace] in the C locale. *)
Definition isspace (c : ascii) : bool :=
  (code c =? 32)%nat || ((9 <=? code c)%nat && (code c <=? 13)%nat).

(** [isalpha] in the C locale. *)
Definition isalpha (c : ascii) : bool :=
  ((65 <=? code c)%nat && (code c <=? 90)%nat) ||
  ((97 <=? code c)%nat && (code c <=? 122)%nat).

(** [::toupper] in the C locale. *)
Definition toupper (c : ascii) : ascii :=
  if ((97 <=? code c)%nat && (code c <=? 122)%nat)
  then ascii_of_nat (code c - 32) else c.

Fixpoint is_prefix (p s : str) : bool :=
  match p, s with
  | [], _ => true
  | a :: p', b :: s' => Ascii.eqb a b && is_prefix p' s'
  | _ :: _, [] => false
  end.

(** [s.find(pat)]: the position of the first occurrence ([None] is [npos]). *)
Fixpoint find (pat s : str) : option nat :=
  if is_prefix pat s then Some 0%nat
  else match s with
       | [] => None
       | _ :: t => S <$> find pat t
       end.

(** [s.find_first_of(c)] for a one-character set. *)
Fixpoint find_first_of (c : ascii) (s : str) : option nat :=
  match s with
  | [] => None
  | x :: t => if Ascii.eqb x c then Some 0%nat else S <$> find_first_of c t
  end.

(** [s.find_last_of(c)] for a one-character set. *)
Fixpoint find_last_of (c : ascii) (s : str) : option nat :=
  match s with
  | [] => None
  | x :: t =>
      match find_last_of c t with
      | Some k => Some (S k)
      | None => if Ascii.eqb x c then Some 0%nat else None
      end
  end.

(** [s.back()]. *)
Definition back (s : str) : result ascii :=
  match last s with
  | Some c => Ret c
  | None => Raise undefined_behaviour
  end.

(** [s.pop_back()] on a string that is not empty. *)
Definition pop_back (s : str) : str := removelast s.

(** [std::to_string(int)]. *)
Definition to_string (z : Z) : str :=
  list_ascii_of_string (NilZero.string_of_int (Z.to_int z)).

Definition is_digit (c : ascii) : bool :=
  negb (negb (Ascii.eqb c "0") && negb (Ascii.eqb c "1") &&
        negb (Ascii.eqb c "2") && negb (Ascii.eqb c "3") &&
        negb (Ascii.eqb c "4") && negb (Ascii.eqb c "5") &&
        negb (Ascii.eqb c "6") && negb (Ascii.eqb c "7") &&
        negb (Ascii.eqb c "8") && negb (Ascii.eqb c "9")).

Definition digit_value (c : ascii) : Z := Z.of_nat (code c) - 48.

Definition decimal_value (s : str) : Z :=
  fold_left (fun acc c => 10 * acc + digit_value c) s 0.

(** [std::stoi] on the strings the parser passes to it, which are never
    empty and hold digits only. *)
Definition stoi (s : str) : result Z :=
  match s with
  | [] => Raise invalid_argument
  | _ =>
      if forallb is_digit s then
        if decimal_value s <=? INT_MAX then Ret (decimal_value s)
        else Raise out_of_range
      else Raise invalid_argument
  end.

(** The cast [(int)d]: the fraction is dropped; a value outside [int] is
    undefined. *)
Definition cast_int (d : double) : result Z :=
  let z := Z.quot (Qnum d) (Zpos (Qden d)) in
  if (INT_MIN <=? z) && (z <=? INT_MAX) then Ret z else Raise undefined_behaviour.

(** *** The helpers in the anonymous namespace *)

Definition removeWhiteSpaces (in_str : str) : str :=
  List.filter (fun c => negb (isspace c)) in_str.

Definition toUpperCase (in_str : str) : str := map toupper in_str.

Definition isNumberString (in_str : str) : bool := forallb is_digit in_str.

(** [std::map<std::string,double>]: its entries, in key order. *)
Abbreviation VarsMap := (list (str * double)).

Fixpoint str_ltb (a b : str) : bool :=
  match a, b with
  | _, [] => false
  | [], _ :: _ => true
  | x :: a', y :: b' =>
      (code x <? code y)%nat || ((code x =? code y)%nat && str_ltb a' b')
  end.

Definition str_eqb (a b : str) : bool := bool_decide (a = b).

(** [m.emplace(k, v)]: no effect when the key is there already. *)
Fixpoint emplace (m : VarsMap) (k : str) (v : double) : VarsMap :=
  match m with
  | [] => [(k, v)]
  | (k', v') :: m' =>
      if str_eqb k k' then m
      else if str_ltb k k' then (k, v) :: m
      else (k', v') :: emplace m' k v
  end.

(** What the parser uses and [Hamiltonian.cpp] does not define: the
    operator tags of [Hamiltonian.hpp] with their table from names, the
    expression engine behind [xacc::ExpressionParsingUtil], and the order in
    which a [std::unordered_map] hands out its keys (the argument lists the
    keys in the order they were inserted). *)
Class Services := {
  Operator : Type;
  NA : Operator;
  Operator_eq_dec :: EqDecision Operator;
  ConvertOperatorFromString : str -> Operator;
  validExpression : str -> list str -> bool;
  evaluate : str -> list str -> list double -> option double;
  unordered_map_order : list str -> list str;
}.

Section WithServices.
Context `{Services}.

Definition QubitOp : Type := Operator * Z.

Definition GetLastOperator (in_str : str) : result (option (QubitOp * str)) :=
  (* Find the last '*' character *)
  match find_last_of "*" in_str with
  | None => Ret None
  | Some pos =>
      let opName := toUpperCase (drop (pos + 1) in_str) in
      match list_find (fun c => negb (isalpha c) = true) opName with
      | None => Ret None
      | Some (k, _) =>
          let opStr := take k opName in
          if (length opStr <? 1)%nat || bool_decide (ConvertOperatorFromString opStr = NA)
          then Ret None
          else
            let qubitIdxStr := drop k opName in
            if negb (isNumberString qubitIdxStr) then Ret None
            else
              let op := ConvertOperatorFromString opStr in
              qIdx ← stoi qubitIdxStr;
              Ret (Some ((op, qIdx), take pos in_str))
      end
  end.

(** Unwrap expression of type blabla*(A +/- B) into blabla*A +/- blabla*B *)
Definition UnwrapOpExpresion (in_str : str) : result (list str) :=
  b ← back in_str;
  if negb (Ascii.eqb b ")") then Ret []
  else
    match find_last_of "(" in_str with
    | None => Ret []
    | Some pos =>
        let coeffExpr := take pos in_str in
        let wrappedExpr := drop (pos + 1) in_str in
        (* remove the last ')' character *)
        let wrappedExpr := pop_back wrappedExpr in
        let check1 := find_first_of "(" wrappedExpr in
        let check2 := find_first_of ")" wrappedExpr in
        if bool_decide (check1 <> None) || bool_decide (check2 <> None)
        then Ret []
        else
          let pmPos :=
            if bool_decide (find_first_of "+" wrappedExpr = None)
            then find_first_of "-" wrappedExpr
            else find_first_of "+" wrappedExpr in
          match pmPos with
          | Some pmPos =>
              let expr1 := take pmPos wrappedExpr in
              let expr2 := drop (pmPos + 1) wrappedExpr in
              (* (1.0)* or (-1.0)* *)
              let signExpr :=
                lit "(" ++ take 1 (drop pmPos wrappedExpr) ++ lit "1.0)*" in
              Ret [coeffExpr ++ expr1; signExpr ++ coeffExpr ++ expr2]
          | None => Ret []
          end
    end.

Definition TryEvaluateExpression (in_exprString : str) (in_vars : VarsMap)
    : option double :=
  let varNames := map fst in_vars in
  let varVals := map snd in_vars in
  if negb (validExpression in_exprString varNames) then None
  else evaluate in_exprString varNames varVals.

(** *** The terms *)

#[warnings="-register-all"]
Inductive HamiltonianTerm :=
| HamiltonianTimeIndependentTerm (m_coefficient : double) (m_operators : list QubitOp)
| HamiltonianTimeDependentTerm (m_channelName : str) (m_coefficient : double)
    (m_operators : list QubitOp)
| HamiltonianSumTerm (m_terms : list HamiltonianTerm).

(** The loop [while (GetLastOperator(tempStr, tempOp, remainderStr))]: the
    operators found, last first, and [remainderStr] when the loop ends.
    Every round shortens [tempStr]; [fuel] bounds the rounds. *)
Fixpoint collect_operators (fuel : nat) (tempStr remainderStr : str)
    (operators : list QubitOp) : result (list QubitOp * str) :=
  match fuel with
  | O => Raise fuel_exhausted
  | S fuel =>
      r ← GetLastOperator tempStr;
      match r with
      | Some (tempOp, remainderStr) =>
          collect_operators fuel remainderStr remainderStr (operators ++ [tempOp])
      | None => Ret (operators, remainderStr)
      end
  end.

(** The tail both term parsers share: the operators from the back, the
    coefficient from what is left, the operators put back in order. *)
Definition parse_product (expression : str)
    (make : double -> list QubitOp -> HamiltonianTerm)
    (in_vars : VarsMap) : result (option HamiltonianTerm) :=
  '(operators, remainderStr) ← collect_operators (S (length expression)) expression [] [];
  match TryEvaluateExpression remainderStr in_vars with
  | None => Ret None
  | Some evaled => Ret (Some (make evaled (rev operators)))
  end.

(** The two terms of a split expression parsed by [self] and put under a
    sum; no term when either is missing. *)
Definition parse_split (self : str -> result (option HamiltonianTerm))
    (first second : str) : result (option HamiltonianTerm) :=
  expr1 ← self first;
  expr2 ← self second;
  match expr1, expr2 with
  | Some expr1, Some expr2 => Ret (Some (HamiltonianSumTerm [expr1; expr2]))
  | _, _ => Ret None
  end.

(** The body of [HamiltonianTimeDependentTerm::fromString]; [self] stands
    for the recursive calls. *)
Definition HamiltonianTimeDependentTerm_fromString_body
    (self : str -> result (option HamiltonianTerm))
    (in_string : str) (in_vars : VarsMap) : result (option HamiltonianTerm) :=
  let exprStr := removeWhiteSpaces in_string in
  (* Find the special '||' channel separator *)
  match find (lit "||") exprStr with
  | None => Ret None
  | Some separatorPos =>
      let channelName := toUpperCase (drop (separatorPos + 2) exprStr) in
      (* Minimum length: 2 *)
      if (length channelName <? 2)%nat
         || (negb (bool_decide (head channelName = Some "D"%char))
             && negb (bool_decide (head channelName = Some "U"%char)))
         || negb (isNumberString (drop 1 channelName))
      then Ret None
      else
        let operatorExpression := take separatorPos exprStr in
        b ← back operatorExpression;
        if Ascii.eqb b ")" then
          splitExprs ← UnwrapOpExpresion operatorExpression;
          match splitExprs with
          | [first; second] =>
              parse_split self
                (first ++ drop separatorPos exprStr)
                (second ++ drop separatorPos exprStr)
          | _ => Ret None
          end
        else
          parse_product operatorExpression
            (HamiltonianTimeDependentTerm channelName) in_vars
  end.

(** The body of [HamiltonianTimeIndependentTerm::fromString]. *)
Definition HamiltonianTimeIndependentTerm_fromString_body
    (self : str -> result (option HamiltonianTerm))
    (in_string : str) (in_vars : VarsMap) : result (option HamiltonianTerm) :=
  let exprStr := removeWhiteSpaces in_string in
  (* Don't process time-dependent terms *)
  match find (lit "||") exprStr with
  | Some _ => Ret None
  | None =>
      b ← back exprStr;
      if Ascii.eqb b ")" then
        splitExprs ← UnwrapOpExpresion exprStr;
        match splitExprs with
        | [first; second] => parse_split self first second
        | _ => Ret None
        end
      else
        parse_product exprStr HamiltonianTimeIndependentTerm in_vars
  end.

(** The opening brackets of a string that do not open a sign factor
    [(+1.0)*] or [(-1.0)*]: every recursive call of the two parsers is on a
    string with fewer of them. *)
Fixpoint open_brackets (s : str) : nat :=
  match s with
  | [] => 0
  | c :: t =>
      (if Ascii.eqb c "("
          && negb (is_prefix (lit "+1.0)*") t || is_prefix (lit "-1.0)*") t)
       then 1 else 0) + open_brackets t
  end%nat.

Fixpoint HamiltonianTimeDependentTerm_fromString_fuel (fuel : nat)
    (in_vars : VarsMap) (in_string : str) : result (option HamiltonianTerm) :=
  match fuel with
  | O => Raise fuel_exhausted
  | S fuel =>
      HamiltonianTimeDependentTerm_fromString_body
        (HamiltonianTimeDependentTerm_fromString_fuel fuel in_vars) in_string in_vars
  end.

Definition HamiltonianTimeDependentTerm_fromString (in_string : str)
    (in_vars : VarsMap) : result (option HamiltonianTerm) :=
  HamiltonianTimeDependentTerm_fromString_fuel
    (S (open_brackets (removeWhiteSpaces in_string))) in_vars in_string.

Fixpoint HamiltonianTimeIndependentTerm_fromString_fuel (fuel : nat)
    (in_vars : VarsMap) (in_string : str) : result (option HamiltonianTerm) :=
  match fuel with
  | O => Raise fuel_exhausted
  | S fuel =>
      HamiltonianTimeIndependentTerm_fromString_body
        (HamiltonianTimeIndependentTerm_fromString_fuel fuel in_vars) in_string in_vars
  end.

Definition HamiltonianTimeIndependentTerm_fromString (in_string : str)
    (in_vars : VarsMap) : result (option HamiltonianTerm) :=
  HamiltonianTimeIndependentTerm_fromString_fuel
    (S (open_brackets (removeWhiteSpaces in_string))) in_vars in_string.

(** *** [HamiltonianSumTerm::fromString] *)

(** The lambda [GetNextCommaSeparatedSubString]: the string returned and
    [io_string] after the call. *)
Definition GetNextCommaSeparatedSubString (io_string : str) : str * str :=
  match find (lit ",") io_string with
  | None => ([], io_string)
  | Some commaPos => (take commaPos io_string, drop (commaPos + 1) io_string)
  end.

(** The successive matches of the regular expression [\{.*?\}]: from an
    opening brace to the first closing brace after it, with no line end in
    between.  [cur] holds the match under way. *)
Fixpoint regex_matches (s : str) (cur : option str) : list str :=
  match s with
  | [] => []
  | c :: t =>
      match cur with
      | None =>
          if Ascii.eqb c "{" then regex_matches t (Some [c])
          else regex_matches t None
      | Some m =>
          if Ascii.eqb c "}" then (m ++ [c]) :: regex_matches t None
          else if (code c =? 10)%nat || (code c =? 13)%nat then regex_matches t None
          else regex_matches t (Some (m ++ [c]))
      end
  end.

(** [loopVarExprs.emplace(match, 0)] for every match: the keys, in the
    order they enter the map. *)
Definition emplace_key (keys : list str) (k : str) : list str :=
  if bool_decide (k ∈ keys) then keys else keys ++ [k].

(** The lambda [replaceTemplateWithValue] applied to [result]: every
    occurrence of [in_template], found from the left and never inside the
    text just put in, is replaced.  [skip] counts the characters of the
    occurrence being replaced that are still to pass. *)
Fixpoint replace_occurrences (in_template replaceStr : str) (result : str)
    (skip : nat) : str :=
  match result with
  | [] => []
  | c :: t =>
      match skip with
      | S k => replace_occurrences in_template replaceStr t k
      | O =>
          if is_prefix in_template result
          then replaceStr ++
               replace_occurrences in_template replaceStr t (length in_template - 1)
          else c :: replace_occurrences in_template replaceStr t 0
      end
  end.

Definition replaceTemplateWithValue (result in_template : str) (in_value : Z) : str :=
  replace_occurrences in_template (to_string in_value) result 0.

(** The value given to one key of [loopVarExprs]. *)
Definition loop_template_value (varFmt in_loopVarName : str) (in_val : Z)
    (loopVarExpr : str) : result Z :=
  (* Fast path: if it is simply {i}, the assign the value directly *)
  if str_eqb loopVarExpr varFmt then Ret in_val
  else
    (* Something more complex: like {i+1}; remove the curly brackets *)
    let loopVarExpr := pop_back (drop 1 loopVarExpr) in
    match TryEvaluateExpression loopVarExpr (emplace [] in_loopVarName (inject_Z in_val)) with
    | Some evalResult => cast_int evalResult
    | None => Ret 0
    end.

(** The lambda [resolveLoopTemplate], which captures [varFmt]. *)
Definition resolveLoopTemplate (varFmt in_string in_loopVarName : str)
    (in_val : Z) : result str :=
  let loopVarExprs :=
    unordered_map_order (fold_left emplace_key (regex_matches in_string None) []) in
  values ← mapM (fun k => v ← loop_template_value varFmt in_loopVarName in_val k;
                           Ret (k, v)) loopVarExprs;
  Ret (fold_left (fun result (kv : str * Z) => replaceTemplateWithValue result kv.1 kv.2)
         values in_string).

(** [HamiltonianSumTerm::fromString] from the point where the four fields
    of the macro have been read. *)
Definition sum_over_loop (loopVarName startValStr endValStr loopExpression : str)
    (in_vars : VarsMap) : result (option HamiltonianTerm) :=
  let varFmt := lit "{" ++ loopVarName ++ lit "}" in
  if bool_decide (loopVarName = []) || bool_decide (startValStr = [])
     || bool_decide (endValStr = []) || bool_decide (loopExpression = [])
     || negb (isNumberString startValStr) || negb (isNumberString endValStr)
     (* The expression doesn't contain the loop index var!!! *)
     || bool_decide (find varFmt loopExpression = None)
  then Ret None
  else
    startLoopVal ← stoi startValStr;
    endLoopVal ← stoi endValStr;
    if endLoopVal <? startLoopVal then Ret None
    else
      resolvedExpression ←
        resolveLoopTemplate varFmt loopExpression loopVarName startLoopVal;
      tryTimeIndependent ←
        HamiltonianTimeIndependentTerm_fromString resolvedExpression in_vars;
      tryTimeDependent ←
        HamiltonianTimeDependentTerm_fromString resolvedExpression in_vars;
      if bool_decide (tryTimeIndependent = None) && bool_decide (tryTimeDependent = None)
      then Ret None
      else
        let isTimeDependent := negb (bool_decide (tryTimeDependent = None)) in
        let parseLoopExpression (in_exprStr : str) :=
          if isTimeDependent
          then HamiltonianTimeDependentTerm_fromString in_exprStr in_vars
          else HamiltonianTimeIndependentTerm_fromString in_exprStr in_vars in
        (* Note: IBM uses an inclusive loop index (i.e. the end value is included) *)
        loopOps ←
          mapM (fun i =>
                  resolvedExpression ←
                    resolveLoopTemplate varFmt loopExpression loopVarName i;
                  result ← parseLoopExpression resolvedExpression;
                  match result with
                  | Some term => Ret term
                  | None => Raise assertion_failed
                  end)
               (Petsc.loop_range startLoopVal (endLoopVal - startLoopVal + 1));
        (* the [++i] that follows the round of [INT_MAX] *)
        if endLoopVal =? INT_MAX then Raise undefined_behaviour
        else Ret (Some (HamiltonianSumTerm loopOps)).

Definition HamiltonianSumTerm_fromString (in_string : str) (in_vars : VarsMap)
    : result (option HamiltonianTerm) :=
  let SUM_TERM_PREFIX := lit "_SUM[" in
  let exprStr := removeWhiteSpaces in_string in
  if negb (str_eqb (take (length SUM_TERM_PREFIX) exprStr) SUM_TERM_PREFIX)
  then Ret None (* Not a Sum term *)
  else
    b ← back exprStr;
    if negb (Ascii.eqb b "]") then Ret None
    else
      let exprStr := drop (length SUM_TERM_PREFIX) exprStr in
      let exprStr := pop_back exprStr in
      let '(loopVarName, exprStr) := GetNextCommaSeparatedSubString exprStr in
      let '(startValStr, exprStr) := GetNextCommaSeparatedSubString exprStr in
      let '(endValStr, exprStr) := GetNextCommaSeparatedSubString exprStr in
      let loopExpression := exprStr in
      sum_over_loop loopVarName startValStr endValStr loopExpression in_vars.

(** *** [HamiltonianParsingUtil::tryParse] *)

Definition HamiltonianParsingUtil_tryParse (in_expr : str) (in_vars : VarsMap)
    : result (option HamiltonianTerm) :=
  trySum ← HamiltonianSumTerm_fromString in_expr in_vars;
  match trySum with
  | Some term => Ret (Some term)
  | None =>
      tryTimeDep ← HamiltonianTimeDependentTerm_fromString in_expr in_vars;
      match tryTimeDep with
      | Some term => Ret (Some term)
      | None =>
          tryTimeInd ← HamiltonianTimeIndependentTerm_fromString in_expr in_vars;
          match tryTimeInd with
          | Some term => Ret (Some term)
          | None => Ret None
          end
      end
  end.

(** The JSON document after [nlohmann::json::parse]: an object with the
    values under ["h_str"] and the members under ["vars"], or anything else. *)
Inductive json_value :=
| json_string (s : str)
| json_number (d : double)
| json_other.

Inductive json :=
| json_object (h_str : list json_value) (vars : list (str * json_value))
| json_not_object.

(** The loop filling [vars]. *)
Fixpoint read_vars (varsArray : list (str * json_value)) (vars : VarsMap)
    : result VarsMap :=
  match varsArray with
  | [] => Ret vars
  | (key, json_number d) :: rest => read_vars rest (emplace vars key d)
  | (_, _) :: _ => Raise type_error
  end.

(** The loop over the Hamiltonian strings.  [in_forEachTermFn] acts on the
    state [St] of its owner; the state comes back however the loop ends. *)
Fixpoint for_each_hamStr {St : Type} (in_forEachTermFn : HamiltonianTerm -> St -> St)
    (vars : VarsMap) (hamStrArray : list json_value) (st : St) : St * result bool :=
  match hamStrArray with
  | [] => (st, Ret true)
  | json_string hamStr :: rest =>
      match HamiltonianParsingUtil_tryParse hamStr vars with
      | Raise e => (st, Raise e)
      | Ret None => (st, Ret false)
      | Ret (Some parseResult) =>
          for_each_hamStr in_forEachTermFn vars rest (in_forEachTermFn parseResult st)
      end
  | _ :: _ => (st, Raise type_error)
  end.

Definition HamiltonianParsingUtil_tryParse_json {St : Type} (j : json)
    (in_forEachTermFn : HamiltonianTerm -> St -> St) (st : St) : St * result bool :=
  match j with
  | json_not_object => (st, Ret false)
  | json_object hamStrArray varsArray =>
      match read_vars varsArray [] with
      | Raise e => (st, Raise e)
      | Ret vars => for_each_hamStr in_forEachTermFn vars hamStrArray st
      end
  end.

(** *** Notions the properties are stated with *)

(** The terms at the leaves of a term. *)
Fixpoint term_leaves (t : HamiltonianTerm) : list HamiltonianTerm :=
  match t with
  | HamiltonianSumTerm m_terms => flat_map term_leaves m_terms
  | _ => [t]
  end.

(** Every leaf of the term is time-dependent and bound to [channel]. *)
Definition bound_to_channel (channel : str) (t : HamiltonianTerm) : Prop :=
  Forall (fun leaf => exists k ops, leaf = HamiltonianTimeDependentTerm channel k ops)
    (term_leaves t).

End WithServices.

(** A string without white space. *)
Definition nospace (s : str) : Prop := Forall (fun c => isspace c = false) s.

(** The round brackets of a string match: none closes before it opens and
    none stays open; [depth] counts the brackets open so far. *)
Fixpoint balanced_from (depth : nat) (s : str) : bool :=
  match s with
  | [] => (depth =? 0)%nat
  | c :: t =>
      if Ascii.eqb c "(" then balanced_from (S depth) t
      else if Ascii.eqb c ")" then
        match depth with
        | O => false
        | S depth => balanced_from depth t
        end
      else balanced_from depth t
  end.

Definition balanced (s : str) : bool := balanced_from 0 s.

(** The text is the macro form [_SUM[...]]. *)
Definition sum_form (s : str) : bool :=
  str_eqb (take 5 s) (lit "_SUM[") && bool_decide (last s = Some "]"%char).

(** The text the operators are read from: what stands before the channel
    separator, or all of it. *)
Definition operator_expression (s : str) : str :=
  match find (lit "||") s with
  | Some separatorPos => take separatorPos s
  | None => s
  end.

(** A channel name: [D] or [U], then digits. *)
Definition channel_name (s : str) : bool :=
  negb ((length s <? 2)%nat
        || (negb (bool_decide (head s = Some "D"%char))
            && negb (bool_decide (head s = Some "U"%char)))
        || negb (isNumberString (drop 1 s))).

(** The start of a sign factor [(+1.0)*] or [(-1.0)*], after its bracket. *)
Definition sign_tail (t : str) : bool :=
  is_prefix (lit "+1.0)*") t || is_prefix (lit "-1.0)*") t.

End Hamiltonian.

(** ** Services for the examples *)

Module ReferenceServices.
Import Hamiltonian.

(** Modelled from the spec: [Hamiltonian.hpp] is not among the sources.  The
    operator symbols of the parser's grammar (section 4.4), names in upper
    case; every other name is no operator. *)
Inductive operator_symbol := op_X | op_Y | op_Z | op_I | op_SP | op_SM | op_NA.

#[global] Instance operator_symbol_eq_dec : EqDecision operator_symbol.
Proof. solve_decision. Defined.

Definition operator_of_name (name : str) : operator_symbol :=
  if str_eqb name (lit "X") then op_X
  else if str_eqb name (lit "Y") then op_Y
  else if str_eqb name (lit "Z") then op_Z
  else if str_eqb name (lit "I") then op_I
  else if str_eqb name (lit "SP") then op_SP
  else if str_eqb name (lit "SM") then op_SM
  else op_NA.

(** A scalar expression engine, small enough to run here: sums of products
    of decimal numbers, variables and bracketed signed numbers. *)

(** The pieces of [s] between the occurrences of [sep] outside brackets. *)
Fixpoint split_outside (sep : ascii) (s : str) (depth : nat) (cur : str) : list str :=
  match s with
  | [] => [cur]
  | c :: t =>
      if Ascii.eqb c "(" then split_outside sep t (S depth) (cur ++ [c])
      else if Ascii.eqb c ")" then split_outside sep t (pred depth) (cur ++ [c])
      else if Ascii.eqb c sep && (depth =? 0)%nat
           then cur :: split_outside sep t depth []
           else split_outside sep t depth (cur ++ [c])
  end.

Definition unsigned_number (s : str) : option Q :=
  let whole := take (default (length s) (find_first_of "." s)) s in
  let fraction := drop (S (length whole)) s in
  if bool_decide (whole = []) || negb (forallb is_digit whole)
     || negb (forallb is_digit fraction)
     || (bool_decide (fraction = []) && negb (bool_decide (length whole = length s)))
  then None
  else Some (Qred (Qplus (inject_Z (decimal_value whole))
                          (Qmake (decimal_value fraction)
                                 (Pos.of_nat (10 ^ length fraction))))).

Definition variable_value (env : list (str * Q)) (s : str) : option Q :=
  snd <$> List.find (fun kv => str_eqb kv.1 s) env.

Definition factor_value (env : list (str * Q)) (s : str) : option Q :=
  match s with
  | [] => None
  | c :: t =>
      if Ascii.eqb c "(" then
        match t with
        | sign :: rest =>
            if bool_decide (last rest = Some ")"%char) then
              if Ascii.eqb sign "+" then unsigned_number (removelast rest)
              else if Ascii.eqb sign "-"
                   then Qopp <$> unsigned_number (removelast rest)
                   else unsigned_number (removelast t)
            else None
        | [] => None
        end
      else if is_digit c then unsigned_number s
      else variable_value env s
  end.

Definition product_value (env : list (str * Q)) (s : str) : option Q :=
  fold_left (fun acc f => a ← acc; b ← factor_value env f; Some (Qred (Qmult a b)))
    (split_outside "*" s 0 []) (Some 1%Q).

Definition expression_value (env : list (str * Q)) (s : str) : option Q :=
  if bool_decide (s = []) || negb (balanced s) then None
  else fold_left (fun acc p => a ← acc; b ← product_value env p; Some (Qred (Qplus a b)))
         (split_outside "+" s 0 []) (Some 0%Q).

#[global] Instance reference_services : Services :=
  {| Operator := operator_symbol;
     NA := op_NA;
     ConvertOperatorFromString := operator_of_name;
     validExpression := fun e names =>
       bool_decide (is_Some (expression_value (map (fun n => (n, 0%Q)) names) e));
     evaluate := fun e names values => expression_value (combine names values) e;
     unordered_map_order := fun keys => keys |}.

End ReferenceServices.

(** ** [xacc/Utils/Hamiltonian.cpp]: what the terms do once parsed *)

Module HamiltonianMethods.
Import Hamiltonian.

(** What [apply] and [collect] use and [Hamiltonian.cpp] does not define:
    the names of the operator tags ([OperatorToString] of
    [Hamiltonian.hpp]), the text [std::to_string] makes of a [double], and
    how [xacc::error] ends: it comes back to its caller ([None]) or leaves
    the call. *)
Class Host `{Services} := {
  OperatorToString : Operator -> str;
  double_to_string : double -> str;
  xacc_error : str -> option failure;
}.

(** The functor [AddHamiltonianTerm] as [apply] builds it: the coefficient
    (the real number the parser evaluated), the operators by name and
    qubit, and the channel id the time-dependent overload takes. *)
Record AddHamiltonianTerm := mkAddHamiltonianTerm {
  coefficient : double;
  opList : list (str * Z);
  channelId : option Z;
}.

(** The executor, as [apply] sees it: the functors posted with
    [PostFunctorAsync], in the order they were posted. *)
Abbreviation FunctorExecutorBase := (list AddHamiltonianTerm).

Definition PostFunctorAsync (in_executor : FunctorExecutorBase)
    (functor : AddHamiltonianTerm) : FunctorExecutorBase :=
  in_executor ++ [functor].

Section WithHost.
Context `{Host}.

(** [opList.emplace_back(OperatorToString(op.first), op.second)]. *)
Definition named (op : QubitOp) : str * Z := (OperatorToString op.1, op.2).

(** The check at the head of the time-independent methods. *)
Definition at_most_two_operators (m_operators : list QubitOp) : result unit :=
  if (2 <? length m_operators)%nat then
    match xacc_error
            (lit "We only support Hamiltonian terms which are products of maximum two operators.")
    with
    | Some e => Raise e
    | None => Ret tt
    end
  else Ret tt.

Definition HamiltonianTimeIndependentTerm_apply (m_coefficient : double)
    (m_operators : list QubitOp) (in_executor : FunctorExecutorBase)
    : result FunctorExecutorBase :=
  (* This constraint can be lifted if necessary, just add API's to the backend. *)
  _ ← at_most_two_operators m_operators;
  match m_operators with
  | [op] =>
      Ret (PostFunctorAsync in_executor
             (mkAddHamiltonianTerm m_coefficient [named op] None))
  | [op1; op2] =>
      Ret (PostFunctorAsync in_executor
             (mkAddHamiltonianTerm m_coefficient [named op1; named op2] None))
  | _ => Ret in_executor
  end.

Definition HamiltonianTimeDependentTerm_apply (m_channelName : str)
    (m_coefficient : double) (m_operators : list QubitOp)
    (GetChannelId : str -> Z) (in_executor : FunctorExecutorBase)
    : result FunctorExecutorBase :=
  (* We only support multiplication of up to two operators *)
  if negb ((length m_operators =? 1)%nat || (length m_operators =? 2)%nat)
  then Raise assertion_failed
  else
    match m_operators with
    | [op] =>
        Ret (PostFunctorAsync in_executor
               (mkAddHamiltonianTerm m_coefficient [named op]
                  (Some (GetChannelId m_channelName))))
    | [op1; op2] =>
        Ret (PostFunctorAsync in_executor
               (mkAddHamiltonianTerm m_coefficient [named op1; named op2]
                  (Some (GetChannelId m_channelName))))
    | _ => Ret in_executor
    end.

(** The virtual [apply]; the sum term calls it on its terms in order. *)
Fixpoint apply (t : HamiltonianTerm) (GetChannelId : str -> Z)
    (in_executor : FunctorExecutorBase) : result FunctorExecutorBase :=
  match t with
  | HamiltonianTimeIndependentTerm m_coefficient m_operators =>
      HamiltonianTimeIndependentTerm_apply m_coefficient m_operators in_executor
  | HamiltonianTimeDependentTerm m_channelName m_coefficient m_operators =>
      HamiltonianTimeDependentTerm_apply m_channelName m_coefficient m_operators
        GetChannelId in_executor
  | HamiltonianSumTerm m_terms =>
      (fix each (terms : list HamiltonianTerm) (in_executor : FunctorExecutorBase) :=
         match terms with
         | [] => Ret in_executor
         | term :: terms =>
             in_executor ← apply term GetChannelId in_executor;
             each terms in_executor
         end) m_terms in_executor
  end.

(** [OperatorToString(op.first) + std::to_string(op.second)]. *)
Definition operator_text (op : QubitOp) : str := OperatorToString op.1 ++ to_string op.2.

Definition HamiltonianTimeIndependentTerm_collect (m_coefficient : double)
    (m_operators : list QubitOp) (io_staticHstr : str) (io_ctrlHstr : list str)
    : result (str * list str) :=
  _ ← at_most_two_operators m_operators;
  match m_operators with
  | [op] =>
      let hStr := lit "+ " ++ double_to_string m_coefficient ++ lit "*" ++ operator_text op in
      Ret (io_staticHstr ++ hStr, io_ctrlHstr)
  | [op1; op2] =>
      let hStr := lit "+ " ++ double_to_string m_coefficient ++ lit "*" ++
                  operator_text op1 ++ operator_text op2 in
      Ret (io_staticHstr ++ hStr, io_ctrlHstr)
  | _ => Ret (io_staticHstr, io_ctrlHstr)
  end.

Definition HamiltonianTimeDependentTerm_collect (m_coefficient : double)
    (m_operators : list QubitOp) (io_staticHstr : str) (io_ctrlHstr : list str)
    : result (str * list str) :=
  (* We only support multiplication of up to two operators *)
  if negb ((length m_operators =? 1)%nat || (length m_operators =? 2)%nat)
  then Raise assertion_failed
  else
    match m_operators with
    | [op] =>
        let hStr := double_to_string m_coefficient ++ lit "*" ++ operator_text op in
        Ret (io_staticHstr, io_ctrlHstr ++ [hStr])
    | [op1; op2] =>
        let hStr := double_to_string m_coefficient ++ lit "*" ++
                    operator_text op1 ++ operator_text op2 in
        Ret (io_staticHstr, io_ctrlHstr ++ [hStr])
    | _ => Ret (io_staticHstr, io_ctrlHstr)
    end.

(** The virtual [collect]. *)
Fixpoint collect (t : HamiltonianTerm) (io_staticHstr : str) (io_ctrlHstr : list str)
    : result (str * list str) :=
  match t with
  | HamiltonianTimeIndependentTerm m_coefficient m_operators =>
      HamiltonianTimeIndependentTerm_collect m_coefficient m_operators
        io_staticHstr io_ctrlHstr
  | HamiltonianTimeDependentTerm _ m_coefficient m_operators =>
      HamiltonianTimeDependentTerm_collect m_coefficient m_operators
        io_staticHstr io_ctrlHstr
  | HamiltonianSumTerm m_terms =>
      (fix each (terms : list HamiltonianTerm) (io : str * list str) :=
         match terms with
         | [] => Ret io
         | term :: terms =>
             io ← collect term io.1 io.2;
             each terms io
         end) m_terms (io_staticHstr, io_ctrlHstr)
  end.

(** The virtual [clone]. *)
Fixpoint clone (t : HamiltonianTerm) : HamiltonianTerm :=
  match t with
  | HamiltonianTimeIndependentTerm m_coefficient m_operators =>
      HamiltonianTimeIndependentTerm m_coefficient m_operators
  | HamiltonianTimeDependentTerm m_channelName m_coefficient m_operators =>
      HamiltonianTimeDependentTerm m_channelName m_coefficient m_operators
  | HamiltonianSumTerm m_terms =>
      HamiltonianSumTerm
        ((fix each (terms : list HamiltonianTerm) : list HamiltonianTerm :=
            match terms with
            | [] => []
            | term :: terms => clone term :: each terms
            end) m_terms)
  end.

(** *** Notions the properties are stated with *)

(** A leaf [apply] and [collect] take: a product of one or two operators. *)
Definition one_or_two_operators (leaf : HamiltonianTerm) : Prop :=
  match leaf with
  | HamiltonianTimeIndependentTerm _ ops | HamiltonianTimeDependentTerm _ _ ops =>
      length ops = 1%nat \/ length ops = 2%nat
  | HamiltonianSumTerm _ => False
  end.

(** The functor of a leaf. *)
Definition functor_of (GetChannelId : str -> Z) (leaf : HamiltonianTerm)
    : list AddHamiltonianTerm :=
  match leaf with
  | HamiltonianTimeIndependentTerm k ops => [mkAddHamiltonianTerm k (map named ops) None]
  | HamiltonianTimeDependentTerm ch k ops =>
      [mkAddHamiltonianTerm k (map named ops) (Some (GetChannelId ch))]
  | HamiltonianSumTerm _ => []
  end.

(** The text a leaf adds to the static Hamiltonian string, and the entry
    it adds to the control strings. *)
Definition static_text (leaf : HamiltonianTerm) : str :=
  match leaf with
  | HamiltonianTimeIndependentTerm k ops =>
      lit "+ " ++ double_to_string k ++ lit "*" ++ concat (map operator_text ops)
  | _ => []
  end.

Definition control_text (leaf : HamiltonianTerm) : list str :=
  match leaf with
  | HamiltonianTimeDependentTerm _ k ops =>
      [double_to_string k ++ lit "*" ++ concat (map operator_text ops)]
  | _ => []
  end.

End WithHost.

End HamiltonianMethods.

(** ** A host for the examples *)

Module ReferenceHost.
Import Hamiltonian HamiltonianMethods ReferenceServices.

(** The names the parser's table reads, given back; [NA] has none. *)
Definition operator_name (o : operator_symbol) : str :=
  match o with
  | op_X => lit "X"
  | op_Y => lit "Y"
  | op_Z => lit "Z"
  | op_I => lit "I"
  | op_SP => lit "SP"
  | op_SM => lit "SM"
  | op_NA => []
  end.

(** [std::to_string(double)] is the format [%f]: six places after the
    point, the nearest value, a tie going to the even digit. *)
Definition fixed_six (d : double) : str :=
  let den := Zpos (Qden d) in
  let scaled := Z.abs (Qnum d) * 1000000 in
  let q := scaled / den in
  let r := scaled mod den in
  let q := if (den <? 2 * r) || ((2 * r =? den) && Z.odd q) then q + 1 else q in
  (if Qnum d <? 0 then lit "-" else []) ++
  to_string (q / 1000000) ++ lit "." ++ drop 1 (to_string (1000000 + q mod 1000000)).

(** [on_error] is how [xacc::error] ends. *)
Definition reference_host (on_error : option failure) : Host :=
  {| OperatorToString := operator_name;
     double_to_string := fixed_six;
     xacc_error := fun _ => on_error |}.

End ReferenceHost.

(** ** The rest of [solver.c], and notions the further properties are stated with *)

Module SolverNotions.
Import Petsc Solver.

Section WithKernel.
Context `{Kernel}.

(** [set_ts_monitor]: the function pointer given becomes [_ts_monitor];
    [monitor] tells whether it is not [NULL]. *)
Definition set_ts_monitor (g : globals) (monitor : bool) : globals :=
  mkGlobals (nid g) (total_levels g) (full_A g) (ham_A g) (ham_stiff_A g)
    (_lindblad_terms g) (_stiff_solver g) (_num_time_dep g) (_time_dep_list g)
    (_num_quantum_gates g) (_print_dense_ham g) monitor
    (stab_added g) (matrix_assembled g).

(** The three matrices, entry by entry. *)
Definition same_entries (g g' : globals) : Prop :=
  (forall r c, mat_get (full_A g') r c = mat_get (full_A g) r c) /\
  (forall r c, mat_get (ham_A g') r c = mat_get (ham_A g) r c) /\
  (forall r c, mat_get (ham_stiff_A g') r c = mat_get (ham_stiff_A g) r c).

End WithKernel.

End SolverNotions.

Module HamiltonianNotions.
Import Hamiltonian.

Section WithServices.
Context `{Services}.

(** Every leaf of the term is time-independent. *)
Definition time_independent (t : HamiltonianTerm) : Prop :=
  Forall (fun leaf => exists k ops, leaf = HamiltonianTimeIndependentTerm k ops)
    (term_leaves t).

(** One factor [*name idx] of a product, as text and as the operator it
    stands for. *)
Definition factor_text (f : str * str) : str := "*"%char :: f.1 ++ f.2.

Definition factor_op (f : str * str) : QubitOp :=
  (ConvertOperatorFromString (toUpperCase f.1), decimal_value f.2).

Definition valid_factor (f : str * str) : Prop :=
  f.1 <> [] /\ Forall (fun c => isalpha c = true) f.1 /\
  f.2 <> [] /\ isNumberString f.2 = true /\
  ConvertOperatorFromString (toUpperCase f.1) <> NA.

End WithServices.

(** The exceptions and undefined operations a term parser can end in. *)
Definition term_failure (e : failure) : Prop :=
  e = out_of_range \/ e = undefined_behaviour.

End HamiltonianNotions.

(** ** Properties of [src/solver.c] *)

Module SolverProofs.
Import Petsc Solver QubitKernel.

Lemma scalar_eq (a b : PetscScalar) : re a = re b -> im a = im b -> a = b.
Proof. destruct a, b; simpl; intros -> ->; reflexivity. Qed.

Lemma zero_scalar : Cadd (Creal 0) (Cmul (Creal 0) PETSC_i) = Czero.
Proof. apply scalar_eq; simpl; ring. Qed.

Lemma one_scalar : Cadd (Creal 1) (Cmul (Creal 0) PETSC_i) = Cone.
Proof. apply scalar_eq; simpl; ring. Qed.

Lemma minus_one_scalar : Cadd (Creal (-1)) (Cmul (Creal 0) PETSC_i) = Creal (-1).
Proof. apply scalar_eq; simpl; ring. Qed.

Lemma Cadd_zero_r a : Cadd a Czero = a.
Proof. apply scalar_eq; simpl; ring. Qed.


Lemma mat_get_add (m : Mat) (r c : Z) (v : PetscScalar) (r' c' : Z) :
  mat_get (MatSetValue_ADD m r c v) r' c' =
  if decide ((r, c) = (r', c')) then Cadd (mat_get m r c) v else mat_get m r' c'.
Proof.
  unfold MatSetValue_ADD, mat_get. rewrite lookup_insert.
  destruct (decide ((r, c) = (r', c'))) as [[= -> ->]|]; reflexivity.
Qed.

Section Proofs.
Context `{Kernel}.

Lemma fold_add_row0 (col : Z -> Z) (v : PetscScalar) (l : list Z) (m : Mat) (r c : Z) :
  NoDup (map col l) ->
  mat_get (fold_left (fun A i => MatSetValue_ADD A 0 (col i) v) l m) r c =
  if decide (r = 0 /\ c ∈ map col l) then Cadd (mat_get m r c) v else mat_get m r c.
Proof.
  revert m. induction l as [|i l IH]; intros m Hnd; simpl.
  - destruct (decide _) as [[_ Hin]|]; [inversion Hin | reflexivity].
  - inversion Hnd as [|? ? Hni Hnd']; subst.
    rewrite IH by assumption. rewrite !mat_get_add.
    destruct (decide (r = 0 /\ c ∈ map col l)) as [[-> Hin]|Hn].
    + destruct (decide ((0, col i) = (0, c))) as [[= <-]|]; [contradiction|].
      rewrite decide_True; [reflexivity|]. split; [reflexivity|]. by right.
    + destruct (decide ((0, col i) = (r, c))) as [[= <- <-]|Hne].
      * rewrite decide_True; [reflexivity|]. split; [reflexivity|]. by left.
      * rewrite decide_False; [reflexivity|].
        intros [-> Hin]. apply elem_of_cons in Hin as [->|Hin]; [by apply Hne|].
        apply Hn; by split.
Qed.

Lemma elem_of_loop_range first len k :
  k ∈ loop_range first len <-> first <= k < first + len.
Proof.
  unfold loop_range. rewrite list_elem_of_In, in_map_iff. split.
  - intros (n & <- & Hn%in_seq). lia.
  - intros Hk. exists (Z.to_nat (k - first)). split; [lia|]. apply in_seq. lia.
Qed.

Lemma NoDup_loop_range first len : NoDup (loop_range first len).
Proof.
  unfold loop_range. apply NoDup_fmap_2; [intros a b; lia|].
  apply NoDup_ListNoDup, seq_NoDup.
Qed.

Lemma stabilization_loop_hit (g : globals) (v : PetscScalar) (i : Z) :
  0 <= i < total_levels g ->
  mat_get (stabilization_loop g v) 0 (i * (total_levels g + 1)) =
  Cadd (mat_get (full_A g) 0 (i * (total_levels g + 1))) v.
Proof.
  intros Hi. unfold stabilization_loop.
  rewrite (fold_add_row0 (fun i => i * (total_levels g + 1))).
  2:{ apply NoDup_fmap_2; [intros a b; nia | apply NoDup_loop_range]. }
  rewrite decide_True; [reflexivity|]. split; [reflexivity|].
  apply list_elem_of_fmap. exists i. split; [reflexivity|].
  apply elem_of_loop_range. lia.
Qed.

Lemma stabilization_loop_miss (g : globals) (v : PetscScalar) (r c : Z) :
  0 <= total_levels g ->
  (r <> 0 \/ forall i, 0 <= i < total_levels g -> c <> i * (total_levels g + 1)) ->
  mat_get (stabilization_loop g v) r c = mat_get (full_A g) r c.
Proof.
  intros HD Hmiss. unfold stabilization_loop.
  rewrite (fold_add_row0 (fun i => i * (total_levels g + 1))).
  2:{ apply NoDup_fmap_2; [intros a b; nia | apply NoDup_loop_range]. }
  rewrite decide_False; [reflexivity|]. intros [-> Hin].
  apply list_elem_of_fmap in Hin as (i & -> & Hi%elem_of_loop_range).
  destruct Hmiss as [Hr|Hc]; [by apply Hr|]. apply (Hc i); [lia | reflexivity].
Qed.

Lemma fold_add_zero_get (f : Z -> Z * Z) (l : list Z) (m : Mat) (r c : Z) :
  mat_get (fold_left (fun A i => MatSetValue_ADD A (f i).1 (f i).2
                                    (Cadd (Creal 0) (Cmul (Creal 0) PETSC_i))) l m) r c
  = mat_get m r c.
Proof.
  revert m. induction l as [|i l IH]; intros m; simpl; [reflexivity|].
  rewrite IH, mat_get_add, zero_scalar, Cadd_zero_r.
  destruct (decide _) as [[= -> ->]|]; reflexivity.
Qed.

Lemma add_zero_diagonal_get (m : Mat) (r c : Z) :
  mat_get (add_zero_diagonal m) r c = mat_get m r c.
Proof.
  unfold add_zero_diagonal. destruct (MatGetOwnershipRange m) as [Istart Iend].
  apply (fold_add_zero_get (fun i => (i, i))).
Qed.


Lemma stabilization_cols_NoDup (D : Z) :
  NoDup (map (fun i => i * (D + 1)) (loop_range 0 D)).
Proof.
  destruct (decide (D <= 0)) as [Hle|Hgt].
  - unfold loop_range. replace (Z.to_nat D) with 0%nat by lia. constructor.
  - apply NoDup_fmap_2; [intros a b; nia | apply NoDup_loop_range].
Qed.

(** C6.  On the process that writes (rank 0), with Lindblad terms and the
    flag clear, [steady_state] returns with: every entry of row 0 of
    [full_A] at a column [i*(D+1)], [0 <= i < D], raised by 1.0; every other
    entry of [full_A] at its old value; the flag set; a right-hand side [b]
    of length [D*D] that is zero except [b[0] = 1]; and a linear solver
    context of type GMRES with restart 100, the additive Schwarz
    preconditioner and relative tolerance 1e-11 on [full_A].  The row is
    added once: a second call leaves every entry as it is. *)
Theorem steady_state_adds_stabilization (g : globals) (x : Vec) :
  nid g = 0 -> _lindblad_terms g <> 0 -> stab_added g = 0 ->
  exists g' ls,
    steady_state g x = Done g' ls /\
    (forall i, 0 <= i < total_levels g ->
       mat_get (full_A g') 0 (i * (total_levels g + 1)) =
       Cadd (mat_get (full_A g) 0 (i * (total_levels g + 1))) Cone) /\
    (forall r c,
       (r <> 0 \/ forall i, 0 <= i < total_levels g -> c <> i * (total_levels g + 1)) ->
       mat_get (full_A g') r c = mat_get (full_A g) r c) /\
    stab_added g' = 1 /\
    ls_b ls = <[0%nat := Cone]> (replicate (Z.to_nat (total_levels g * total_levels g)) Czero) /\
    ls_ksp ls = mkKSP (full_A g', full_A g') (Q2Qc (1 # 100000000000)) PCASM KSPGMRES 100 /\
    (forall x', exists g'' ls',
       steady_state g' x' = Done g'' ls' /\
       forall r c, mat_get (full_A g'') r c = mat_get (full_A g') r c).
Proof.
  intros Hnid Hlin Hstab.
  assert (Ht : truthy (_lindblad_terms g) = true).
  { unfold truthy. apply negb_true_iff, Z.eqb_neq, Hlin. }
  destruct g as [nid0 D fA hA hsA lt ss ntd tdl nqg pdh mon sa ma].
  simpl in *. subst nid0 sa.
  set (g0 := mkGlobals 0 D fA hA hsA lt ss ntd tdl nqg pdh mon 0 ma).
  assert (Hloop : forall pdh',
    stabilization_loop (mkGlobals 0 D fA hA hsA lt ss ntd tdl nqg pdh' mon 0 ma)
      (Cadd (Creal 1) (Cmul (Creal 0) PETSC_i)) = stabilization_loop g0 Cone).
  { intros. rewrite one_scalar. reflexivity. }
  exists (mkGlobals 0 D (add_zero_diagonal (stabilization_loop g0 Cone)) hA hsA lt ss ntd tdl
            nqg (if truthy pdh then 0 else pdh) mon 1 1).
  eexists. split.
  { unfold steady_state, print_dense_ham, g0.
    cbv beta iota zeta delta [set_full_A set_stab_added set_matrix_assembled
      set_print_dense_ham nid stab_added _lindblad_terms _print_dense_ham full_A
      total_levels ham_A ham_stiff_A _stiff_solver _num_time_dep _time_dep_list
      _num_quantum_gates _ts_monitor matrix_assembled].
    rewrite Ht. change (truthy 0) with false. cbv beta iota zeta delta [negb].
    change (0 =? 0) with true. cbv beta iota.
    destruct (truthy pdh); cbv beta iota zeta delta [set_full_A set_stab_added set_matrix_assembled
      set_print_dense_ham nid stab_added _lindblad_terms _print_dense_ham full_A
      total_levels ham_A ham_stiff_A _stiff_solver _num_time_dep _time_dep_list
      _num_quantum_gates _ts_monitor matrix_assembled];
      change (0 =? 0) with true; cbv beta iota; rewrite !Hloop; reflexivity. }
  cbn [full_A stab_added ls_b ls_ksp].
  split; [|split; [|split; [reflexivity|split; [|split; [reflexivity|]]]]].
  - intros i Hi. rewrite add_zero_diagonal_get. apply (stabilization_loop_hit g0 Cone i Hi).
  - intros r c Hmiss. rewrite add_zero_diagonal_get. unfold stabilization_loop.
    cbn [total_levels full_A g0].
    rewrite (fold_add_row0 (fun i => i * (D + 1))) by apply stabilization_cols_NoDup.
    rewrite decide_False; [reflexivity|]. intros [-> Hin].
    apply list_elem_of_fmap in Hin as (i & -> & Hi%elem_of_loop_range).
    destruct Hmiss as [Hr|Hc]; [by apply Hr|]. apply (Hc i); lia.
  - rewrite one_scalar. unfold VecCreate, VecSet, VecSetValue_INSERT.
    change (0 <? 0) with false. cbv iota. rewrite length_replicate. reflexivity.
  - intros x'. eexists _, _. split.
    + unfold steady_state.
      cbv beta iota zeta delta [set_full_A set_stab_added set_matrix_assembled
        set_print_dense_ham nid stab_added _lindblad_terms _print_dense_ham full_A
        total_levels ham_A ham_stiff_A _stiff_solver _num_time_dep _time_dep_list
        _num_quantum_gates _ts_monitor matrix_assembled].
      rewrite Ht. change (truthy 1) with true. cbv beta iota zeta delta [negb].
      change (0 =? 0) with true. cbv beta iota. reflexivity.
    + intros r c. cbn [full_A]. apply add_zero_diagonal_get.
Qed.


Lemma truthy_true (z : Z) : z <> 0 -> truthy z = true.
Proof. intros Hz. unfold truthy. apply negb_true_iff, Z.eqb_neq, Hz. Qed.

(** C9.  [time_step] ends in [exit(0)], before anything is set up or
    integrated, in every call with the stiff solver selected together with
    Lindblad terms, and in every call with the stiff solver selected
    together with time-dependent terms. *)
Theorem time_step_rejects_stiff_combinations (g : globals) (x : Vec)
    (time_max dt : PetscReal) (steps_max : Z) :
  _stiff_solver g <> 0 ->
  _lindblad_terms g <> 0 \/ _num_time_dep g <> 0 ->
  time_step g x time_max dt steps_max = Exit g.
Proof.
  intros Hstiff Hcomb. unfold time_step. rewrite (truthy_true _ Hstiff).
  destruct (truthy (_lindblad_terms g)) eqn:Hl; [reflexivity|].
  destruct Hcomb as [Hlin|Htd].
  - rewrite (truthy_true _ Hlin) in Hl. discriminate.
  - rewrite (truthy_true _ Htd). reflexivity.
Qed.

Lemma same_flags_refl (g : globals) : same_flags g g.
Proof. repeat split. Qed.

Lemma same_flags_trans (g1 g2 g3 : globals) :
  same_flags g1 g2 -> same_flags g2 g3 -> same_flags g1 g3.
Proof. unfold same_flags. intuition congruence. Qed.

Lemma same_flags_print_dense_ham (g : globals) : same_flags g (print_dense_ham g).
Proof. unfold print_dense_ham. destruct (truthy _); repeat split. Qed.

Lemma same_flags_remove_stabilization (g : globals) : same_flags g (remove_stabilization g).
Proof.
  unfold remove_stabilization. destruct (truthy _); [|repeat split].
  destruct (nid g =? 0); repeat split.
Qed.

Lemma same_flags_set_solve_A (h : solve_handle) (g : globals) (m : Mat) :
  same_flags g (set_solve_A h g m).
Proof. destruct h; repeat split. Qed.

Lemma same_flags_add_zero_diagonals (h : solve_handle) (g : globals) :
  same_flags g (add_zero_diagonals h g).
Proof.
  unfold add_zero_diagonals. cbv zeta. destruct (truthy _).
  - eapply same_flags_trans; [apply (same_flags_set_solve_A h)|]. repeat split.
  - apply same_flags_set_solve_A.
Qed.

Lemma same_flags_set_jacobians (h : solve_handle) (g : globals) :
  same_flags g (set_jacobians h g).1.1.
Proof.
  unfold set_jacobians. destruct (truthy (_num_time_dep g)); simpl.
  - apply same_flags_set_solve_A.
  - apply same_flags_refl.
Qed.

Lemma integrate_Done (h : solve_handle) (g : globals) (x : Vec) (time_max dt : PetscReal)
    (steps_max : Z) :
  exists g' r,
    integrate h g x time_max dt steps_max = Done g' r /\
    same_flags g g' /\
    ts_event_handlers (in_ts r) = set_event_handlers g.
Proof.
  unfold integrate. cbv zeta.
  set (g1 := if nid g =? 0 then print_dense_ham g else g).
  assert (H1 : same_flags g g1).
  { unfold g1. destruct (nid g =? 0); [apply same_flags_print_dense_ham | apply same_flags_refl]. }
  pose proof (same_flags_remove_stabilization g1) as H2.
  pose proof (same_flags_add_zero_diagonals h (remove_stabilization g1)) as H3.
  pose proof (same_flags_set_jacobians h (add_zero_diagonals h (remove_stabilization g1))) as H4.
  destruct (set_jacobians h (add_zero_diagonals h (remove_stabilization g1))) as [[g4 jac] ijac].
  simpl in H4.
  assert (Hf : same_flags g g4).
  { eapply same_flags_trans; [exact H1|]. eapply same_flags_trans; [exact H2|].
    eapply same_flags_trans; [exact H3 | exact H4]. }
  eexists _, _. split; [reflexivity|]. split; [exact Hf|].
  simpl. unfold set_event_handlers.
  destruct Hf as (_ & _ & -> & _ & _ & _ & -> & _). reflexivity.
Qed.

Lemma time_step_cases (g : globals) (x : Vec) (time_max dt : PetscReal) (steps_max : Z) :
  (time_step g x time_max dt steps_max = Exit g /\ _stiff_solver g <> 0 /\
   (_lindblad_terms g <> 0 \/ _num_time_dep g <> 0)) \/
  (exists g' r,
     time_step g x time_max dt steps_max = Done g' r /\
     same_flags g g' /\
     ts_event_handlers (in_ts r) = set_event_handlers g).
Proof.
  unfold time_step, truthy.
  destruct (Z.eqb_spec (_lindblad_terms g) 0) as [Hl|Hl];
    destruct (Z.eqb_spec (_stiff_solver g) 0) as [Hs|Hs];
    destruct (Z.eqb_spec (_num_time_dep g) 0) as [Hn|Hn]; cbn [negb andb];
    try (right; apply integrate_Done);
    left; (split; [reflexivity|]); split; auto.
Qed.

(** C2.  The trigger function of the normalization event writes
    [fvalue[0] = 0] and returns 0 for every time and every state vector; its
    post-event action hands the vector to the kernel's 2-norm normalisation
    and, when that succeeds, seats the normalised vector as the solution of
    the stepper; and in every call of [time_step] with Lindblad terms that
    reaches the integration (the others are the stiff-solver calls turned
    away at the head), the last event handler set is this pair, with one
    event, direction 0 and no termination. *)
Theorem normalization_event_always_fires :
  (forall (t : PetscReal) (U : Vec) (f0 : PetscScalar) (rest : list PetscScalar),
     _Normalize_EventFunction t U (f0 :: rest) = (0, Creal 0 :: rest)) /\
  (forall (ts : TS) (nevents : Z) (event_list : list Z) (t : PetscReal) (U : Vec),
     (_Normalize_PostEventFunction ts nevents event_list t U).2 = (VecNormalize U).2 /\
     ((VecNormalize U).1 = 0 ->
      (_Normalize_PostEventFunction ts nevents event_list t U).1.1 = 0 /\
      ts_solution (_Normalize_PostEventFunction ts nevents event_list t U).1.2
        = Some (VecNormalize U).2)) /\
  (forall (g : globals) (x : Vec) (time_max dt : PetscReal) (steps_max : Z),
     _lindblad_terms g <> 0 ->
     match time_step g x time_max dt steps_max with
     | Exit _ => _stiff_solver g <> 0
     | Done _ r =>
         last (ts_event_handlers (in_ts r)) =
         Some (mkEventHandler 1 0 false Normalize_EventFunction Normalize_PostEventFunction)
     end).
Proof.
  split; [|split].
  - intros. reflexivity.
  - intros ts nevents event_list t U. unfold _Normalize_PostEventFunction.
    destruct (VecNormalize U) as [ierr U']. simpl. split.
    + destruct (truthy ierr); reflexivity.
    + intros ->. simpl. split; reflexivity.
  - intros g x time_max dt steps_max Hlin.
    destruct (time_step_cases g x time_max dt steps_max)
      as [(-> & Hs & _)|(g' & r & -> & _ & ->)]; [exact Hs|].
    unfold set_event_handlers. rewrite (truthy_true _ Hlin). apply last_snoc.
Qed.

(** What [time_step] never does: clear the flag. *)
Lemma time_step_keeps_stab_added (g : globals) (x : Vec) (time_max dt : PetscReal)
    (steps_max : Z) :
  stab_added (globals_after (time_step g x time_max dt steps_max)) = stab_added g.
Proof.
  destruct (time_step_cases g x time_max dt steps_max)
    as [(-> & _)|(g' & r & -> & Hf & _)]; [reflexivity|].
  simpl. apply Hf.
Qed.


(** With Lindblad terms the callback is the rebuild of the specification. *)
Lemma RHS_time_dep_ham_liouville (g : globals) (t : PetscReal) (X : Vec) (BB : Mat) :
  _lindblad_terms g <> 0 -> _RHS_time_dep_ham g t X BB = RHS_rebuild_spec g t BB.
Proof.
  intros Hlin. unfold _RHS_time_dep_ham, RHS_rebuild_spec.
  rewrite (truthy_true _ Hlin). reflexivity.
Qed.

(** The callback reads neither the mode nor [ham_A]. *)
Lemma RHS_time_dep_ham_ignores_mode (g : globals) (t : PetscReal) (X : Vec) (BB : Mat)
    (lindblad_terms : Z) (hamiltonian : Mat) :
  _RHS_time_dep_ham
    (mkGlobals (nid g) (total_levels g) (full_A g) hamiltonian (ham_stiff_A g)
       lindblad_terms (_stiff_solver g) (_num_time_dep g) (_time_dep_list g)
       (_num_quantum_gates g) (_print_dense_ham g) (_ts_monitor g)
       (stab_added g) (matrix_assembled g)) t X BB
  = _RHS_time_dep_ham g t X BB.
Proof. reflexivity. Qed.

End Proofs.

(** The examples *)

Ltac scalar_compute :=
  apply scalar_eq; apply Qc_is_canon; vm_compute; reflexivity.

(** C5, at the failing input.  One qubit with decay: after [steady_state]
    the flag is set and row 0 holds 1.0 at columns 0 and 3; the first
    [time_step] brings both entries back but leaves the flag set; the second
    [time_step] subtracts again, and row 0 holds -1.0 where the matrix
    before stabilization held 0. *)
Theorem stabilization_is_removed_again :
  stab_added after_steady_state = 1 /\
  mat_get (full_A after_steady_state) 0 0 = Cone /\
  mat_get (full_A after_steady_state) 0 3 = Cone /\
  stab_added after_first_time_step = 1 /\
  mat_get (full_A after_first_time_step) 0 0 = mat_get (full_A lindblad_qubit) 0 0 /\
  mat_get (full_A after_first_time_step) 0 3 = mat_get (full_A lindblad_qubit) 0 3 /\
  mat_get (full_A after_second_time_step) 0 0 = Creal (-1) /\
  mat_get (full_A after_second_time_step) 0 3 = Creal (-1) /\
  mat_get (full_A after_second_time_step) 0 0 <> mat_get (full_A lindblad_qubit) 0 0.
Proof.
  repeat split; try (vm_compute; reflexivity); try scalar_compute.
  intros Heq. apply (f_equal re) in Heq. apply (f_equal this) in Heq.
  vm_compute in Heq. discriminate.
Qed.


(** C1, at the failing input.  One driven qubit without Lindblad terms
    ([ham_A] holds [-i Z], the drive is [f(t) X] with [f(1) = 1]): the
    rebuild of the specification keeps [-i] at (0,0) from [ham_A] and adds
    [-i f X] only; the callback copies the empty [full_A], so (0,0) is 0,
    and adds the Liouville pair, so that (0,2), a column the 2x2 matrix does
    not have, holds [+i]. *)
Theorem rebuild_without_lindblad_terms :
  _lindblad_terms driven_qubit = 0 /\
  mat_get (ham_A driven_qubit) 0 0 = Csub Czero PETSC_i /\
  mat_get (specified_at driven_qubit_run 1%Qc) 0 0 = Csub Czero PETSC_i /\
  mat_get (rebuilt_at driven_qubit_run 1%Qc) 0 0 = Czero /\
  mat_get (specified_at driven_qubit_run 1%Qc) 0 1 = Csub Czero PETSC_i /\
  mat_get (rebuilt_at driven_qubit_run 1%Qc) 0 1 = Csub Czero PETSC_i /\
  mat_get (specified_at driven_qubit_run 1%Qc) 0 2 = Czero /\
  mat_get (rebuilt_at driven_qubit_run 1%Qc) 0 2 = PETSC_i /\
  mat_get (rebuilt_at driven_qubit_run 1%Qc) 0 0
    <> mat_get (specified_at driven_qubit_run 1%Qc) 0 0.
Proof.
  repeat split; try (vm_compute; reflexivity); try scalar_compute.
  intros Heq. apply (f_equal im) in Heq. apply (f_equal this) in Heq.
  vm_compute in Heq. discriminate.
Qed.

(** With a decay term the two agree on the example. *)
Example rebuild_with_lindblad_terms :
  rebuilt_at driven_decaying_qubit_run 1%Qc = specified_at driven_decaying_qubit_run 1%Qc.
Proof.
  unfold rebuilt_at, specified_at, driven_decaying_qubit_run, TSComputeRHSJacobian.
  destruct (time_step_cases driven_decaying_qubit (VecCreate 4) 1%Qc 1%Qc 10)
    as [(_ & Hs & _)|(g' & r & Heq & Hf & _)]; [exfalso; apply Hs; reflexivity|].
  rewrite Heq. destruct (ts_rhs_jacobian (in_ts r)); [reflexivity|].
  apply RHS_time_dep_ham_liouville. destruct Hf as (_ & _ & -> & _). discriminate.
Qed.

Lemma steady_state_adds_stabilization_witness :
  nid lindblad_qubit = 0 /\ _lindblad_terms lindblad_qubit <> 0 /\
  stab_added lindblad_qubit = 0 /\
  exists g' ls,
    steady_state lindblad_qubit (VecCreate 4) = Done g' ls /\
    mat_get (full_A g') 0 3 = Cadd (mat_get (full_A lindblad_qubit) 0 3) Cone /\
    stab_added g' = 1.
Proof.
  split; [reflexivity|]. split; [discriminate|]. split; [reflexivity|].
  destruct (steady_state_adds_stabilization lindblad_qubit (VecCreate 4) eq_refl
              (fun e : _lindblad_terms lindblad_qubit = 0 => Z.neq_sym _ _ (Z.lt_neq 0 1 Z.lt_0_1) e) eq_refl)
    as (g' & ls & Heq & Hhit & _ & Hflag & _).
  exists g', ls. split; [exact Heq|]. split; [|exact Hflag].
  apply (Hhit 1). split; [discriminate | reflexivity].
Defined.

Lemma time_step_rejects_stiff_combinations_witness :
  time_step stiff_decaying_qubit (VecCreate 4) 1%Qc 1%Qc 10 = Exit stiff_decaying_qubit.
Proof.
  apply (time_step_rejects_stiff_combinations stiff_decaying_qubit).
  - discriminate.
  - left. discriminate.
Defined.

Lemma normalization_event_always_fires_witness :
  match time_step driven_decaying_qubit (VecCreate 4) 1%Qc 1%Qc 10 with
  | Exit _ => _stiff_solver driven_decaying_qubit <> 0
  | Done _ r =>
      last (ts_event_handlers (in_ts r)) =
      Some (mkEventHandler 1 0 false Normalize_EventFunction Normalize_PostEventFunction)
  end.
Proof.
  destruct (@normalization_event_always_fires (qubit_kernel 4)) as (_ & _ & Hreg).
  apply (Hreg driven_decaying_qubit). discriminate.
Defined.

End SolverProofs.

(** ** Properties of [xacc/Utils/Hamiltonian.cpp] *)

Module HamiltonianProofs.
Import Hamiltonian.

(** Strings *)

Lemma ascii_eqb_refl c : Ascii.eqb c c = true.
Proof. apply Ascii.eqb_eq. reflexivity. Qed.

Lemma ascii_eqb_false (a b : ascii) : a <> b -> Ascii.eqb a b = false.
Proof. intros Hne. apply Ascii.eqb_neq. exact Hne. Qed.

Lemma removeWhiteSpaces_app (a b : str) :
  removeWhiteSpaces (a ++ b) = removeWhiteSpaces a ++ removeWhiteSpaces b.
Proof. unfold removeWhiteSpaces. apply List.filter_app. Qed.

Lemma nospace_removeWhiteSpaces (s : str) : nospace (removeWhiteSpaces s).
Proof.
  unfold nospace, removeWhiteSpaces. apply List.Forall_forall. intros c Hc.
  apply List.filter_In in Hc as [_ Hc]. apply negb_true_iff in Hc. exact Hc.
Qed.

Lemma removeWhiteSpaces_nospace (s : str) : nospace s -> removeWhiteSpaces s = s.
Proof.
  unfold nospace, removeWhiteSpaces. induction 1 as [|c s Hc _ IH]; simpl; [reflexivity|].
  rewrite Hc. simpl. f_equal. exact IH.
Qed.

Lemma removeWhiteSpaces_idem (s : str) :
  removeWhiteSpaces (removeWhiteSpaces s) = removeWhiteSpaces s.
Proof. apply removeWhiteSpaces_nospace, nospace_removeWhiteSpaces. Qed.

Lemma find_first_of_None (c : ascii) (s : str) :
  find_first_of c s = None <-> c ∉ s.
Proof.
  induction s as [|x s IH]; simpl.
  - split; [intros _; apply not_elem_of_nil | reflexivity].
  - destruct (Ascii.eqb_spec x c) as [->|Hne].
    + split; [discriminate | intros Hn; exfalso; apply Hn; left].
    + rewrite not_elem_of_cons. destruct (find_first_of c s); simpl.
      * split; [discriminate | intros [_ Hn]; exfalso; apply IH in Hn; discriminate].
      * split; [intros _; split; [congruence | apply IH; reflexivity] | reflexivity].
Qed.

Lemma find_first_of_app (c : ascii) (a b : str) :
  c ∉ a -> find_first_of c (a ++ c :: b) = Some (length a).
Proof.
  induction a as [|x a IH]; simpl; intros Hn.
  - rewrite ascii_eqb_refl. reflexivity.
  - apply not_elem_of_cons in Hn as [Hne Hn].
    rewrite ascii_eqb_false by congruence. rewrite IH by assumption. reflexivity.
Qed.

Lemma find_first_of_Some (c : ascii) (s : str) (p : nat) :
  find_first_of c s = Some p ->
  s = take p s ++ c :: drop (S p) s /\ c ∉ take p s.
Proof.
  revert p. induction s as [|x s IH]; simpl; intros p Hf; [discriminate|].
  destruct (Ascii.eqb_spec x c) as [->|Hne].
  - inversion Hf; subst. simpl. rewrite drop_0. split; [reflexivity | apply not_elem_of_nil].
  - destruct (find_first_of c s) as [q|] eqn:Hq; simpl in Hf; [|discriminate].
    inversion Hf; subst. destruct (IH q eq_refl) as [He Hn]. simpl. split.
    + f_equal. exact He.
    + apply not_elem_of_cons. split; [congruence | exact Hn].
Qed.

Lemma find_last_of_None (c : ascii) (s : str) :
  find_last_of c s = None <-> c ∉ s.
Proof.
  induction s as [|x s IH]; simpl.
  - split; [intros _; apply not_elem_of_nil | reflexivity].
  - rewrite not_elem_of_cons. destruct (find_last_of c s).
    + split; [discriminate | intros [_ Hn]; apply IH in Hn; discriminate].
    + destruct (Ascii.eqb_spec x c) as [->|Hne].
      * split; [discriminate | intros [Hn _]; congruence].
      * split; [intros _; split; [congruence | apply IH; reflexivity] | reflexivity].
Qed.

Lemma find_last_of_app (c : ascii) (a b : str) :
  c ∉ b -> find_last_of c (a ++ c :: b) = Some (length a).
Proof.
  intros Hn. induction a as [|x a IH]; simpl.
  - apply find_last_of_None in Hn. rewrite Hn, ascii_eqb_refl. reflexivity.
  - rewrite IH. reflexivity.
Qed.

Lemma find_last_of_Some (c : ascii) (s : str) (p : nat) :
  find_last_of c s = Some p ->
  s = take p s ++ c :: drop (S p) s /\ c ∉ drop (S p) s.
Proof.
  revert p. induction s as [|x s IH]; simpl; intros p Hf; [discriminate|].
  destruct (find_last_of c s) as [q|] eqn:Hq.
  - inversion Hf; subst. destruct (IH q eq_refl) as [He Hn]. simpl. split.
    + f_equal. exact He.
    + exact Hn.
  - destruct (Ascii.eqb_spec x c) as [->|Hne]; [|discriminate].
    inversion Hf; subst. simpl. rewrite drop_0. split; [reflexivity|].
    apply find_last_of_None. exact Hq.
Qed.

Lemma is_prefix_app (p s : str) : is_prefix p (p ++ s) = true.
Proof. induction p as [|a p IH]; simpl; [reflexivity|]. rewrite ascii_eqb_refl. exact IH. Qed.

Lemma is_prefix_spec (p s : str) : is_prefix p s = true -> s = p ++ drop (length p) s.
Proof.
  revert s. induction p as [|a p IH]; intros s Hp; simpl in *.
  - rewrite drop_0. reflexivity.
  - destruct s as [|b s]; [discriminate|].
    apply andb_true_iff in Hp as [Hab Hp]. apply Ascii.eqb_eq in Hab as ->.
    simpl. f_equal. apply IH. exact Hp.
Qed.

Lemma find_Some (pat s : str) (p : nat) :
  find pat s = Some p -> s = take p s ++ pat ++ drop (p + length pat) s.
Proof.
  revert p. induction s as [|x s IH]; intros p Hf.
  - simpl in Hf. destruct (is_prefix pat []) eqn:Hp; [|discriminate].
    inversion Hf; subst. destruct pat; [reflexivity | discriminate].
  - simpl in Hf. destruct (is_prefix pat (x :: s)) eqn:Hp.
    + inversion Hf; subst. simpl take. simpl app at 1. apply is_prefix_spec in Hp. exact Hp.
    + destruct (find pat s) as [q|] eqn:Hq; simpl in Hf; [|discriminate].
      inversion Hf; subst. simpl. f_equal. apply IH. reflexivity.
Qed.

Lemma find_app_absent (c : ascii) (pat a b : str) :
  c ∉ a -> find (c :: pat) (a ++ c :: pat ++ b) = Some (length a).
Proof.
  induction a as [|x a IH]; intros Hn.
  - simpl app. change (c :: pat ++ b) with ((c :: pat) ++ b).
    destruct ((c :: pat) ++ b) eqn:E; [discriminate|]. rewrite <- E.
    unfold find. rewrite E. fold find. rewrite <- E, is_prefix_app. reflexivity.
  - apply not_elem_of_cons in Hn as [Hne Hn]. simpl.
    rewrite ascii_eqb_false by congruence. simpl. rewrite IH by assumption. reflexivity.
Qed.

Lemma last_snoc_inv (s : str) (c : ascii) : last s = Some c -> s = removelast s ++ [c].
Proof.
  intros Hl. destruct (exists_last (l := s)) as (s' & c' & ->).
  { intros ->. discriminate. }
  rewrite last_snoc in Hl. inversion Hl; subst.
  rewrite removelast_last. reflexivity.
Qed.

Lemma back_Ret (s : str) (c : ascii) : back s = Ret c <-> last s = Some c.
Proof.
  unfold back. destruct (last s); split; intros Heq; inversion Heq; reflexivity.
Qed.

Lemma split_at (s a b : str) (c : ascii) (p : nat) :
  s = a ++ c :: b -> p = length a ->
  take p s = a /\ drop (S p) s = b /\ take 1 (drop p s) = [c].
Proof.
  intros -> ->. split; [|split].
  - rewrite take_app_length. reflexivity.
  - change (a ++ c :: b) with (a ++ [c] ++ b). rewrite app_assoc.
    replace (S (length a)) with (length (a ++ [c])) by (rewrite length_app; simpl; lia).
    rewrite drop_app_length. reflexivity.
  - rewrite drop_app_length. reflexivity.
Qed.

Lemma find_first_of_split (c : ascii) (s : str) (p : nat) :
  find_first_of c s = Some p ->
  exists a b, s = a ++ c :: b /\ (c ∉ a) /\ p = length a.
Proof.
  revert p. induction s as [|x s IH]; simpl; intros p Hf; [discriminate|].
  destruct (Ascii.eqb_spec x c) as [->|Hne].
  - inversion Hf; subst. exists [], s. split; [reflexivity|]. split; [apply not_elem_of_nil | reflexivity].
  - destruct (find_first_of c s) as [q|] eqn:Hq; simpl in Hf; [|discriminate].
    inversion Hf; subst. destruct (IH q eq_refl) as (a & b & -> & Hn & ->).
    exists (x :: a), b. split; [reflexivity|]. split; [|reflexivity].
    apply not_elem_of_cons. split; [congruence | exact Hn].
Qed.

Lemma find_last_of_split (c : ascii) (s : str) (p : nat) :
  find_last_of c s = Some p ->
  exists a b, s = a ++ c :: b /\ (c ∉ b) /\ p = length a.
Proof.
  revert p. induction s as [|x s IH]; simpl; intros p Hf; [discriminate|].
  destruct (find_last_of c s) as [q|] eqn:Hq.
  - inversion Hf; subst. destruct (IH q eq_refl) as (a & b & -> & Hn & ->).
    exists (x :: a), b. split; [reflexivity|]. split; [exact Hn | reflexivity].
  - destruct (Ascii.eqb_spec x c) as [->|Hne]; [|discriminate].
    inversion Hf; subst. exists [], s. split; [reflexivity|]. split; [|reflexivity].
    apply find_last_of_None. exact Hq.
Qed.

Lemma find_split (pat s : str) (p : nat) :
  find pat s = Some p -> exists a b, s = a ++ pat ++ b /\ p = length a.
Proof.
  revert p. induction s as [|x s IH]; intros p Hf.
  - simpl in Hf. destruct (is_prefix pat []) eqn:Hp; [|discriminate].
    inversion Hf; subst. destruct pat; [|discriminate]. exists [], []. split; reflexivity.
  - simpl in Hf. destruct (is_prefix pat (x :: s)) eqn:Hp.
    + inversion Hf; subst. apply is_prefix_spec in Hp.
      exists [], (drop (length pat) (x :: s)). split; [exact Hp | reflexivity].
    + destruct (find pat s) as [q|] eqn:Hq; simpl in Hf; [|discriminate].
      inversion Hf; subst. destruct (IH q eq_refl) as (a & b & -> & ->).
      exists (x :: a), b. split; reflexivity.
Qed.

Lemma not_None_false {A} (o : option A) : bool_decide (o <> None) = false -> o = None.
Proof. intros Hb. apply bool_decide_eq_false in Hb. destruct o; [exfalso; apply Hb; discriminate | reflexivity]. Qed.

Lemma nospace_app (a b : str) : nospace (a ++ b) <-> nospace a /\ nospace b.
Proof. apply Forall_app. Qed.

Lemma nospace_cons (c : ascii) (a : str) : nospace (c :: a) <-> isspace c = false /\ nospace a.
Proof.
  unfold nospace. split.
  - intros Hf. inversion Hf; subst. split; assumption.
  - intros [Hc Ha]. constructor; assumption.
Qed.

Ltac absent :=
  unfold lit; simpl;
  repeat match goal with
  | |- _ ∉ _ ++ _ => apply not_elem_of_app; split
  | |- _ ∉ _ :: _ => apply not_elem_of_cons; split
  | |- _ ∉ [] => apply not_elem_of_nil
  | |- _ <> _ => first [discriminate | assumption | congruence]
  | |- _ => assumption
  end.

Ltac spaceless :=
  unfold lit; simpl;
  repeat match goal with
  | |- nospace (_ ++ _) => apply nospace_app; split
  | |- nospace (_ :: _) => apply nospace_cons; split
  | |- nospace [] => constructor
  | |- isspace _ = false => first [reflexivity | assumption]
  | |- _ => assumption
  end.

Lemma toupper_cases (c : ascii) :
  toupper c = c \/ isalpha (toupper c) = true.
Proof.
  destruct c as [[|] [|] [|] [|] [|] [|] [|] [|]]; vm_compute; auto.
Qed.

Lemma isalpha_toupper (c : ascii) : isalpha (toupper c) = isalpha c.
Proof.
  destruct c as [[|] [|] [|] [|] [|] [|] [|] [|]]; vm_compute; reflexivity.
Qed.

Lemma is_digit_toupper (c : ascii) : is_digit c = true -> toupper c = c /\ isalpha c = false.
Proof.
  destruct c as [[|] [|] [|] [|] [|] [|] [|] [|]]; vm_compute; intros Hd;
    try discriminate; split; reflexivity.
Qed.

Lemma alnum_not_bracket (c : ascii) :
  isalpha c = true \/ is_digit c = true ->
  c <> "("%char /\ c <> ")"%char /\ c <> "|"%char.
Proof.
  intros [Hc|Hc]; repeat split; intros ->; vm_compute in Hc; discriminate.
Qed.

Lemma list_find_first {A : Type} (P : A -> Prop) `{forall x, Decision (P x)}
    (a b : list A) (x : A) :
  Forall (fun y => ~ P y) a -> P x -> list_find P (a ++ x :: b) = Some (length a, x).
Proof.
  intros Ha Hx. induction Ha as [|y a Hy _ IH]; simpl.
  - rewrite decide_True by exact Hx. reflexivity.
  - rewrite decide_False by exact Hy. rewrite IH. reflexivity.
Qed.

Section Proofs.
Context `{Services}.

Lemma UnwrapOpExpresion_inv (s x y : str) :
  UnwrapOpExpresion s = Ret [x; y] ->
  exists coeff e1 pm e2,
    s = coeff ++ "("%char :: e1 ++ pm :: e2 ++ [")"%char] /\
    ("("%char ∉ e1) /\ (")"%char ∉ e1) /\ ("("%char ∉ e2) /\ (")"%char ∉ e2) /\
    (pm = "+"%char \/ pm = "-"%char) /\
    ("+"%char ∉ e1) /\ (pm = "-"%char -> ("+"%char ∉ e2) /\ ("-"%char ∉ e1)) /\
    x = coeff ++ e1 /\
    y = "("%char :: pm :: lit "1.0)*" ++ coeff ++ e2.
Proof.
  unfold UnwrapOpExpresion. destruct (back s) as [b|] eqn:Hb; simpl; [|discriminate].
  apply back_Ret in Hb.
  destruct (Ascii.eqb_spec b ")") as [->|]; simpl; [|discriminate].
  destruct (find_last_of "(" s) as [pos|] eqn:Hpos; [|discriminate].
  apply find_last_of_split in Hpos as (coeff & tl & Hs & Hno & Hp).
  replace (pos + 1)%nat with (S pos) by lia.
  destruct (split_at s coeff tl "(" pos Hs Hp) as (-> & -> & _).
  assert (Htl : last tl = Some ")"%char).
  { rewrite Hs in Hb. rewrite last_app, last_cons in Hb.
    destruct (last tl) as [c|]; [exact Hb | discriminate]. }
  apply last_snoc_inv in Htl. unfold pop_back.
  set (w := removelast tl) in *.
  destruct (bool_decide (find_first_of "(" w <> None)) eqn:Hc1; simpl; [discriminate|].
  destruct (bool_decide (find_first_of ")" w <> None)) eqn:Hc2; simpl; [discriminate|].
  apply not_None_false, find_first_of_None in Hc1, Hc2.
  intros Hret.
  assert (Hpm : exists e1 pm e2, w = e1 ++ pm :: e2 /\
                 (pm = "+"%char \/ pm = "-"%char) /\ ("+"%char ∉ e1) /\
                 (pm = "-"%char -> ("+"%char ∉ e2) /\ ("-"%char ∉ e1)) /\
                 x = coeff ++ e1 /\
                 y = "("%char :: pm :: lit "1.0)*" ++ coeff ++ e2).
  { destruct (bool_decide (find_first_of "+" w = None)) eqn:Hplus.
    - apply bool_decide_eq_true in Hplus.
      destruct (find_first_of "-" w) as [p|] eqn:Hminus; [|discriminate].
      apply find_first_of_split in Hminus as (e1 & e2 & Hw & Hnm & Hpl).
      apply find_first_of_None in Hplus.
      destruct (split_at w e1 e2 "-" p Hw Hpl) as (Ht & Hd & Hd1).
      replace (p + 1)%nat with (S p) in Hret by lia.
      rewrite Ht, Hd, Hd1 in Hret. inversion Hret; subst x y.
      exists e1, "-"%char, e2. split; [exact Hw|]. split; [right; reflexivity|].
      rewrite Hw in Hplus. rewrite not_elem_of_app, not_elem_of_cons in Hplus.
      destruct Hplus as (Hp1 & _ & Hp2).
      split; [exact Hp1|]. split; [intros _; split; assumption|]. split; reflexivity.
    - destruct (find_first_of "+" w) as [p|] eqn:Hp'; [|apply bool_decide_eq_false in Hplus; congruence].
      apply find_first_of_split in Hp' as (e1 & e2 & Hw & Hnp & Hpl).
      destruct (split_at w e1 e2 "+" p Hw Hpl) as (Ht & Hd & Hd1).
      replace (p + 1)%nat with (S p) in Hret by lia.
      rewrite Ht, Hd, Hd1 in Hret. inversion Hret; subst x y.
      exists e1, "+"%char, e2. split; [exact Hw|]. split; [left; reflexivity|].
      split; [exact Hnp|]. split; [intros; discriminate|]. split; reflexivity. }
  destruct Hpm as (e1 & pm & e2 & Hw & Hpmv & Hplus1 & Hminus & -> & ->).
  exists coeff, e1, pm, e2.
  rewrite Hw in Hc1, Hc2. rewrite not_elem_of_app, not_elem_of_cons in Hc1, Hc2.
  destruct Hc1 as (? & _ & ?), Hc2 as (? & _ & ?).
  repeat split; auto.
  - rewrite Hs. f_equal. f_equal. rewrite Htl, Hw. rewrite <- app_assoc. reflexivity.
  - apply Hminus; assumption.
  - apply Hminus; assumption.
Qed.


Lemma UnwrapOpExpresion_shape (coeff e1 e2 : str) (pm : ascii) :
  ("("%char ∉ e1) -> (")"%char ∉ e1) -> ("("%char ∉ e2) -> (")"%char ∉ e2) ->
  ("+"%char ∉ e1) ->
  (pm = "+"%char \/ (pm = "-"%char /\ ("+"%char ∉ e2) /\ ("-"%char ∉ e1))) ->
  UnwrapOpExpresion (coeff ++ "("%char :: e1 ++ pm :: e2 ++ [")"%char]) =
  Ret [coeff ++ e1; "("%char :: pm :: lit "1.0)*" ++ coeff ++ e2].
Proof.
  intros Ho1 Hc1 Ho2 Hc2 Hp1 Hpm.
  assert (Hpmo : pm <> "("%char /\ pm <> ")"%char).
  { destruct Hpm as [->|[-> _]]; split; discriminate. }
  unfold UnwrapOpExpresion.
  set (s := coeff ++ "("%char :: e1 ++ pm :: e2 ++ [")"%char]).
  assert (Hback : back s = Ret ")"%char).
  { apply back_Ret. unfold s.
    change ("("%char :: e1 ++ pm :: e2 ++ [")"%char]) with (("("%char :: e1) ++ (pm :: e2) ++ [")"%char]).
    rewrite !app_assoc. apply last_snoc. }
  rewrite Hback. simpl. 
  assert (Hlast : find_last_of "(" s = Some (length coeff)).
  { unfold s. apply find_last_of_app.
    rewrite not_elem_of_app, not_elem_of_cons, not_elem_of_app, not_elem_of_cons.
    split; [exact Ho1|]. split; [apply not_eq_sym, Hpmo|]. split; [exact Ho2|].
    split; [discriminate | apply not_elem_of_nil]. }
  rewrite Hlast.
  destruct (split_at s coeff (e1 ++ pm :: e2 ++ [")"%char]) "(" (length coeff) eq_refl eq_refl)
    as (-> & Hd & _).
  replace (length coeff + 1)%nat with (S (length coeff)) by lia. rewrite Hd.
  unfold pop_back.
  replace (removelast (e1 ++ pm :: e2 ++ [")"%char])) with (e1 ++ pm :: e2).
  2:{ change (e1 ++ pm :: e2 ++ [")"%char]) with (e1 ++ (pm :: e2) ++ [")"%char]).
      rewrite app_assoc, removelast_last. reflexivity. }
  assert (Hn1 : find_first_of "(" (e1 ++ pm :: e2) = None).
  { apply find_first_of_None. rewrite not_elem_of_app, not_elem_of_cons.
    split; [exact Ho1|]. split; [apply not_eq_sym, Hpmo | exact Ho2]. }
  assert (Hn2 : find_first_of ")" (e1 ++ pm :: e2) = None).
  { apply find_first_of_None. rewrite not_elem_of_app, not_elem_of_cons.
    split; [exact Hc1|]. split; [apply not_eq_sym, Hpmo | exact Hc2]. }
  rewrite Hn1, Hn2. simpl.
  assert (Hpos : (if bool_decide (find_first_of "+" (e1 ++ pm :: e2) = None)
                  then find_first_of "-" (e1 ++ pm :: e2)
                  else find_first_of "+" (e1 ++ pm :: e2)) = Some (length e1)).
  { destruct Hpm as [->|(-> & Hp2 & Hm1)].
    - rewrite (find_first_of_app "+" e1 e2 Hp1). reflexivity.
    - assert (Hnone : find_first_of "+" (e1 ++ "-"%char :: e2) = None).
      { apply find_first_of_None. rewrite not_elem_of_app, not_elem_of_cons.
        split; [exact Hp1|]. split; [discriminate | exact Hp2]. }
      rewrite Hnone. simpl. apply find_first_of_app. exact Hm1. }
  rewrite Hpos.
  destruct (split_at (e1 ++ pm :: e2) e1 e2 pm (length e1) eq_refl eq_refl) as (-> & Hd2 & ->).
  replace (length e1 + 1)%nat with (S (length e1)) by lia. rewrite Hd2.
  reflexivity.
Qed.

(** The measure of the recursion *)

Lemma open_brackets_cons (c : ascii) (t : str) :
  open_brackets (c :: t) =
  ((if Ascii.eqb c "(" && negb (sign_tail t) then 1 else 0) + open_brackets t)%nat.
Proof. reflexivity. Qed.

Lemma open_brackets_skip (a b : str) :
  ("("%char ∉ a) -> open_brackets (a ++ b) = open_brackets b.
Proof.
  induction a as [|x a IH]; intros Hn; [reflexivity|].
  apply not_elem_of_cons in Hn as [Hne Hn].
  change ((x :: a) ++ b) with (x :: (a ++ b)). rewrite open_brackets_cons.
  rewrite ascii_eqb_false by congruence. simpl. apply IH. exact Hn.
Qed.

Lemma is_prefix_before_open (p c X Y : str) :
  ("("%char ∉ p) -> is_prefix p (c ++ "("%char :: X) = true -> is_prefix p (c ++ Y) = true.
Proof.
  revert c. induction p as [|a p IH]; intros c Hn Hp; [reflexivity|].
  apply not_elem_of_cons in Hn as [Hne Hn].
  destruct c as [|c0 c]; simpl in Hp.
  - apply andb_true_iff in Hp as [Ha _]. apply Ascii.eqb_eq in Ha. congruence.
  - apply andb_true_iff in Hp as [Ha Hp]. simpl. rewrite Ha. simpl.
    apply IH; assumption.
Qed.

Lemma sign_tail_before_open (c X Y : str) :
  sign_tail (c ++ "("%char :: X) = true -> sign_tail (c ++ Y) = true.
Proof.
  unfold sign_tail. intros Hs. apply orb_true_iff in Hs. apply orb_true_iff.
  destruct Hs as [Hs|Hs]; [left|right]; eapply is_prefix_before_open; try exact Hs;
    unfold lit; simpl; repeat (apply not_elem_of_cons; split; [discriminate|]);
    apply not_elem_of_nil.
Qed.

Lemma open_brackets_under (c A X : str) (k : nat) :
  (open_brackets A + k <= open_brackets ("("%char :: X))%nat ->
  (open_brackets (c ++ A) + k <= open_brackets (c ++ "("%char :: X))%nat.
Proof.
  intros Hbase. induction c as [|c0 c IH]; [exact Hbase|].
  change ((c0 :: c) ++ A) with (c0 :: (c ++ A)).
  change ((c0 :: c) ++ "("%char :: X) with (c0 :: (c ++ "("%char :: X)).
  rewrite !open_brackets_cons.
  destruct (sign_tail (c ++ "("%char :: X)) eqn:Hst.
  - rewrite (sign_tail_before_open c X A Hst). rewrite !andb_false_r. simpl. exact IH.
  - rewrite andb_true_r.
    set (oa := open_brackets (c ++ A)) in *. set (ob := open_brackets (c ++ "("%char :: X)) in *.
    destruct (Ascii.eqb c0 "("); destruct (sign_tail (c ++ A)); simpl; lia.
Qed.

Lemma first_occurrence_unique (c : ascii) (a b a' b' : str) :
  a ++ c :: b = a' ++ c :: b' -> (c ∉ a) -> (c ∉ a') -> a = a' /\ b = b'.
Proof.
  revert a'. induction a as [|x a IH]; intros [|x' a'] Heq Hn Hn'; simpl in Heq.
  - inversion Heq. split; reflexivity.
  - inversion Heq; subst. exfalso. apply Hn'. left.
  - inversion Heq; subst. exfalso. apply Hn. left.
  - inversion Heq; subst. apply not_elem_of_cons in Hn as [_ Hn], Hn' as [_ Hn'].
    destruct (IH a' H2 Hn Hn') as [-> ->]. split; reflexivity.
Qed.

Lemma not_sign_tail_group (w rest : str) :
  (")"%char ∉ w) -> head rest <> Some "*"%char ->
  sign_tail (w ++ ")"%char :: rest) = false.
Proof.
  intros Hn Hr. unfold sign_tail. apply orb_false_iff.
  split; apply not_true_is_false; intros Hp; apply is_prefix_spec in Hp;
    match type of Hp with
    | _ = lit ?p ++ ?d =>
        change (lit p ++ d) with (take 4 (lit p) ++ ")"%char :: "*"%char :: d) in Hp
    end;
    apply first_occurrence_unique in Hp as [_ Hrest]; try exact Hn;
    try (apply Hr; rewrite Hrest; reflexivity);
    unfold lit; simpl; repeat (apply not_elem_of_cons; split; [discriminate|]);
    apply not_elem_of_nil.
Qed.

Lemma open_brackets_group (e1 e2 rest : str) (pm : ascii) :
  ("("%char ∉ e1) -> (")"%char ∉ e1) -> ("("%char ∉ e2) -> (")"%char ∉ e2) ->
  (pm = "+"%char \/ pm = "-"%char) -> head rest <> Some "*"%char ->
  open_brackets ("("%char :: e1 ++ pm :: e2 ++ ")"%char :: rest) = S (open_brackets rest).
Proof.
  intros Ho1 Hc1 Ho2 Hc2 Hpm Hr. rewrite open_brackets_cons.
  change (e1 ++ pm :: e2 ++ ")"%char :: rest) with (e1 ++ (pm :: e2) ++ ")"%char :: rest).
  rewrite app_assoc. rewrite not_sign_tail_group; [|
    rewrite not_elem_of_app, not_elem_of_cons; split; [exact Hc1|];
    split; [destruct Hpm as [->| ->]; discriminate | exact Hc2] | exact Hr].
  simpl. f_equal. rewrite open_brackets_skip.
  - apply (open_brackets_skip [")"%char]). apply not_elem_of_cons. split; [discriminate | apply not_elem_of_nil].
  - rewrite not_elem_of_app, not_elem_of_cons. split; [exact Ho1|].
    split; [destruct Hpm as [->| ->]; discriminate | exact Ho2].
Qed.

Lemma split_children_decrease (opExpr rest first second : str) :
  UnwrapOpExpresion opExpr = Ret [first; second] ->
  head rest <> Some "*"%char ->
  (open_brackets (first ++ rest) < open_brackets (opExpr ++ rest))%nat /\
  (open_brackets (second ++ rest) < open_brackets (opExpr ++ rest))%nat.
Proof.
  intros Hu Hr.
  apply UnwrapOpExpresion_inv in Hu
    as (coeff & e1 & pm & e2 & -> & Ho1 & Hc1 & Ho2 & Hc2 & Hpm & _ & _ & -> & ->).
  assert (Hwhole : (coeff ++ "("%char :: e1 ++ pm :: e2 ++ [")"%char]) ++ rest
                   = coeff ++ "("%char :: e1 ++ pm :: e2 ++ ")"%char :: rest).
  { rewrite <- app_assoc. simpl. rewrite <- app_assoc. simpl.
    rewrite <- app_assoc. reflexivity. }
  rewrite Hwhole.
  pose proof (open_brackets_group e1 e2 rest pm Ho1 Hc1 Ho2 Hc2 Hpm Hr) as Hg.
  split.
  - rewrite <- app_assoc.
    pose proof (open_brackets_under coeff (e1 ++ rest) (e1 ++ pm :: e2 ++ ")"%char :: rest) 1) as Hle.
    rewrite Hg, open_brackets_skip in Hle by exact Ho1. lia.
  - assert (E : open_brackets (("("%char :: pm :: lit "1.0)*" ++ coeff ++ e2) ++ rest)
                = open_brackets (coeff ++ e2 ++ rest)).
    { transitivity (open_brackets ((pm :: lit "1.0)*") ++ (coeff ++ e2 ++ rest))).
      - change (("("%char :: pm :: lit "1.0)*" ++ coeff ++ e2) ++ rest)
          with ("("%char :: ((pm :: lit "1.0)*") ++ (coeff ++ e2) ++ rest)).
        rewrite open_brackets_cons.
        assert (Hst : sign_tail ((pm :: lit "1.0)*") ++ (coeff ++ e2) ++ rest) = true).
        { destruct Hpm as [->| ->]; reflexivity. }
        rewrite Hst, andb_false_r, <- app_assoc. reflexivity.
      - apply open_brackets_skip. unfold lit; simpl. apply not_elem_of_cons.
        split; [destruct Hpm as [->| ->]; discriminate|].
        repeat (apply not_elem_of_cons; split; [discriminate|]). apply not_elem_of_nil. }
    rewrite E.
    pose proof (open_brackets_under coeff (e2 ++ rest) (e1 ++ pm :: e2 ++ ")"%char :: rest) 1) as Hle.
    rewrite Hg, open_brackets_skip in Hle by exact Ho2. lia.
Qed.


Lemma split_children_nospace (opExpr first second : str) :
  UnwrapOpExpresion opExpr = Ret [first; second] ->
  nospace opExpr -> nospace first /\ nospace second.
Proof.
  intros Hu Hns.
  apply UnwrapOpExpresion_inv in Hu
    as (coeff & e1 & pm & e2 & -> & _ & _ & _ & _ & Hpm & _ & _ & -> & ->).
  unfold nospace in *.
  apply Forall_app in Hns as [Hc Hns]. apply Forall_cons in Hns as [_ Hns].
  apply Forall_app in Hns as [He1 Hns]. apply Forall_cons in Hns as [_ Hns].
  apply Forall_app in Hns as [He2 _].
  split; [apply Forall_app; split; assumption|].
  apply Forall_cons. split; [reflexivity|].
  apply Forall_cons. split; [destruct Hpm as [->| ->]; reflexivity|].
  apply Forall_app. split; [unfold lit; simpl; repeat constructor|].
  apply Forall_app; split; assumption.
Qed.

Lemma split_children_smaller (exprStr first second : str) (n : nat) :
  nospace exprStr ->
  UnwrapOpExpresion (take n exprStr) = Ret [first; second] ->
  head (drop n exprStr) <> Some "*"%char ->
  (open_brackets (removeWhiteSpaces (first ++ drop n exprStr)) < open_brackets exprStr)%nat /\
  (open_brackets (removeWhiteSpaces (second ++ drop n exprStr)) < open_brackets exprStr)%nat.
Proof.
  intros Hns Hu Hr.
  assert (Hns' : nospace (take n exprStr) /\ nospace (drop n exprStr)).
  { rewrite <- (take_drop n exprStr) in Hns. apply Forall_app in Hns. exact Hns. }
  destruct Hns' as [Hnt Hnd].
  destruct (split_children_nospace _ _ _ Hu Hnt) as [Hn1 Hn2].
  rewrite !removeWhiteSpaces_nospace by (apply Forall_app; split; assumption).
  rewrite <- (take_drop n exprStr) at 2 4.
  apply split_children_decrease; assumption.
Qed.

Lemma parse_split_ext (f g : str -> result (option HamiltonianTerm)) (a b : str) :
  f a = g a -> f b = g b -> parse_split f a b = parse_split g a b.
Proof. unfold parse_split. intros -> ->. reflexivity. Qed.

Lemma TD_body_ext (f g : str -> result (option HamiltonianTerm)) (s : str) (vars : VarsMap) :
  (forall child,
     (open_brackets (removeWhiteSpaces child) < open_brackets (removeWhiteSpaces s))%nat ->
     f child = g child) ->
  HamiltonianTimeDependentTerm_fromString_body f s vars =
  HamiltonianTimeDependentTerm_fromString_body g s vars.
Proof.
  intros Hfg. unfold HamiltonianTimeDependentTerm_fromString_body.
  pose proof (nospace_removeWhiteSpaces s) as Hns.
  set (exprStr := removeWhiteSpaces s) in *.
  destruct (find (lit "||") exprStr) as [sep|] eqn:Hfind; [|reflexivity].
  match goal with |- (if ?c then _ else _) = _ => destruct c; [reflexivity|] end.
  destruct (back (take sep exprStr)) as [b|]; simpl; [|reflexivity].
  destruct (Ascii.eqb b ")"); [|reflexivity].
  destruct (UnwrapOpExpresion (take sep exprStr)) as [l|] eqn:Hu; simpl; [|reflexivity].
  destruct l as [|first [|second [|]]]; try reflexivity.
  assert (Hr : head (drop sep exprStr) <> Some "*"%char).
  { apply find_split in Hfind as (a & b' & Hs & ->). rewrite Hs.
    rewrite drop_app_length. discriminate. }
  destruct (split_children_smaller exprStr first second sep Hns Hu Hr) as [H1 H2].
  apply parse_split_ext; apply Hfg; assumption.
Qed.

Lemma TI_body_ext (f g : str -> result (option HamiltonianTerm)) (s : str) (vars : VarsMap) :
  (forall child,
     (open_brackets (removeWhiteSpaces child) < open_brackets (removeWhiteSpaces s))%nat ->
     f child = g child) ->
  HamiltonianTimeIndependentTerm_fromString_body f s vars =
  HamiltonianTimeIndependentTerm_fromString_body g s vars.
Proof.
  intros Hfg. unfold HamiltonianTimeIndependentTerm_fromString_body.
  pose proof (nospace_removeWhiteSpaces s) as Hns.
  set (exprStr := removeWhiteSpaces s) in *.
  destruct (find (lit "||") exprStr) as [sep|] eqn:Hfind; [reflexivity|].
  destruct (back exprStr) as [b|]; simpl; [|reflexivity].
  destruct (Ascii.eqb b ")"); [|reflexivity].
  destruct (UnwrapOpExpresion exprStr) as [l|] eqn:Hu; simpl; [|reflexivity].
  destruct l as [|first [|second [|]]]; try reflexivity.
  assert (Hu' : UnwrapOpExpresion (take (length exprStr) exprStr) = Ret [first; second]).
  { rewrite firstn_all. exact Hu. }
  assert (Hr : head (drop (length exprStr) exprStr) <> Some "*"%char).
  { rewrite drop_all. discriminate. }
  destruct (split_children_smaller exprStr first second _ Hns Hu' Hr) as [H1 H2].
  rewrite drop_all, !app_nil_r in H1, H2.
  apply parse_split_ext; apply Hfg; assumption.
Qed.

Lemma TD_fuel_stable (vars : VarsMap) (n m : nat) (s : str) :
  (open_brackets (removeWhiteSpaces s) < n)%nat ->
  (open_brackets (removeWhiteSpaces s) < m)%nat ->
  HamiltonianTimeDependentTerm_fromString_fuel n vars s =
  HamiltonianTimeDependentTerm_fromString_fuel m vars s.
Proof.
  revert m s. induction n as [|n IH]; intros m s Hn Hm; [lia|].
  destruct m as [|m]; [lia|]. simpl.
  apply TD_body_ext. intros child Hc. apply IH; lia.
Qed.

Lemma TI_fuel_stable (vars : VarsMap) (n m : nat) (s : str) :
  (open_brackets (removeWhiteSpaces s) < n)%nat ->
  (open_brackets (removeWhiteSpaces s) < m)%nat ->
  HamiltonianTimeIndependentTerm_fromString_fuel n vars s =
  HamiltonianTimeIndependentTerm_fromString_fuel m vars s.
Proof.
  revert m s. induction n as [|n IH]; intros m s Hn Hm; [lia|].
  destruct m as [|m]; [lia|]. simpl.
  apply TI_body_ext. intros child Hc. apply IH; lia.
Qed.

(** The two parsers satisfy the equations of the source: the step bound
    never runs out. *)
Lemma HamiltonianTimeDependentTerm_fromString_unfold (s : str) (vars : VarsMap) :
  HamiltonianTimeDependentTerm_fromString s vars =
  HamiltonianTimeDependentTerm_fromString_body
    (fun child => HamiltonianTimeDependentTerm_fromString child vars) s vars.
Proof.
  unfold HamiltonianTimeDependentTerm_fromString at 1. simpl.
  apply TD_body_ext. intros child Hc.
  unfold HamiltonianTimeDependentTerm_fromString. apply TD_fuel_stable; lia.
Qed.

Lemma HamiltonianTimeIndependentTerm_fromString_unfold (s : str) (vars : VarsMap) :
  HamiltonianTimeIndependentTerm_fromString s vars =
  HamiltonianTimeIndependentTerm_fromString_body
    (fun child => HamiltonianTimeIndependentTerm_fromString child vars) s vars.
Proof.
  unfold HamiltonianTimeIndependentTerm_fromString at 1. simpl.
  apply TI_body_ext. intros child Hc.
  unfold HamiltonianTimeIndependentTerm_fromString. apply TI_fuel_stable; lia.
Qed.


Lemma find_separator (a b : str) :
  ("|"%char ∉ a) -> find (lit "||") (a ++ lit "||" ++ b) = Some (length a).
Proof. intros Hn. apply (find_app_absent "|" ["|"%char] a b Hn). Qed.

Lemma TD_on_separated (a ch : str) (vars : VarsMap) :
  nospace (a ++ lit "||" ++ ch) -> ("|"%char ∉ a) ->
  HamiltonianTimeDependentTerm_fromString (a ++ lit "||" ++ ch) vars =
  let channelName := toUpperCase ch in
  if (length channelName <? 2)%nat
     || (negb (bool_decide (head channelName = Some "D"%char))
         && negb (bool_decide (head channelName = Some "U"%char)))
     || negb (isNumberString (drop 1 channelName))
  then Ret None
  else
    b ← back a;
    if Ascii.eqb b ")" then
      splitExprs ← UnwrapOpExpresion a;
      match splitExprs with
      | [first; second] =>
          parse_split (fun child => HamiltonianTimeDependentTerm_fromString child vars)
            (first ++ lit "||" ++ ch) (second ++ lit "||" ++ ch)
      | _ => Ret None
      end
    else parse_product a (HamiltonianTimeDependentTerm channelName) vars.
Proof.
  intros Hns Hn. rewrite HamiltonianTimeDependentTerm_fromString_unfold.
  unfold HamiltonianTimeDependentTerm_fromString_body.
  rewrite (removeWhiteSpaces_nospace _ Hns), (find_separator a ch Hn).
  rewrite take_app_length, drop_app_length.
  replace (drop (length a + 2) (a ++ lit "||" ++ ch)) with ch.
  2:{ change (a ++ lit "||" ++ ch) with (a ++ (lit "||" ++ ch)).
      rewrite drop_app_add. reflexivity. }
  reflexivity.
Qed.


(** The equation behind the distribution of a bracketed sum. *)
Lemma distribution_equation (in_string c A B Ch : str) (pm : ascii) (vars : VarsMap) :
  removeWhiteSpaces in_string = c ++ lit "*(" ++ A ++ pm :: B ++ lit ")||" ++ Ch ->
  ("|"%char ∉ c) -> ("|"%char ∉ A) -> ("|"%char ∉ B) ->
  ("("%char ∉ A) -> (")"%char ∉ A) -> ("("%char ∉ B) -> (")"%char ∉ B) ->
  ("+"%char ∉ A) ->
  (pm = "+"%char \/ (pm = "-"%char /\ ("+"%char ∉ B) /\ ("-"%char ∉ A))) ->
  HamiltonianTimeDependentTerm_fromString in_string vars =
  (expr1 ← HamiltonianTimeDependentTerm_fromString
             (c ++ lit "*" ++ A ++ lit "||" ++ Ch) vars;
   expr2 ← HamiltonianTimeDependentTerm_fromString
             (lit "(" ++ pm :: lit "1.0)*" ++ c ++ lit "*" ++ B ++ lit "||" ++ Ch) vars;
   match expr1, expr2 with
   | Some expr1, Some expr2 => Ret (Some (HamiltonianSumTerm [expr1; expr2]))
   | _, _ => Ret None
   end).
Proof.
  intros Hin Hbc HbA HbB HoA HcA HoB HcB HpA Hpm.
  assert (Hpmv : pm = "+"%char \/ pm = "-"%char) by (destruct Hpm as [?|[? _]]; auto).
  pose proof (nospace_removeWhiteSpaces in_string) as Hns. rewrite Hin in Hns.
  apply nospace_app in Hns as [Hnc Hns]. apply nospace_app in Hns as [_ Hns].
  apply nospace_app in Hns as [HnA Hns]. apply nospace_cons in Hns as [_ Hns].
  apply nospace_app in Hns as [HnB Hns]. apply nospace_app in Hns as [_ HnCh].
  assert (Hunfold : forall s, removeWhiteSpaces s = removeWhiteSpaces in_string ->
            HamiltonianTimeDependentTerm_fromString s vars =
            HamiltonianTimeDependentTerm_fromString in_string vars).
  { intros s0 Hs0. rewrite !HamiltonianTimeDependentTerm_fromString_unfold.
    unfold HamiltonianTimeDependentTerm_fromString_body. rewrite Hs0. reflexivity. }
  set (P := (c ++ lit "*") ++ "("%char :: A ++ pm :: B ++ [")"%char]).
  assert (HP : c ++ lit "*(" ++ A ++ pm :: B ++ lit ")||" ++ Ch = P ++ lit "||" ++ Ch).
  { unfold P. rewrite <- !app_assoc. simpl. rewrite <- !app_assoc. simpl.
    rewrite <- !app_assoc. reflexivity. }
  assert (HnsP : nospace (P ++ lit "||" ++ Ch)).
  { rewrite <- HP, <- Hin. apply nospace_removeWhiteSpaces. }
  assert (Hpm1 : "|"%char <> pm) by (destruct Hpmv as [->| ->]; discriminate).
  assert (Hpm2 : isspace pm = false) by (destruct Hpmv as [->| ->]; reflexivity).
  assert (HbP : "|"%char ∉ P) by (unfold P; absent).
  rewrite <- (Hunfold (P ++ lit "||" ++ Ch))
    by (rewrite Hin, HP; apply removeWhiteSpaces_nospace, HnsP).
  rewrite (TD_on_separated P Ch vars HnsP HbP).
  assert (Hn1 : nospace ((c ++ lit "*" ++ A) ++ lit "||" ++ Ch)) by spaceless.
  assert (Hb1 : "|"%char ∉ c ++ lit "*" ++ A) by absent.
  assert (Hn2 : nospace ((lit "(" ++ pm :: lit "1.0)*" ++ c ++ lit "*" ++ B) ++ lit "||" ++ Ch))
    by spaceless.
  assert (Hb2 : "|"%char ∉ lit "(" ++ pm :: lit "1.0)*" ++ c ++ lit "*" ++ B) by absent.
  assert (E1 : c ++ lit "*" ++ A ++ lit "||" ++ Ch = (c ++ lit "*" ++ A) ++ lit "||" ++ Ch)
    by (rewrite <- !app_assoc; reflexivity).
  assert (E2 : lit "(" ++ pm :: lit "1.0)*" ++ c ++ lit "*" ++ B ++ lit "||" ++ Ch
               = (lit "(" ++ pm :: lit "1.0)*" ++ c ++ lit "*" ++ B) ++ lit "||" ++ Ch)
    by (rewrite <- !app_assoc; simpl; rewrite <- !app_assoc; reflexivity).
  cbv zeta.
  match goal with |- (if ?chk then _ else _) = _ => destruct chk eqn:Hchk end.
  - rewrite E1, E2.
    rewrite (TD_on_separated _ Ch vars Hn1 Hb1), (TD_on_separated _ Ch vars Hn2 Hb2).
    cbv zeta. rewrite Hchk. reflexivity.
  - assert (HbackP : back P = Ret ")"%char).
    { apply back_Ret. unfold P.
      change ("("%char :: A ++ pm :: B ++ [")"%char]) with (("("%char :: A) ++ (pm :: B) ++ [")"%char]).
      rewrite !app_assoc. apply last_snoc. }
    rewrite HbackP. cbn [mbind result_bind]. rewrite ascii_eqb_refl.
    unfold P at 1.
    rewrite (UnwrapOpExpresion_shape (c ++ lit "*") A B pm HoA HcA HoB HcB HpA Hpm).
    cbn [mbind result_bind]. unfold parse_split.
    rewrite E1, E2. rewrite <- !app_assoc. reflexivity.
Qed.


Lemma last_occurrence_unique (c : ascii) (a b a' b' : str) :
  a ++ c :: b = a' ++ c :: b' -> (c ∉ b) -> (c ∉ b') -> a = a' /\ b = b'.
Proof.
  intros Heq Hn Hn'. apply (f_equal (@rev ascii)) in Heq.
  rewrite !rev_app_distr in Heq. simpl in Heq. rewrite <- !app_assoc in Heq. simpl in Heq.
  apply first_occurrence_unique in Heq as [Hb Ha].
  - apply (f_equal (@rev ascii)) in Ha, Hb. rewrite !rev_involutive in Ha, Hb. split; assumption.
  - intros Hin. apply Hn. apply list_elem_of_In, in_rev, list_elem_of_In. exact Hin.
  - intros Hin. apply Hn'. apply list_elem_of_In, in_rev, list_elem_of_In. exact Hin.
Qed.

Lemma channel_without_bar (b : str) :
  (length (toUpperCase b) <? 2)%nat
  || (negb (bool_decide (head (toUpperCase b) = Some "D"%char))
      && negb (bool_decide (head (toUpperCase b) = Some "U"%char)))
  || negb (isNumberString (drop 1 (toUpperCase b))) = false ->
  "|"%char ∉ b.
Proof.
  intros Hchk. apply orb_false_iff in Hchk as [Hchk Hnum].
  apply orb_false_iff in Hchk as [_ Hhead].
  apply negb_false_iff in Hnum.
  intros Hin.
  assert (Hup : "|"%char ∈ toUpperCase b).
  { unfold toUpperCase. apply list_elem_of_fmap. exists "|"%char. split; [reflexivity | exact Hin]. }
  destruct (toUpperCase b) as [|h t]; [inversion Hup|].
  simpl in Hnum, Hhead. rewrite drop_0 in Hnum.
  apply elem_of_cons in Hup as [<-|Hup].
  - simpl in Hhead. discriminate.
  - unfold isNumberString in Hnum. rewrite forallb_forall in Hnum.
    apply list_elem_of_In in Hup. apply Hnum in Hup. discriminate.
Qed.

Lemma parse_product_inv (e : str) (make : double -> list QubitOp -> HamiltonianTerm)
    (vars : VarsMap) (t : HamiltonianTerm) :
  parse_product e make vars = Ret (Some t) -> exists k ops, t = make k ops.
Proof.
  unfold parse_product.
  destruct (collect_operators _ _ _ _) as [[ops r]|]; simpl; [|discriminate].
  destruct (TryEvaluateExpression r vars) as [k|]; [|discriminate].
  intros Heq. inversion Heq. eauto.
Qed.

Lemma parse_split_inv (f : str -> result (option HamiltonianTerm)) (a b : str)
    (t : HamiltonianTerm) :
  parse_split f a b = Ret (Some t) ->
  exists t1 t2, f a = Ret (Some t1) /\ f b = Ret (Some t2) /\ t = HamiltonianSumTerm [t1; t2].
Proof.
  unfold parse_split. destruct (f a) as [[t1|]|]; simpl; try discriminate;
    destruct (f b) as [[t2|]|]; simpl; try discriminate.
  intros Heq. inversion Heq. eauto.
Qed.

Lemma TD_fuel_channel (vars : VarsMap) (n : nat) (s : str) (t : HamiltonianTerm) :
  HamiltonianTimeDependentTerm_fromString_fuel n vars s = Ret (Some t) ->
  exists a b, removeWhiteSpaces s = a ++ lit "||" ++ b /\ ("|"%char ∉ b) /\
              bound_to_channel (toUpperCase b) t.
Proof.
  revert s t. induction n as [|n IH]; intros s t Hret; [discriminate|].
  simpl in Hret. unfold HamiltonianTimeDependentTerm_fromString_body in Hret.
  pose proof (nospace_removeWhiteSpaces s) as Hns.
  set (exprStr := removeWhiteSpaces s) in *.
  destruct (find (lit "||") exprStr) as [sep|] eqn:Hfind; [|discriminate].
  apply find_split in Hfind as (a & b & Hs & ->).
  rewrite Hs in Hret. rewrite take_app_length, drop_app_length in Hret.
  replace (drop (length a + 2) (a ++ lit "||" ++ b)) with b in Hret.
  2:{ change (a ++ lit "||" ++ b) with (a ++ (lit "||" ++ b)). rewrite drop_app_add. reflexivity. }
  match type of Hret with (if ?chk then _ else _) = _ => destruct chk eqn:Hchk end; [discriminate|].
  pose proof (channel_without_bar b Hchk) as Hbar.
  exists a, b. split; [exact Hs|]. split; [exact Hbar|].
  destruct (back a) as [c|]; simpl in Hret; [|discriminate].
  destruct (Ascii.eqb c ")").
  - destruct (UnwrapOpExpresion a) as [l|] eqn:Hu; simpl in Hret; [|discriminate].
    destruct l as [|first [|second [|]]]; try discriminate.
    apply parse_split_inv in Hret as (t1 & t2 & H1 & H2 & ->).
    rewrite Hs in Hns. apply nospace_app in Hns as [Hna Hnb].
    destruct (split_children_nospace _ _ _ Hu Hna) as [Hn1 Hn2].
    assert (Hchild : forall child tc, nospace child ->
              HamiltonianTimeDependentTerm_fromString_fuel n vars (child ++ lit "||" ++ b) = Ret (Some tc) ->
              bound_to_channel (toUpperCase b) tc).
    { intros child tc Hnc Hc. apply IH in Hc as (a' & b' & Hs' & Hbar' & Hbound).
      rewrite removeWhiteSpaces_nospace in Hs' by (apply nospace_app; split; assumption).
      assert (Heq : (child ++ ["|"%char]) ++ "|"%char :: b = (a' ++ ["|"%char]) ++ "|"%char :: b').
      { rewrite <- !app_assoc. exact Hs'. }
      apply last_occurrence_unique in Heq as [_ ->]; assumption. }
    unfold bound_to_channel. simpl. rewrite app_nil_r. apply Forall_app. split.
    + apply (Hchild first t1 Hn1 H1).
    + apply (Hchild second t2 Hn2 H2).
  - apply parse_product_inv in Hret as (k & ops & ->).
    unfold bound_to_channel. simpl. constructor; [eauto | constructor].
Qed.

Lemma TD_channel (vars : VarsMap) (a b : str) (t : HamiltonianTerm) :
  nospace (a ++ lit "||" ++ b) ->
  HamiltonianTimeDependentTerm_fromString (a ++ lit "||" ++ b) vars = Ret (Some t) ->
  ("|"%char ∉ b) -> bound_to_channel (toUpperCase b) t.
Proof.
  intros Hns Hret Hbar. apply TD_fuel_channel in Hret as (a' & b' & Hs' & Hbar' & Hbound).
  rewrite removeWhiteSpaces_nospace in Hs' by exact Hns.
  assert (Heq : (a ++ ["|"%char]) ++ "|"%char :: b = (a' ++ ["|"%char]) ++ "|"%char :: b').
  { rewrite <- !app_assoc. exact Hs'. }
  apply last_occurrence_unique in Heq as [_ ->]; assumption.
Qed.


Lemma GetNextCommaSeparatedSubString_field (x rest : str) :
  (","%char ∉ x) -> GetNextCommaSeparatedSubString (x ++ lit "," ++ rest) = (x, rest).
Proof.
  intros Hn. unfold GetNextCommaSeparatedSubString.
  pose proof (find_app_absent "," [] x rest Hn) as Hf. simpl in Hf.
  change (lit ",") with [","%char]. simpl. rewrite Hf.
  rewrite take_app_length.
  replace (length x + 1)%nat with (length (x ++ [","%char])) by (rewrite length_app; reflexivity).
  change (x ++ ","%char :: rest) with (x ++ [","%char] ++ rest).
  rewrite app_assoc, drop_app_length. reflexivity.
Qed.

Lemma str_eqb_refl (a : str) : str_eqb a a = true.
Proof. unfold str_eqb. apply bool_decide_eq_true. reflexivity. Qed.

(** The macro text with its four fields read. *)
Lemma HamiltonianSumTerm_fromString_fields (in_string v sa sb body : str) (vars : VarsMap) :
  removeWhiteSpaces in_string =
    lit "_SUM[" ++ v ++ lit "," ++ sa ++ lit "," ++ sb ++ lit "," ++ body ++ lit "]" ->
  (","%char ∉ v) -> (","%char ∉ sa) -> (","%char ∉ sb) ->
  HamiltonianSumTerm_fromString in_string vars = sum_over_loop v sa sb body vars.
Proof.
  intros Hin Hv Ha Hb. unfold HamiltonianSumTerm_fromString. rewrite Hin.
  cbv zeta.
  change (length (lit "_SUM[")) with 5%nat.
  change (take 5 (lit "_SUM[" ++ ?x)) with (lit "_SUM[").
  rewrite str_eqb_refl. cbn [negb].
  assert (Hback : back (lit "_SUM[" ++ v ++ lit "," ++ sa ++ lit "," ++ sb ++ lit "," ++ body ++ lit "]")
                  = Ret "]"%char).
  { apply back_Ret. rewrite !app_assoc. apply last_snoc. }
  rewrite Hback. cbn [mbind result_bind]. rewrite ascii_eqb_refl. cbn [negb].
  change (drop 5 (lit "_SUM[" ++ ?x)) with x.
  unfold pop_back.
  replace (removelast (v ++ lit "," ++ sa ++ lit "," ++ sb ++ lit "," ++ body ++ lit "]"))
    with (v ++ lit "," ++ sa ++ lit "," ++ sb ++ lit "," ++ body).
  2:{ change (lit "]") with ["]"%char]. rewrite !app_assoc. rewrite removelast_last. reflexivity. }
  rewrite (GetNextCommaSeparatedSubString_field v _ Hv).
  rewrite (GetNextCommaSeparatedSubString_field sa _ Ha).
  rewrite (GetNextCommaSeparatedSubString_field sb _ Hb).
  reflexivity.
Qed.

Lemma stoi_digits (s : str) :
  s <> [] -> isNumberString s = true -> decimal_value s <= INT_MAX ->
  stoi s = Ret (decimal_value s).
Proof.
  intros Hne Hnum Hle. unfold stoi. destruct s as [|c s]; [contradiction|].
  unfold isNumberString in Hnum. rewrite Hnum.
  apply Z.leb_le in Hle. rewrite Hle. reflexivity.
Qed.

(** C10.  A macro [_SUM[v,a,b,body]] whose start bound exceeds its end
    bound (both within [int]), or whose body does not hold the template
    [{v}] verbatim, is parsed into no term. *)
Theorem degenerate_sum_is_rejected (in_string v sa sb body : str) (vars : VarsMap) :
  removeWhiteSpaces in_string =
    lit "_SUM[" ++ v ++ lit "," ++ sa ++ lit "," ++ sb ++ lit "," ++ body ++ lit "]" ->
  (","%char ∉ v) -> (","%char ∉ sa) -> (","%char ∉ sb) ->
  (decimal_value sb < decimal_value sa <= INT_MAX
   \/ find (lit "{" ++ v ++ lit "}") body = None) ->
  HamiltonianSumTerm_fromString in_string vars = Ret None.
Proof.
  intros Hin Hv Ha Hb Hdeg.
  rewrite (HamiltonianSumTerm_fromString_fields in_string v sa sb body vars Hin Hv Ha Hb).
  unfold sum_over_loop. cbv zeta.
  match goal with |- (if ?chk then _ else _) = _ => destruct chk eqn:Hchk end; [reflexivity|].
  repeat (apply orb_false_iff in Hchk as [Hchk ?]).
  destruct Hdeg as [[Hlt Hmax]|Hnone].
  - rewrite (stoi_digits sa), (stoi_digits sb); try lia.
    + cbn [mbind result_bind]. apply Z.ltb_lt in Hlt. rewrite Hlt. reflexivity.
    + intros ->. discriminate.
    + apply negb_false_iff. assumption.
    + intros ->. discriminate.
    + apply negb_false_iff. assumption.
  - match goal with Hf : bool_decide (find _ _ = None) = false |- _ =>
      apply bool_decide_eq_false in Hf; contradiction end.
Qed.



Lemma TI_Some_separator (e : str) (vars : VarsMap) (t : HamiltonianTerm) :
  HamiltonianTimeIndependentTerm_fromString e vars = Ret (Some t) ->
  find (lit "||") (removeWhiteSpaces e) = None.
Proof.
  rewrite HamiltonianTimeIndependentTerm_fromString_unfold.
  unfold HamiltonianTimeIndependentTerm_fromString_body.
  destruct (find (lit "||") (removeWhiteSpaces e)); [discriminate | reflexivity].
Qed.

Lemma TI_of_separated (e : str) (vars : VarsMap) :
  find (lit "||") (removeWhiteSpaces e) <> None ->
  HamiltonianTimeIndependentTerm_fromString e vars = Ret None.
Proof.
  intros Hf. rewrite HamiltonianTimeIndependentTerm_fromString_unfold.
  unfold HamiltonianTimeIndependentTerm_fromString_body.
  destruct (find (lit "||") (removeWhiteSpaces e)); [reflexivity | contradiction].
Qed.

Lemma TD_of_unseparated (e : str) (vars : VarsMap) :
  find (lit "||") (removeWhiteSpaces e) = None ->
  HamiltonianTimeDependentTerm_fromString e vars = Ret None.
Proof.
  intros Hf. rewrite HamiltonianTimeDependentTerm_fromString_unfold.
  unfold HamiltonianTimeDependentTerm_fromString_body. rewrite Hf. reflexivity.
Qed.






(** C7, as amended.  When the entries of [h_str] before an entry that has
    no parse all parse, the JSON-level parse returns false; the terms of the
    entries before it have been handed to the consumer, in order, and no
    term of that entry or of a later one is. *)
Theorem tryParse_json_stops_at_first_failure {St : Type}
    (in_forEachTermFn : HamiltonianTerm -> St -> St) (st : St)
    (varsArray : list (str * json_value)) (vars : VarsMap)
    (parsed : list str) (ts : list HamiltonianTerm) (bad : str) (rest : list json_value) :
  read_vars varsArray [] = Ret vars ->
  Forall2 (fun e t => HamiltonianParsingUtil_tryParse e vars = Ret (Some t)) parsed ts ->
  HamiltonianParsingUtil_tryParse bad vars = Ret None ->
  HamiltonianParsingUtil_tryParse_json
    (json_object (map json_string parsed ++ json_string bad :: rest) varsArray)
    in_forEachTermFn st
  = (fold_left (fun st t => in_forEachTermFn t st) ts st, Ret false).
Proof.
  intros Hvars Hparsed Hbad. unfold HamiltonianParsingUtil_tryParse_json. rewrite Hvars.
  revert st. induction Hparsed as [|e t parsed ts He _ IH]; intros st; simpl.
  - rewrite Hbad. reflexivity.
  - rewrite He. apply IH.
Qed.

Lemma not_sum_form (s : str) (vars : VarsMap) :
  sum_form (removeWhiteSpaces s) = false ->
  HamiltonianSumTerm_fromString s vars = Ret None.
Proof.
  unfold sum_form, HamiltonianSumTerm_fromString. intros Hsf. cbv zeta.
  change (length (lit "_SUM[")) with 5%nat.
  destruct (str_eqb (take 5 (removeWhiteSpaces s)) (lit "_SUM[")) eqn:Hpre; [|reflexivity].
  cbn [negb]. simpl in Hsf. apply bool_decide_eq_false in Hsf.
  unfold back. destruct (last (removeWhiteSpaces s)) as [b|] eqn:Hlast.
  - cbn [mbind result_bind]. destruct (Ascii.eqb_spec b "]") as [->|]; [contradiction | reflexivity].
  - apply last_None in Hlast. rewrite Hlast in Hpre. discriminate.
Qed.

Lemma tryParse_not_sum (s : str) (vars : VarsMap) :
  sum_form (removeWhiteSpaces s) = false ->
  HamiltonianParsingUtil_tryParse s vars =
  (tryTimeDep ← HamiltonianTimeDependentTerm_fromString s vars;
   match tryTimeDep with
   | Some term => Ret (Some term)
   | None =>
       tryTimeInd ← HamiltonianTimeIndependentTerm_fromString s vars;
       match tryTimeInd with
       | Some term => Ret (Some term)
       | None => Ret None
       end
   end).
Proof.
  intros Hsf. unfold HamiltonianParsingUtil_tryParse. rewrite (not_sum_form s vars Hsf). reflexivity.
Qed.

Lemma TD_cases (s : str) (vars : VarsMap) :
  HamiltonianTimeDependentTerm_fromString s vars = Ret None \/
  exists sep, find (lit "||") (removeWhiteSpaces s) = Some sep /\
    channel_name (toUpperCase (drop (sep + 2) (removeWhiteSpaces s))) = true /\
    HamiltonianTimeDependentTerm_fromString s vars =
    (b ← back (take sep (removeWhiteSpaces s));
     if Ascii.eqb b ")" then
       splitExprs ← UnwrapOpExpresion (take sep (removeWhiteSpaces s));
       match splitExprs with
       | [first; second] =>
           parse_split (fun child => HamiltonianTimeDependentTerm_fromString child vars)
             (first ++ drop sep (removeWhiteSpaces s))
             (second ++ drop sep (removeWhiteSpaces s))
       | _ => Ret None
       end
     else parse_product (take sep (removeWhiteSpaces s))
            (HamiltonianTimeDependentTerm
               (toUpperCase (drop (sep + 2) (removeWhiteSpaces s)))) vars).
Proof.
  rewrite HamiltonianTimeDependentTerm_fromString_unfold.
  unfold HamiltonianTimeDependentTerm_fromString_body.
  destruct (find (lit "||") (removeWhiteSpaces s)) as [sep|]; [|left; reflexivity].
  match goal with |- (if ?chk then _ else _) = _ \/ _ => destruct chk eqn:Hchk end;
    [left; reflexivity | right].
  exists sep. split; [reflexivity|]. split; [|reflexivity].
  unfold channel_name. rewrite Hchk. reflexivity.
Qed.

Lemma TI_cases (s : str) (vars : VarsMap) :
  HamiltonianTimeIndependentTerm_fromString s vars = Ret None \/
  (find (lit "||") (removeWhiteSpaces s) = None /\
   HamiltonianTimeIndependentTerm_fromString s vars =
   (b ← back (removeWhiteSpaces s);
    if Ascii.eqb b ")" then
      splitExprs ← UnwrapOpExpresion (removeWhiteSpaces s);
      match splitExprs with
      | [first; second] =>
          parse_split (fun child => HamiltonianTimeIndependentTerm_fromString child vars)
            first second
      | _ => Ret None
      end
    else parse_product (removeWhiteSpaces s) HamiltonianTimeIndependentTerm vars)).
Proof.
  rewrite HamiltonianTimeIndependentTerm_fromString_unfold.
  unfold HamiltonianTimeIndependentTerm_fromString_body.
  destruct (find (lit "||") (removeWhiteSpaces s)) as [sep|]; [left; reflexivity|].
  right. split; reflexivity.
Qed.

(** Both term parsers read the operators from [operator_expression]: a
    property of it that makes the bracket branch and the product branch
    return no term makes the parser return no term. *)
Lemma tryParse_by_operator_expression (s : str) (vars : VarsMap) :
  sum_form (removeWhiteSpaces s) = false ->
  (forall E, E = operator_expression (removeWhiteSpaces s) ->
     forall (self : str -> result (option HamiltonianTerm)) rest
            (make : double -> list QubitOp -> HamiltonianTerm),
       (b ← back E;
        if Ascii.eqb b ")" then
          splitExprs ← UnwrapOpExpresion E;
          match splitExprs with
          | [first; second] => parse_split self (first ++ rest) (second ++ rest)
          | _ => Ret None
          end
        else parse_product E make vars) = Ret None) ->
  HamiltonianParsingUtil_tryParse s vars = Ret None.
Proof.
  intros Hsf HE. rewrite (tryParse_not_sum s vars Hsf).
  assert (Htd : HamiltonianTimeDependentTerm_fromString s vars = Ret None).
  { destruct (TD_cases s vars) as [Hn|(sep & Hfind & _ & Heq)]; [exact Hn|].
    rewrite Heq. apply (HE (take sep (removeWhiteSpaces s))).
    unfold operator_expression. rewrite Hfind. reflexivity. }
  assert (Hti : HamiltonianTimeIndependentTerm_fromString s vars = Ret None).
  { destruct (TI_cases s vars) as [Hn|(Hfind & Heq)]; [exact Hn|].
    rewrite Heq.
    pose proof (HE (removeWhiteSpaces s)) as HE'.
    unfold operator_expression in HE'. rewrite Hfind in HE'.
    specialize (HE' eq_refl (fun child => HamiltonianTimeIndependentTerm_fromString child vars) []
                  HamiltonianTimeIndependentTerm).
    revert HE'. destruct (back (removeWhiteSpaces s)) as [b|]; [|intros HE'; exact HE'].
    cbn [mbind result_bind]. destruct (Ascii.eqb b ")"); [|intros HE'; exact HE'].
    destruct (UnwrapOpExpresion (removeWhiteSpaces s)) as [l|]; [|intros HE'; exact HE'].
    cbn [mbind result_bind]. destruct l as [|first [|second [|]]]; try (intros HE'; exact HE').
    rewrite !app_nil_r. intros HE'; exact HE'. }
  rewrite Htd. cbn [mbind result_bind]. rewrite Hti. reflexivity.
Qed.

Lemma malformed_channel_is_rejected (s : str) (vars : VarsMap) (sep : nat) :
  sum_form (removeWhiteSpaces s) = false ->
  find (lit "||") (removeWhiteSpaces s) = Some sep ->
  channel_name (toUpperCase (drop (sep + 2) (removeWhiteSpaces s))) = false ->
  HamiltonianParsingUtil_tryParse s vars = Ret None.
Proof.
  intros Hsf Hfind Hch. rewrite (tryParse_not_sum s vars Hsf).
  destruct (TD_cases s vars) as [Hn|(sep' & Hfind' & Hok & _)].
  - rewrite Hn. cbn [mbind result_bind].
    rewrite (TI_of_separated s vars) by (rewrite Hfind; discriminate). reflexivity.
  - rewrite Hfind in Hfind'. inversion Hfind'; subst. rewrite Hch in Hok. discriminate.
Qed.

Lemma UnwrapOpExpresion_nested (coeff w : str) :
  ("("%char ∉ w) -> (")"%char ∈ w) ->
  UnwrapOpExpresion (coeff ++ "("%char :: w ++ [")"%char]) = Ret [].
Proof.
  intros Ho Hc. unfold UnwrapOpExpresion.
  assert (Hback : back (coeff ++ "("%char :: w ++ [")"%char]) = Ret ")"%char).
  { apply back_Ret. change ("("%char :: w ++ [")"%char]) with (("("%char :: w) ++ [")"%char]).
    rewrite app_assoc. apply last_snoc. }
  rewrite Hback. cbn [mbind result_bind]. rewrite ascii_eqb_refl. cbn [negb].
  rewrite (find_last_of_app "(" coeff (w ++ [")"%char])) by absent.
  destruct (split_at (coeff ++ "("%char :: w ++ [")"%char]) coeff (w ++ [")"%char]) "("
              (length coeff) eq_refl eq_refl) as (_ & Hd & _).
  replace (length coeff + 1)%nat with (S (length coeff)) by lia. rewrite Hd.
  unfold pop_back. rewrite removelast_last.
  assert (Hc2 : find_first_of ")" w <> None).
  { intros Hnone. apply find_first_of_None in Hnone. contradiction. }
  rewrite (bool_decide_eq_true_2 _ Hc2). rewrite orb_true_r. reflexivity.
Qed.

Lemma nested_sum_is_rejected (s coeff w : str) (vars : VarsMap) :
  sum_form (removeWhiteSpaces s) = false ->
  operator_expression (removeWhiteSpaces s) = coeff ++ "("%char :: w ++ [")"%char] ->
  ("("%char ∉ w) -> (")"%char ∈ w) ->
  HamiltonianParsingUtil_tryParse s vars = Ret None.
Proof.
  intros Hsf HE Ho Hc. apply tryParse_by_operator_expression; [exact Hsf|].
  intros E -> self rest make. rewrite HE.
  assert (Hback : back (coeff ++ "("%char :: w ++ [")"%char]) = Ret ")"%char).
  { apply back_Ret. change ("("%char :: w ++ [")"%char]) with (("("%char :: w) ++ [")"%char]).
    rewrite app_assoc. apply last_snoc. }
  rewrite Hback. cbn [mbind result_bind]. rewrite ascii_eqb_refl.
  rewrite (UnwrapOpExpresion_nested coeff w Ho Hc). reflexivity.
Qed.


Lemma GetLastOperator_unknown (r name idx : str) :
  ("*"%char ∉ name ++ idx) -> name <> [] -> Forall (fun c => isalpha c = true) name ->
  idx <> [] -> isNumberString idx = true ->
  ConvertOperatorFromString (toUpperCase name) = NA ->
  GetLastOperator (r ++ "*"%char :: name ++ idx) = Ret None.
Proof.
  intros Hstar Hname Halpha Hidx Hnum Hna. unfold GetLastOperator.
  rewrite (find_last_of_app "*" r (name ++ idx) Hstar).
  destruct (split_at (r ++ "*"%char :: name ++ idx) r (name ++ idx) "*" (length r) eq_refl eq_refl)
    as (_ & Hd & _).
  replace (length r + 1)%nat with (S (length r)) by lia. rewrite Hd.
  destruct idx as [|d idx']; [contradiction|].
  unfold toUpperCase. rewrite map_app. simpl map.
  unfold isNumberString in Hnum. simpl in Hnum. apply andb_true_iff in Hnum as [Hd0 _].
  destruct (is_digit_toupper d Hd0) as [Hup Hnal].
  rewrite (list_find_first (fun c => negb (isalpha c) = true) (map toupper name) _ (toupper d)).
  - rewrite take_app_length. rewrite length_map.
    destruct name as [|n0 name']; [contradiction|].
    simpl length. cbn [Nat.ltb Nat.leb orb].
    change (map toupper (n0 :: name')) with (toUpperCase (n0 :: name')).
    rewrite Hna. rewrite bool_decide_eq_true_2 by reflexivity. reflexivity.
  - apply Forall_forall. intros y Hy. apply list_elem_of_fmap in Hy as (c & -> & Hc).
    rewrite isalpha_toupper. rewrite Forall_forall in Halpha. rewrite (Halpha c Hc). discriminate.
  - rewrite Hup, Hnal. reflexivity.
Qed.

Lemma unknown_operator_is_rejected (s r name idx : str) (vars : VarsMap) :
  sum_form (removeWhiteSpaces s) = false ->
  operator_expression (removeWhiteSpaces s) = r ++ "*"%char :: name ++ idx ->
  ("*"%char ∉ name ++ idx) -> name <> [] -> Forall (fun c => isalpha c = true) name ->
  idx <> [] -> isNumberString idx = true ->
  ConvertOperatorFromString (toUpperCase name) = NA ->
  TryEvaluateExpression [] vars = None ->
  HamiltonianParsingUtil_tryParse s vars = Ret None.
Proof.
  intros Hsf HE Hstar Hname Halpha Hidx Hnum Hna Hempty.
  apply tryParse_by_operator_expression; [exact Hsf|].
  intros E -> self rest make. rewrite HE.
  assert (Hback : exists d, back (r ++ "*"%char :: name ++ idx) = Ret d /\ is_digit d = true).
  { destruct (exists_last Hidx) as (idx' & d & ->). exists d. split.
    - apply back_Ret. change ("*"%char :: name ++ idx' ++ [d]) with (("*"%char :: name) ++ idx' ++ [d]).
      rewrite !app_assoc. apply last_snoc.
    - unfold isNumberString in Hnum. rewrite forallb_app in Hnum.
      apply andb_true_iff in Hnum as [_ Hd]. simpl in Hd. rewrite andb_true_r in Hd. exact Hd. }
  destruct Hback as (d & -> & Hd). cbn [mbind result_bind].
  assert (Ascii.eqb d ")" = false) as ->.
  { apply Ascii.eqb_neq. intros ->. discriminate. }
  unfold parse_product. simpl collect_operators.
  rewrite (GetLastOperator_unknown r name idx Hstar Hname Halpha Hidx Hnum Hna).
  cbn [mbind result_bind]. rewrite Hempty. reflexivity.
Qed.


(** Brackets *)

Lemma balanced_from_skip (d : nat) (a b : str) :
  ("("%char ∉ a) -> (")"%char ∉ a) -> balanced_from d (a ++ b) = balanced_from d b.
Proof.
  induction a as [|x a IH]; intros Ho Hc; [reflexivity|].
  apply not_elem_of_cons in Ho as [Hxo Ho], Hc as [Hxc Hc]. simpl.
  rewrite !ascii_eqb_false by congruence. apply IH; assumption.
Qed.

Lemma balanced_from_group (d : nat) (a w rest : str) :
  ("("%char ∉ w) -> (")"%char ∉ w) ->
  balanced_from d (a ++ "("%char :: w ++ ")"%char :: rest) = balanced_from d (a ++ rest).
Proof.
  intros Ho Hc. revert d. induction a as [|x a IH]; intros d; simpl.
  - rewrite balanced_from_skip by assumption. reflexivity.
  - destruct (Ascii.eqb x "("); [apply IH|].
    destruct (Ascii.eqb x ")"); [destruct d; [reflexivity | apply IH] | apply IH].
Qed.

Lemma balanced_from_tail (d : nat) (a b : str) :
  ("("%char ∉ b) -> (")"%char ∉ b) -> balanced_from d (a ++ b) = balanced_from d a.
Proof.
  intros Ho Hc. revert d. induction a as [|x a IH]; intros d; simpl.
  - rewrite <- (app_nil_r b). rewrite balanced_from_skip by assumption. reflexivity.
  - destruct (Ascii.eqb x "("); [apply IH|].
    destruct (Ascii.eqb x ")"); [destruct d; [reflexivity | apply IH] | apply IH].
Qed.

Lemma channel_name_chars (b : str) (x : ascii) :
  channel_name (toUpperCase b) = true -> x ∈ b ->
  isalpha (toupper x) = true \/ is_digit (toupper x) = true.
Proof.
  unfold channel_name. intros Hchk Hin. apply negb_true_iff in Hchk.
  apply orb_false_iff in Hchk as [Hchk Hnum].
  apply orb_false_iff in Hchk as [_ Hhead].
  apply negb_false_iff in Hnum.
  assert (Hup : toupper x ∈ toUpperCase b).
  { unfold toUpperCase. apply list_elem_of_fmap. exists x. split; [reflexivity | exact Hin]. }
  destruct (toUpperCase b) as [|h t]; [inversion Hup|].
  simpl in Hnum, Hhead. rewrite drop_0 in Hnum.
  apply elem_of_cons in Hup as [Hx|Hup].
  - left. rewrite Hx. apply andb_false_iff in Hhead as [Hh|Hh]; apply negb_false_iff,
      bool_decide_eq_true in Hh; inversion Hh; reflexivity.
  - right. unfold isNumberString in Hnum. rewrite forallb_forall in Hnum.
    apply list_elem_of_In in Hup. apply Hnum in Hup. exact Hup.
Qed.

Lemma toupper_bracket (x : ascii) :
  isalpha (toupper x) = true \/ is_digit (toupper x) = true ->
  x <> "("%char /\ x <> ")"%char.
Proof.
  intros Hx. split; intros ->; destruct Hx as [Hx|Hx]; vm_compute in Hx; discriminate.
Qed.

Lemma channel_name_no_brackets (b : str) :
  channel_name (toUpperCase b) = true -> ("("%char ∉ b) /\ (")"%char ∉ b).
Proof.
  intros Hch. split; intros Hin;
    apply (channel_name_chars b _ Hch) in Hin; apply toupper_bracket in Hin as [? ?]; congruence.
Qed.


Lemma GetLastOperator_inv (s sub : str) (op : QubitOp) :
  GetLastOperator s = Ret (Some (op, sub)) ->
  exists f, s = sub ++ "*"%char :: f /\ ("("%char ∉ f) /\ (")"%char ∉ f).
Proof.
  unfold GetLastOperator.
  destruct (find_last_of "*" s) as [pos|] eqn:Hpos; [|discriminate].
  apply find_last_of_split in Hpos as (a & f & Hs & _ & Hp).
  destruct (split_at s a f "*" pos Hs Hp) as (Ht & Hd & _).
  replace (pos + 1)%nat with (S pos) by lia. rewrite Ht, Hd.
  destruct (list_find _ (toUpperCase f)) as [[k y]|] eqn:Hfind; [|discriminate].
  apply list_find_Some in Hfind as (Hk & _ & Hbefore).
  match goal with |- (if ?c then _ else _) = _ -> _ => destruct c; [discriminate|] end.
  destruct (isNumberString (drop k (toUpperCase f))) eqn:Hnum; [|discriminate].
  cbn [negb].
  destruct (stoi _) as [q|]; cbn [mbind result_bind]; [|discriminate].
  intros Heq. inversion Heq; subst sub. exists f. split; [exact Hs|].
  assert (Hall : forall x, x ∈ f -> isalpha (toupper x) = true \/ is_digit (toupper x) = true).
  { intros x Hx. apply list_elem_of_lookup in Hx as (j & Hj).
    assert (Hj' : toUpperCase f !! j = Some (toupper x)).
    { unfold toUpperCase. rewrite list_lookup_fmap, Hj. reflexivity. }
    destruct (decide (j < k)%nat) as [Hlt|Hge].
    - left. specialize (Hbefore j (toupper x) Hj' Hlt).
      destruct (isalpha (toupper x)); [reflexivity | exfalso; apply Hbefore; reflexivity].
    - right. unfold isNumberString in Hnum. rewrite forallb_forall in Hnum.
      apply Hnum. apply list_elem_of_In. apply list_elem_of_lookup. exists (j - k)%nat.
      rewrite lookup_drop. replace (k + (j - k))%nat with j by lia. exact Hj'. }
  split; intros Hin; apply Hall in Hin; apply toupper_bracket in Hin as [? ?]; congruence.
Qed.

Lemma collect_operators_remainder (fuel : nat) (tempStr rem : str) (ops ops' : list QubitOp)
    (r : str) :
  collect_operators fuel tempStr rem ops = Ret (ops', r) ->
  r = rem \/ exists tail, tempStr = r ++ tail /\ ("("%char ∉ tail) /\ (")"%char ∉ tail).
Proof.
  revert tempStr rem ops. induction fuel as [|fuel IH]; intros tempStr rem ops Hc; [discriminate|].
  simpl in Hc. destruct (GetLastOperator tempStr) as [[[op sub]|]|] eqn:Hg;
    cbn [mbind result_bind] in Hc; [| |discriminate].
  - apply GetLastOperator_inv in Hg as (f & Hs & Ho & Hcl).
    apply IH in Hc as [->|(tail & Hsub & Hto & Htc)]; right.
    + exists ("*"%char :: f). split; [exact Hs|]. split; absent.
    + exists (tail ++ "*"%char :: f). split; [rewrite Hs, Hsub, <- app_assoc; reflexivity|].
      split; absent.
  - inversion Hc; subst. left. reflexivity.
Qed.

Lemma parse_product_unbalanced (E : str) (make : double -> list QubitOp -> HamiltonianTerm)
    (vars : VarsMap) (t : HamiltonianTerm) :
  TryEvaluateExpression [] vars = None ->
  (forall e, balanced e = false -> TryEvaluateExpression e vars = None) ->
  balanced E = false ->
  parse_product E make vars <> Ret (Some t).
Proof.
  intros Hempty Hunbal HE. unfold parse_product.
  destruct (collect_operators _ _ _ _) as [[ops r]|] eqn:Hc; cbn [mbind result_bind]; [|discriminate].
  apply collect_operators_remainder in Hc as [->|(tail & -> & Ho & Hcl)].
  - rewrite Hempty. discriminate.
  - unfold balanced in HE. rewrite balanced_from_tail in HE by assumption.
    rewrite (Hunbal r HE). discriminate.
Qed.

Lemma parse_split_no_term (f : str -> result (option HamiltonianTerm)) (a b : str) :
  (forall t, f a <> Ret (Some t)) -> forall t, parse_split f a b <> Ret (Some t).
Proof.
  intros Hf t Hp. apply parse_split_inv in Hp as (t1 & t2 & H1 & H2 & Ht). exact (Hf t1 H1).
Qed.

Lemma TD_fuel_unbalanced (vars : VarsMap) (n : nat) (s : str) (t : HamiltonianTerm) :
  TryEvaluateExpression [] vars = None ->
  (forall e, balanced e = false -> TryEvaluateExpression e vars = None) ->
  balanced (removeWhiteSpaces s) = false ->
  HamiltonianTimeDependentTerm_fromString_fuel n vars s <> Ret (Some t).
Proof.
  intros Hempty Hunbal. revert s t. induction n as [|n IH]; intros s t Hb; [discriminate|].
  simpl. unfold HamiltonianTimeDependentTerm_fromString_body.
  pose proof (nospace_removeWhiteSpaces s) as Hns.
  set (exprStr := removeWhiteSpaces s) in *.
  destruct (find (lit "||") exprStr) as [sep|] eqn:Hfind; [|discriminate].
  apply find_split in Hfind as (a & b & Hs & ->).
  rewrite Hs. rewrite take_app_length, drop_app_length.
  replace (drop (length a + 2) (a ++ lit "||" ++ b)) with b.
  2:{ change (a ++ lit "||" ++ b) with (a ++ (lit "||" ++ b)). rewrite drop_app_add. reflexivity. }
  match goal with |- (if ?chk then _ else _) <> _ => destruct chk eqn:Hchk end; [discriminate|].
  assert (Hch : channel_name (toUpperCase b) = true) by (unfold channel_name; rewrite Hchk; reflexivity).
  destruct (channel_name_no_brackets b Hch) as [Hbo Hbc].
  assert (Hrest : ("("%char ∉ lit "||" ++ b) /\ (")"%char ∉ lit "||" ++ b)) by (split; absent).
  destruct Hrest as [Hro Hrc].
  assert (Ha : balanced a = false).
  { unfold balanced in *. rewrite Hs in Hb. rewrite balanced_from_tail in Hb by assumption. exact Hb. }
  destruct (back a) as [c|]; cbn [mbind result_bind]; [|discriminate].
  destruct (Ascii.eqb c ")").
  - destruct (UnwrapOpExpresion a) as [l|] eqn:Hu; cbn [mbind result_bind]; [|discriminate].
    destruct l as [|first [|second [|]]]; try discriminate.
    apply parse_split_no_term. intros t1. apply IH.
    rewrite Hs in Hns. apply nospace_app in Hns as [Hna Hnb].
    destruct (split_children_nospace _ _ _ Hu Hna) as [Hn1 _].
    rewrite removeWhiteSpaces_nospace by (apply nospace_app; split; assumption).
    apply UnwrapOpExpresion_inv in Hu
      as (coeff & e1 & pm & e2 & -> & Ho1 & Hc1 & Ho2 & Hc2 & Hpm & _ & _ & -> & _).
    unfold balanced in *. rewrite balanced_from_tail by assumption.
    rewrite balanced_from_tail by assumption.
    replace (coeff ++ "("%char :: e1 ++ pm :: e2 ++ [")"%char])
      with (coeff ++ "("%char :: (e1 ++ pm :: e2) ++ ")"%char :: []) in Ha
      by (rewrite <- app_assoc; reflexivity).
    rewrite balanced_from_group, app_nil_r in Ha; [exact Ha | |];
      destruct Hpm as [->| ->]; absent.
  - apply parse_product_unbalanced; assumption.
Qed.

Lemma TI_fuel_unbalanced (vars : VarsMap) (n : nat) (s : str) (t : HamiltonianTerm) :
  TryEvaluateExpression [] vars = None ->
  (forall e, balanced e = false -> TryEvaluateExpression e vars = None) ->
  balanced (removeWhiteSpaces s) = false ->
  HamiltonianTimeIndependentTerm_fromString_fuel n vars s <> Ret (Some t).
Proof.
  intros Hempty Hunbal. revert s t. induction n as [|n IH]; intros s t Hb; [discriminate|].
  simpl. unfold HamiltonianTimeIndependentTerm_fromString_body.
  pose proof (nospace_removeWhiteSpaces s) as Hns.
  set (exprStr := removeWhiteSpaces s) in *.
  destruct (find (lit "||") exprStr) as [sep|] eqn:Hfind; [discriminate|].
  destruct (back exprStr) as [c|]; cbn [mbind result_bind]; [|discriminate].
  destruct (Ascii.eqb c ")").
  - destruct (UnwrapOpExpresion exprStr) as [l|] eqn:Hu; cbn [mbind result_bind]; [|discriminate].
    destruct l as [|first [|second [|]]]; try discriminate.
    apply parse_split_no_term. intros t1. apply IH.
    destruct (split_children_nospace _ _ _ Hu Hns) as [Hn1 _].
    rewrite removeWhiteSpaces_nospace by assumption.
    apply UnwrapOpExpresion_inv in Hu
      as (coeff & e1 & pm & e2 & Hs & Ho1 & Hc1 & Ho2 & Hc2 & Hpm & _ & _ & -> & _).
    unfold balanced in *. rewrite balanced_from_tail by assumption.
    rewrite Hs in Hb.
    replace (coeff ++ "("%char :: e1 ++ pm :: e2 ++ [")"%char])
      with (coeff ++ "("%char :: (e1 ++ pm :: e2) ++ ")"%char :: []) in Hb
      by (rewrite <- app_assoc; reflexivity).
    rewrite balanced_from_group, app_nil_r in Hb; [exact Hb | |];
      destruct Hpm as [->| ->]; absent.
  - apply parse_product_unbalanced; assumption.
Qed.

Lemma unmatched_brackets_are_rejected (s : str) (vars : VarsMap) (t : HamiltonianTerm) :
  sum_form (removeWhiteSpaces s) = false ->
  balanced (removeWhiteSpaces s) = false ->
  TryEvaluateExpression [] vars = None ->
  (forall e, balanced e = false -> TryEvaluateExpression e vars = None) ->
  HamiltonianParsingUtil_tryParse s vars <> Ret (Some t).
Proof.
  intros Hsf Hb Hempty Hunbal. rewrite (tryParse_not_sum s vars Hsf).
  pose proof (fun t => TD_fuel_unbalanced vars (S (open_brackets (removeWhiteSpaces s))) s t
                         Hempty Hunbal Hb) as Htd.
  pose proof (fun t => TI_fuel_unbalanced vars (S (open_brackets (removeWhiteSpaces s))) s t
                         Hempty Hunbal Hb) as Hti.
  fold (HamiltonianTimeDependentTerm_fromString s vars) in Htd.
  fold (HamiltonianTimeIndependentTerm_fromString s vars) in Hti.
  destruct (HamiltonianTimeDependentTerm_fromString s vars) as [[t1|]|];
    cbn [mbind result_bind]; [exfalso; exact (Htd t1 eq_refl) | | discriminate].
  destruct (HamiltonianTimeIndependentTerm_fromString s vars) as [[t2|]|];
    cbn [mbind result_bind]; [exfalso; exact (Hti t2 eq_refl) | discriminate | discriminate].
Qed.


(** The step bounds are never reached *)

Lemma stoi_not_exhausted (s : str) : stoi s <> Raise fuel_exhausted.
Proof.
  unfold stoi. destruct s; [discriminate|].
  destruct (forallb _ _); [|discriminate]. destruct (_ <=? _); discriminate.
Qed.

Lemma GetLastOperator_shorter (s sub : str) (op : QubitOp) :
  GetLastOperator s = Ret (Some (op, sub)) -> (length sub < length s)%nat.
Proof.
  intros Hg. apply GetLastOperator_inv in Hg as (f & -> & _).
  rewrite length_app. simpl. lia.
Qed.

Lemma GetLastOperator_not_exhausted (s : str) : GetLastOperator s <> Raise fuel_exhausted.
Proof.
  unfold GetLastOperator. destruct (find_last_of "*" s) as [pos|]; [|discriminate].
  destruct (list_find _ _) as [[k y]|]; [|discriminate].
  match goal with |- (if ?c then _ else _) <> _ => destruct c; [discriminate|] end.
  destruct (negb _); [discriminate|].
  pose proof (stoi_not_exhausted (drop k (toUpperCase (drop (pos + 1) s)))) as Hs.
  destruct (stoi _) as [q|e]; cbn [mbind result_bind]; [discriminate|].
  intros Heq. apply Hs. inversion Heq. reflexivity.
Qed.

Lemma collect_operators_not_exhausted (fuel : nat) (tempStr rem : str) (ops : list QubitOp) :
  (length tempStr < fuel)%nat ->
  collect_operators fuel tempStr rem ops <> Raise fuel_exhausted.
Proof.
  revert tempStr rem ops. induction fuel as [|fuel IH]; intros tempStr rem ops Hlen; [lia|].
  simpl. pose proof (GetLastOperator_not_exhausted tempStr) as Hg.
  destruct (GetLastOperator tempStr) as [[[op sub]|]|e] eqn:Hgl; cbn [mbind result_bind].
  - apply IH. apply GetLastOperator_shorter in Hgl. lia.
  - discriminate.
  - intros Heq. apply Hg. inversion Heq. reflexivity.
Qed.

Lemma parse_product_not_exhausted (E : str) (make : double -> list QubitOp -> HamiltonianTerm)
    (vars : VarsMap) :
  parse_product E make vars <> Raise fuel_exhausted.
Proof.
  unfold parse_product.
  pose proof (collect_operators_not_exhausted (S (length E)) E [] [] (Nat.lt_succ_diag_r _)) as Hc.
  destruct (collect_operators _ _ _ _) as [[ops r]|e]; cbn [mbind result_bind].
  - destruct (TryEvaluateExpression r vars); discriminate.
  - intros Heq. apply Hc. inversion Heq. reflexivity.
Qed.

Lemma parse_split_not_exhausted (f : str -> result (option HamiltonianTerm)) (a b : str) :
  f a <> Raise fuel_exhausted -> f b <> Raise fuel_exhausted ->
  parse_split f a b <> Raise fuel_exhausted.
Proof.
  unfold parse_split. intros Ha Hb.
  destruct (f a) as [ra|ea]; cbn [mbind result_bind];
    [|intros Heq; apply Ha; inversion Heq; reflexivity].
  destruct (f b) as [rb|eb]; cbn [mbind result_bind];
    [|intros Heq; apply Hb; inversion Heq; reflexivity].
  destruct ra, rb; discriminate.
Qed.

Lemma UnwrapOpExpresion_not_exhausted (s : str) : UnwrapOpExpresion s <> Raise fuel_exhausted.
Proof.
  unfold UnwrapOpExpresion, back. destruct (last s); cbn [mbind result_bind]; [|discriminate].
  destruct (negb _); [discriminate|]. destruct (find_last_of _ _); [|discriminate].
  destruct (_ || _); [discriminate|].
  match goal with |- match ?p with _ => _ end <> _ => destruct p; discriminate end.
Qed.

Lemma TD_fuel_not_exhausted (vars : VarsMap) (n : nat) (s : str) :
  (open_brackets (removeWhiteSpaces s) < n)%nat ->
  HamiltonianTimeDependentTerm_fromString_fuel n vars s <> Raise fuel_exhausted.
Proof.
  revert s. induction n as [|n IH]; intros s Hn; [lia|].
  simpl. unfold HamiltonianTimeDependentTerm_fromString_body.
  pose proof (nospace_removeWhiteSpaces s) as Hns.
  set (exprStr := removeWhiteSpaces s) in *.
  destruct (find (lit "||") exprStr) as [sep|] eqn:Hfind; [|discriminate].
  match goal with |- (if ?c then _ else _) <> _ => destruct c; [discriminate|] end.
  unfold back. destruct (last (take sep exprStr)) as [b|]; cbn [mbind result_bind]; [|discriminate].
  destruct (Ascii.eqb b ")"); [|apply parse_product_not_exhausted].
  pose proof (UnwrapOpExpresion_not_exhausted (take sep exprStr)) as Hu.
  destruct (UnwrapOpExpresion (take sep exprStr)) as [l|e] eqn:Hue; cbn [mbind result_bind];
    [|intros Heq; apply Hu; inversion Heq; reflexivity].
  destruct l as [|first [|second [|]]]; try discriminate.
  assert (Hr : head (drop sep exprStr) <> Some "*"%char).
  { apply find_split in Hfind as (a & b' & Hs & ->). rewrite Hs.
    rewrite drop_app_length. discriminate. }
  destruct (split_children_smaller exprStr first second sep Hns Hue Hr) as [H1 H2].
  apply parse_split_not_exhausted; apply IH; lia.
Qed.

Lemma TI_fuel_not_exhausted (vars : VarsMap) (n : nat) (s : str) :
  (open_brackets (removeWhiteSpaces s) < n)%nat ->
  HamiltonianTimeIndependentTerm_fromString_fuel n vars s <> Raise fuel_exhausted.
Proof.
  revert s. induction n as [|n IH]; intros s Hn; [lia|].
  simpl. unfold HamiltonianTimeIndependentTerm_fromString_body.
  pose proof (nospace_removeWhiteSpaces s) as Hns.
  set (exprStr := removeWhiteSpaces s) in *.
  destruct (find (lit "||") exprStr) as [sep|] eqn:Hfind; [discriminate|].
  unfold back. destruct (last exprStr) as [b|]; cbn [mbind result_bind]; [|discriminate].
  destruct (Ascii.eqb b ")"); [|apply parse_product_not_exhausted].
  pose proof (UnwrapOpExpresion_not_exhausted exprStr) as Hu.
  destruct (UnwrapOpExpresion exprStr) as [l|e] eqn:Hue; cbn [mbind result_bind];
    [|intros Heq; apply Hu; inversion Heq; reflexivity].
  destruct l as [|first [|second [|]]]; try discriminate.
  assert (Hu' : UnwrapOpExpresion (take (length exprStr) exprStr) = Ret [first; second]).
  { rewrite firstn_all. exact Hue. }
  assert (Hr : head (drop (length exprStr) exprStr) <> Some "*"%char).
  { rewrite drop_all. discriminate. }
  destruct (split_children_smaller exprStr first second _ Hns Hu' Hr) as [H1 H2].
  rewrite drop_all, !app_nil_r in H1, H2.
  apply parse_split_not_exhausted; apply IH; lia.
Qed.

(** Both term parsers return or leave by an exception of the source. *)
Lemma term_parsers_terminate (s : str) (vars : VarsMap) :
  HamiltonianTimeDependentTerm_fromString s vars <> Raise fuel_exhausted /\
  HamiltonianTimeIndependentTerm_fromString s vars <> Raise fuel_exhausted.
Proof.
  split; [apply TD_fuel_not_exhausted | apply TI_fuel_not_exhausted]; lia.
Qed.

End Proofs.

Section Results.
Context `{Services}.

(** C4.  A text [c*(A pm B)||Ch], where [pm] is the first [+] of the
    bracket or, without any [+], its first [-], and [A], [B] hold no
    bracket, is parsed into the sum of the parse of [c*A||Ch] and the parse
    of [(pm 1.0)*c*B||Ch], in that order, and into no term when either has
    none: exactly two child terms, every leaf of which is time-dependent and
    bound to the channel [Ch] in upper case.  The sign of the second term
    is the factor [(+1.0)*] or [(-1.0)*] put before its text. *)
Theorem bracketed_sum_is_distributed (in_string c A B Ch : str) (pm : ascii) (vars : VarsMap) :
  removeWhiteSpaces in_string = c ++ lit "*(" ++ A ++ pm :: B ++ lit ")||" ++ Ch ->
  ("|"%char ∉ c) -> ("|"%char ∉ A) -> ("|"%char ∉ B) ->
  ("("%char ∉ A) -> (")"%char ∉ A) -> ("("%char ∉ B) -> (")"%char ∉ B) ->
  ("+"%char ∉ A) ->
  (pm = "+"%char \/ (pm = "-"%char /\ ("+"%char ∉ B) /\ ("-"%char ∉ A))) ->
  HamiltonianTimeDependentTerm_fromString in_string vars =
  (expr1 ← HamiltonianTimeDependentTerm_fromString
             (c ++ lit "*" ++ A ++ lit "||" ++ Ch) vars;
   expr2 ← HamiltonianTimeDependentTerm_fromString
             (lit "(" ++ pm :: lit "1.0)*" ++ c ++ lit "*" ++ B ++ lit "||" ++ Ch) vars;
   match expr1, expr2 with
   | Some expr1, Some expr2 => Ret (Some (HamiltonianSumTerm [expr1; expr2]))
   | _, _ => Ret None
   end) /\
  (forall t, HamiltonianTimeDependentTerm_fromString in_string vars = Ret (Some t) ->
     exists expr1 expr2,
       t = HamiltonianSumTerm [expr1; expr2] /\
       HamiltonianTimeDependentTerm_fromString
         (c ++ lit "*" ++ A ++ lit "||" ++ Ch) vars = Ret (Some expr1) /\
       HamiltonianTimeDependentTerm_fromString
         (lit "(" ++ pm :: lit "1.0)*" ++ c ++ lit "*" ++ B ++ lit "||" ++ Ch) vars
         = Ret (Some expr2) /\
       bound_to_channel (toUpperCase Ch) expr1 /\
       bound_to_channel (toUpperCase Ch) expr2).
Proof.
  intros Hin Hbc HbA HbB HoA HcA HoB HcB HpA Hpm.
  pose proof (distribution_equation in_string c A B Ch pm vars
                Hin Hbc HbA HbB HoA HcA HoB HcB HpA Hpm) as Heq.
  split; [exact Heq|].
  intros t Ht. rewrite Heq in Ht.
  assert (Hpmv : pm = "+"%char \/ pm = "-"%char) by (destruct Hpm as [?|[? _]]; auto).
  assert (Hpm1 : "|"%char <> pm) by (destruct Hpmv as [->| ->]; discriminate).
  assert (Hpm2 : isspace pm = false) by (destruct Hpmv as [->| ->]; reflexivity).
  pose proof (nospace_removeWhiteSpaces in_string) as Hns. rewrite Hin in Hns.
  apply nospace_app in Hns as [Hnc Hns]. apply nospace_app in Hns as [_ Hns].
  apply nospace_app in Hns as [HnA Hns]. apply nospace_cons in Hns as [_ Hns].
  apply nospace_app in Hns as [HnB Hns]. apply nospace_app in Hns as [_ HnCh].
  destruct (HamiltonianTimeDependentTerm_fromString (c ++ lit "*" ++ A ++ lit "||" ++ Ch) vars)
    as [[expr1|]|] eqn:H1; cbn [mbind result_bind] in Ht; try discriminate;
  destruct (HamiltonianTimeDependentTerm_fromString
              (lit "(" ++ pm :: lit "1.0)*" ++ c ++ lit "*" ++ B ++ lit "||" ++ Ch) vars)
    as [[expr2|]|] eqn:H2; cbn [mbind result_bind] in Ht; try discriminate.
  inversion Ht; subst t. exists expr1, expr2.
  split; [reflexivity|]. split; [reflexivity|]. split; [reflexivity|].
  assert (E1 : c ++ lit "*" ++ A ++ lit "||" ++ Ch = (c ++ lit "*" ++ A) ++ lit "||" ++ Ch)
    by (rewrite <- !app_assoc; reflexivity).
  assert (E2 : lit "(" ++ pm :: lit "1.0)*" ++ c ++ lit "*" ++ B ++ lit "||" ++ Ch
               = (lit "(" ++ pm :: lit "1.0)*" ++ c ++ lit "*" ++ B) ++ lit "||" ++ Ch)
    by (rewrite <- !app_assoc; simpl; rewrite <- !app_assoc; reflexivity).
  rewrite E1 in H1. rewrite E2 in H2.
  assert (Hn1 : nospace ((c ++ lit "*" ++ A) ++ lit "||" ++ Ch)) by spaceless.
  assert (Hn2 : nospace ((lit "(" ++ pm :: lit "1.0)*" ++ c ++ lit "*" ++ B) ++ lit "||" ++ Ch))
    by spaceless.
  assert (Hbar : "|"%char ∉ Ch).
  { assert (Hb1 : "|"%char ∉ c ++ lit "*" ++ A) by absent.
    pose proof H1 as H1'. rewrite (TD_on_separated _ Ch vars Hn1 Hb1) in H1'. cbv zeta in H1'.
    match type of H1' with (if ?chk then _ else _) = _ => destruct chk eqn:Hchk end;
      [discriminate|].
    apply channel_without_bar. exact Hchk. }
  split; [apply (TD_channel vars _ Ch expr1 Hn1 H1 Hbar) | apply (TD_channel vars _ Ch expr2 Hn2 H2 Hbar)].
Qed.

(** C8, as amended.  For an input that is not a [_SUM] macro, and an
    expression engine that refuses the empty text and every text with
    unmatched brackets: with unmatched brackets the parser yields no term
    (null, or the call leaves by an exception); with a bracket group at the
    end of the operator text that holds a closing bracket (a nested sum),
    with a last factor that is a name the operator table does not know
    followed by digits, or with a channel name that is not [D] or [U]
    followed by digits, the parser returns null. *)
Theorem malformed_terms_are_rejected (s : str) (vars : VarsMap) :
  sum_form (removeWhiteSpaces s) = false ->
  TryEvaluateExpression [] vars = None ->
  (forall e, balanced e = false -> TryEvaluateExpression e vars = None) ->
  (balanced (removeWhiteSpaces s) = false ->
   forall t, HamiltonianParsingUtil_tryParse s vars <> Ret (Some t)) /\
  (forall coeff w,
     operator_expression (removeWhiteSpaces s) = coeff ++ "("%char :: w ++ [")"%char] ->
     ("("%char ∉ w) -> (")"%char ∈ w) ->
     HamiltonianParsingUtil_tryParse s vars = Ret None) /\
  (forall r name idx,
     operator_expression (removeWhiteSpaces s) = r ++ "*"%char :: name ++ idx ->
     ("*"%char ∉ name ++ idx) -> name <> [] -> Forall (fun c => isalpha c = true) name ->
     idx <> [] -> isNumberString idx = true ->
     ConvertOperatorFromString (toUpperCase name) = NA ->
     HamiltonianParsingUtil_tryParse s vars = Ret None) /\
  (forall sep,
     find (lit "||") (removeWhiteSpaces s) = Some sep ->
     channel_name (toUpperCase (drop (sep + 2) (removeWhiteSpaces s))) = false ->
     HamiltonianParsingUtil_tryParse s vars = Ret None).
Proof.
  intros Hsf Hempty Hunbal. split; [|split; [|split]].
  - intros Hb t. apply unmatched_brackets_are_rejected; assumption.
  - intros coeff w HE Ho Hc. eapply nested_sum_is_rejected; eassumption.
  - intros r name idx HE Hstar Hname Halpha Hidx Hnum Hna.
    eapply unknown_operator_is_rejected; eassumption.
  - intros sep Hfind Hch. eapply malformed_channel_is_rejected; eassumption.
Qed.

End Results.

Import ReferenceServices.

(** *** The examples *)

Lemma reference_refuses_empty (vars : VarsMap) : TryEvaluateExpression [] vars = None.
Proof. reflexivity. Qed.

Lemma reference_refuses_unbalanced (vars : VarsMap) (e : str) :
  balanced e = false -> TryEvaluateExpression e vars = None.
Proof.
  intros He. unfold TryEvaluateExpression. simpl. unfold expression_value.
  rewrite He. rewrite orb_true_r. reflexivity.
Qed.


Lemma bracketed_sum_is_distributed_witness :
  HamiltonianTimeDependentTerm_fromString (lit "0.5*(X0-Y0)||D1") []
  = Ret (Some (HamiltonianSumTerm
                 [HamiltonianTimeDependentTerm (lit "D1") (1 # 2) [(op_X, 0)];
                  HamiltonianTimeDependentTerm (lit "D1") (-1 # 2) [(op_Y, 0)]])) /\
  HamiltonianTimeDependentTerm_fromString (lit "0.5*X0||D1") []
  = Ret (Some (HamiltonianTimeDependentTerm (lit "D1") (1 # 2) [(op_X, 0)])) /\
  HamiltonianTimeDependentTerm_fromString (lit "(-1.0)*0.5*Y0||D1") []
  = Ret (Some (HamiltonianTimeDependentTerm (lit "D1") (-1 # 2) [(op_Y, 0)])).
Proof.
  destruct (bracketed_sum_is_distributed (lit "0.5*(X0-Y0)||D1") (lit "0.5") (lit "X0")
              (lit "Y0") (lit "D1") "-"%char []) as [Heq _].
  - reflexivity.
  - absent.
  - absent.
  - absent.
  - absent.
  - absent.
  - absent.
  - absent.
  - absent.
  - right. split; [reflexivity|]. split; absent.
  - split; [|split]; [rewrite Heq | |]; reflexivity.
Defined.

Lemma degenerate_sum_is_rejected_witness :
  HamiltonianSumTerm_fromString (lit "_SUM[i,2,1,1.0*X{i}]") [] = Ret None /\
  HamiltonianSumTerm_fromString (lit "_SUM[i,0,1,1.0*X{i+1}]") [] = Ret None /\
  HamiltonianParsingUtil_tryParse (lit "1.0*X2") []
  = Ret (Some (HamiltonianTimeIndependentTerm 1 [(op_X, 2)])) /\
  HamiltonianParsingUtil_tryParse (lit "1.0*X1") []
  = Ret (Some (HamiltonianTimeIndependentTerm 1 [(op_X, 1)])).
Proof.
  split; [|split; [|split]].
  - apply (degenerate_sum_is_rejected (lit "_SUM[i,2,1,1.0*X{i}]") (lit "i") (lit "2")
             (lit "1") (lit "1.0*X{i}") []).
    + reflexivity.
    + absent.
    + absent.
    + absent.
    + left. vm_compute. split; [reflexivity | discriminate].
  - apply (degenerate_sum_is_rejected (lit "_SUM[i,0,1,1.0*X{i+1}]") (lit "i") (lit "0")
             (lit "1") (lit "1.0*X{i+1}") []).
    + reflexivity.
    + absent.
    + absent.
    + absent.
    + right. reflexivity.
  - reflexivity.
  - reflexivity.
Defined.

Lemma tryParse_json_hands_over_earlier_terms :
  HamiltonianParsingUtil_tryParse (lit "1.0*Q0") [] = Ret None /\
  HamiltonianParsingUtil_tryParse_json
    (json_object [json_string (lit "1.0*X0"); json_string (lit "1.0*Q0");
                  json_string (lit "1.0*Y0")] [])
    (fun t seen => seen ++ [t]) []
  = ([HamiltonianTimeIndependentTerm 1 [(op_X, 0)]], Ret false).
Proof. split; reflexivity. Qed.

Lemma tryParse_json_stops_at_first_failure_witness :
  HamiltonianParsingUtil_tryParse_json
    (json_object (map json_string [lit "1.0*X0"] ++ json_string (lit "1.0*Q0")
                    :: [json_string (lit "1.0*Y0")]) [])
    (fun t seen => seen ++ [t]) []
  = (fold_left (fun seen t => seen ++ [t]) [HamiltonianTimeIndependentTerm 1 [(op_X, 0)]] [],
     Ret false).
Proof.
  apply (@tryParse_json_stops_at_first_failure reference_services (list HamiltonianTerm)
           (fun t seen => seen ++ [t]) [] [] []
           [lit "1.0*X0"] [@HamiltonianTimeIndependentTerm reference_services 1 [(op_X, 0)]]
           (lit "1.0*Q0")
           [json_string (lit "1.0*Y0")]).
  - reflexivity.
  - repeat constructor.
  - reflexivity.
Defined.

Lemma bracket_in_template_is_accepted :
  balanced (removeWhiteSpaces (lit "_SUM[i,0,1,1.0*X{(i}*Y{i}]")) = false /\
  HamiltonianParsingUtil_tryParse (lit "_SUM[i,0,1,1.0*X{(i}*Y{i}]") []
  = Ret (Some (HamiltonianSumTerm
                 [HamiltonianTimeIndependentTerm 1 [(op_X, 0); (op_Y, 0)];
                  HamiltonianTimeIndependentTerm 1 [(op_X, 0); (op_Y, 1)]])) /\
  ConvertOperatorFromString (lit "Q") = NA /\
  HamiltonianParsingUtil_tryParse (lit "Q0*X1") [(lit "Q0", 1 # 2)%Q]
  = Ret (Some (HamiltonianTimeIndependentTerm (1 # 2) [(op_X, 1)])).
Proof. repeat split; reflexivity. Qed.

Lemma malformed_terms_are_rejected_witness :
  (forall t, HamiltonianParsingUtil_tryParse (lit "1.0*(X0+Y0") [] <> Ret (Some t)) /\
  HamiltonianParsingUtil_tryParse (lit "1.0*((X0+Y0)+Z0)") [] = Ret None /\
  HamiltonianParsingUtil_tryParse (lit "1.0*Q0") [] = Ret None /\
  HamiltonianParsingUtil_tryParse (lit "1.0*X0||Q1") [] = Ret None.
Proof.
  split; [|split; [|split]].
  - apply (malformed_terms_are_rejected (lit "1.0*(X0+Y0") []).
    + reflexivity.
    + apply reference_refuses_empty.
    + apply reference_refuses_unbalanced.
    + reflexivity.
  - destruct (malformed_terms_are_rejected (lit "1.0*((X0+Y0)+Z0)") [])
      as (_ & Hnested & _).
    + reflexivity.
    + apply reference_refuses_empty.
    + apply reference_refuses_unbalanced.
    + apply (Hnested (lit "1.0*(") (lit "X0+Y0)+Z0")); [reflexivity | absent |].
      vm_compute. do 5 apply list_elem_of_further. apply list_elem_of_here.
  - destruct (malformed_terms_are_rejected (lit "1.0*Q0") []) as (_ & _ & Hunknown & _).
    + reflexivity.
    + apply reference_refuses_empty.
    + apply reference_refuses_unbalanced.
    + apply (Hunknown (lit "1.0") (lit "Q") (lit "0")); try reflexivity; try discriminate.
      * absent.
      * repeat constructor.
  - destruct (malformed_terms_are_rejected (lit "1.0*X0||Q1") []) as (_ & _ & _ & Hchannel).
    + reflexivity.
    + apply reference_refuses_empty.
    + apply reference_refuses_unbalanced.
    + apply (Hchannel 6%nat); reflexivity.
Defined.

End HamiltonianProofs.

(** ** Further properties of [src/solver.c] *)

Module SolverCoverage.
Import Petsc Solver QubitKernel SolverNotions SolverProofs.

Ltac unfold_globals :=
  cbv beta iota zeta delta [set_full_A set_ham_A set_ham_stiff_A set_stab_added
    set_matrix_assembled set_print_dense_ham set_solve_A get_solve_A
    nid stab_added _lindblad_terms _print_dense_ham full_A
    total_levels ham_A ham_stiff_A _stiff_solver _num_time_dep _time_dep_list
    _num_quantum_gates _ts_monitor matrix_assembled print_dense_ham].

Lemma truthy_false (z : Z) : z = 0 -> truthy z = false.
Proof. intros ->. reflexivity. Qed.

Lemma truthy_cases (z : Z) : (z = 0 /\ truthy z = false) \/ (z <> 0 /\ truthy z = true).
Proof.
  unfold truthy. destruct (Z.eqb_spec z 0); [left|right]; split; auto.
Qed.

Section Coverage.
Context `{Kernel}.

(** The stabilization loop reads [total_levels] and [full_A] only. *)
Lemma stabilization_loop_reads (g g' : globals) (v : PetscScalar) :
  total_levels g' = total_levels g -> full_A g' = full_A g ->
  stabilization_loop g' v = stabilization_loop g v.
Proof. unfold stabilization_loop. intros -> ->. reflexivity. Qed.

Lemma stabilization_loop_get (g : globals) (v : PetscScalar) (r c : Z) :
  mat_get (stabilization_loop g v) r c =
  if decide (r = 0 /\ c ∈ map (fun i => i * (total_levels g + 1)) (loop_range 0 (total_levels g)))
  then Cadd (mat_get (full_A g) r c) v else mat_get (full_A g) r c.
Proof.
  unfold stabilization_loop.
  apply (fold_add_row0 (fun i => i * (total_levels g + 1))), stabilization_cols_NoDup.
Qed.

(** X1.  Without Lindblad terms [steady_state] ends in [exit(0)] on rank 0, with
    no variable written; on every other rank it goes on: it hands over a
    solver on [full_A] (not on [ham_A], which it leaves alone), the entries of
    [full_A] keep their values, the flag is set, and [b] and [x] are zero
    vectors. *)
Theorem steady_state_without_lindblad_terms (g : globals) (x : Vec) :
  _lindblad_terms g = 0 ->
  (nid g = 0 -> steady_state g x = Exit g) /\
  (nid g <> 0 ->
   exists g' ls,
     steady_state g x = Done g' ls /\
     ksp_operators (ls_ksp ls) = (full_A g', full_A g') /\
     (forall r c, mat_get (full_A g') r c = mat_get (full_A g) r c) /\
     ham_A g' = ham_A g /\
     stab_added g' <> 0 /\
     ls_b ls = replicate (Z.to_nat (total_levels g * total_levels g)) Czero /\
     ls_x ls = replicate (length x) Czero).
Proof.
  intros Hlin. destruct g as [nid0 D fA hA hsA lt ss ntd tdl nqg pdh mon sa ma].
  simpl in *. subst lt. split.
  - intros ->. reflexivity.
  - intros Hnid. apply Z.eqb_neq in Hnid.
    unfold steady_state. unfold_globals. change (truthy 0) with false. cbv iota.
    rewrite Hnid. cbv iota.
    destruct (truthy_cases sa) as [[-> Hsa]|[Hne Hsa]]; rewrite Hsa; cbv beta iota delta [negb];
      unfold_globals; rewrite ?Hnid; cbv iota; eexists _, _; (split; [reflexivity|]);
      cbn [ls_ksp ksp_operators full_A ham_A stab_added ls_b ls_x];
      (split; [reflexivity|]); (split; [intros; apply add_zero_diagonal_get|]);
      (split; [reflexivity|]); (split; [try discriminate; try assumption|]);
      unfold VecCreate, VecSet; rewrite ?length_replicate; split; reflexivity.
Qed.

(** X2.  With Lindblad terms [steady_state] returns, and what [x] held on
    entry is overwritten: [x] keeps its length and is zero except for 1 at
    index 0 on rank 0 (all zero on the other ranks); [b] is the same vector
    of length [D*D]; [matrix_assembled] is 1 and the flag is set. *)
Theorem steady_state_resets_the_guess (g : globals) (x : Vec) :
  _lindblad_terms g <> 0 ->
  exists g' ls,
    steady_state g x = Done g' ls /\
    ls_x ls = (if nid g =? 0 then <[0%nat := Cone]> (replicate (length x) Czero)
               else replicate (length x) Czero) /\
    ls_b ls = (if nid g =? 0
               then <[0%nat := Cone]> (replicate (Z.to_nat (total_levels g * total_levels g)) Czero)
               else replicate (Z.to_nat (total_levels g * total_levels g)) Czero) /\
    matrix_assembled g' = 1 /\
    stab_added g' <> 0.
Proof.
  intros Hlin. apply truthy_true in Hlin.
  destruct g as [nid0 D fA hA hsA lt ss ntd tdl nqg pdh mon sa ma].
  simpl in *. unfold steady_state. unfold_globals. rewrite Hlin. cbv iota.
  destruct (truthy_cases sa) as [[-> Hsa]|[Hne Hsa]]; rewrite Hsa; cbv beta iota delta [negb];
    unfold_globals; destruct (nid0 =? 0) eqn:Hnid; unfold_globals; rewrite ?Hnid;
    try (destruct (truthy pdh); unfold_globals; rewrite ?Hnid);
    cbv iota; eexists _, _; (split; [reflexivity|]);
    cbn [ls_x ls_b matrix_assembled stab_added];
    rewrite ?one_scalar; unfold VecCreate, VecSet, VecSetValue_INSERT;
    change (0 <? 0) with false; cbv iota; rewrite ?length_replicate;
    (split; [reflexivity|]); (split; [reflexivity|]); (split; [reflexivity|]);
    try discriminate; try assumption.
Qed.

(** X3.  With Lindblad terms, [steady_state] serves the request to print the
    dense Hamiltonian only inside the block that adds the stabilization: the
    request is cleared on rank 0 when the flag was clear on entry, and is
    left as it was in a call that finds the flag set, or on another rank. *)
Theorem steady_state_prints_with_stabilization (g : globals) (x : Vec) :
  _lindblad_terms g <> 0 ->
  exists g' ls,
    steady_state g x = Done g' ls /\
    _print_dense_ham g' =
      (if (stab_added g =? 0) && (nid g =? 0) then 0 else _print_dense_ham g).
Proof.
  intros Hlin. apply truthy_true in Hlin.
  destruct g as [nid0 D fA hA hsA lt ss ntd tdl nqg pdh mon sa ma].
  simpl in *. unfold steady_state. unfold_globals. rewrite Hlin. cbv iota.
  destruct (truthy_cases sa) as [[-> Hsa]|[Hne Hsa]]; rewrite Hsa; cbv beta iota delta [negb];
    unfold_globals; destruct (nid0 =? 0) eqn:Hnid; unfold_globals; rewrite ?Hnid;
    try (destruct (truthy_cases pdh) as [[-> Hp]|[Hpne Hp]]; rewrite Hp;
         unfold_globals; rewrite ?Hnid);
    cbv iota; eexists _, _; (split; [reflexivity|]); cbn [_print_dense_ham];
    try reflexivity;
    apply Z.eqb_neq in Hne; rewrite Hne; reflexivity.
Qed.

Lemma same_entries_refl (g : globals) : same_entries g g.
Proof. repeat split. Qed.

Lemma same_entries_trans (g1 g2 g3 : globals) :
  same_entries g1 g2 -> same_entries g2 g3 -> same_entries g1 g3.
Proof.
  intros (A1 & B1 & C1) (A2 & B2 & C2). repeat split; intros.
  - rewrite A2. apply A1.
  - rewrite B2. apply B1.
  - rewrite C2. apply C1.
Qed.

Lemma print_dense_ham_entries (g : globals) :
  full_A (print_dense_ham g) = full_A g /\ ham_A (print_dense_ham g) = ham_A g /\
  ham_stiff_A (print_dense_ham g) = ham_stiff_A g /\
  _print_dense_ham (print_dense_ham g) = 0.
Proof.
  unfold print_dense_ham.
  destruct (truthy_cases (_print_dense_ham g)) as [[Hz ->]|[Hz ->]]; repeat split; assumption.
Qed.

Lemma add_zero_diagonals_entries (h : solve_handle) (g : globals) :
  same_entries g (add_zero_diagonals h g) /\
  _print_dense_ham (add_zero_diagonals h g) = _print_dense_ham g.
Proof.
  unfold add_zero_diagonals. cbv zeta.
  destruct h; cbn [set_solve_A get_solve_A];
    destruct (truthy _); (split; [|reflexivity]); repeat split; intros; cbn;
    rewrite ?add_zero_diagonal_get; reflexivity.
Qed.

Lemma remove_stabilization_entries (g : globals) :
  full_A (remove_stabilization g) =
    (if truthy (stab_added g) && (nid g =? 0)
     then stabilization_loop g (Creal (-1)) else full_A g) /\
  ham_A (remove_stabilization g) = ham_A g /\
  ham_stiff_A (remove_stabilization g) = ham_stiff_A g /\
  _print_dense_ham (remove_stabilization g) = _print_dense_ham g.
Proof.
  unfold remove_stabilization. rewrite minus_one_scalar.
  destruct (truthy (stab_added g)); [|repeat split].
  destruct (nid g =? 0); repeat split.
Qed.

(** [time_step] past its head, as one equation: the variables it leaves
    and the stepper it hands over. *)
Lemma integrate_shape (h : solve_handle) (g : globals) (x : Vec) (time_max dt : PetscReal)
    (steps_max : Z) :
  exists g' jac ijac,
    integrate h g x time_max dt steps_max =
      Done g' (mkIntegration
                 (mkTS (_ts_monitor g) (truthy (_stiff_solver g)) jac ijac
                    (0%Qc, dt) (steps_max, time_max)
                    (if truthy (_stiff_solver g) then TSROSW else TSRK_3BS)
                    (set_event_handlers g) None) x) /\
    same_flags g g' /\
    _print_dense_ham g' = (if nid g =? 0 then 0 else _print_dense_ham g) /\
    (truthy (_num_time_dep g) = true ->
     jac = RHS_time_dep_ham (get_solve_A h g') /\ ijac = None) /\
    (truthy (_num_time_dep g) = false ->
     jac = TSComputeRHSJacobianConstant (get_solve_A h g') /\
     ijac = (if truthy (_stiff_solver g) then Some (ham_stiff_A g') else None) /\
     (forall r c,
        mat_get (full_A g') r c =
        mat_get (if truthy (stab_added g) && (nid g =? 0)
                 then stabilization_loop g (Creal (-1)) else full_A g) r c) /\
     (forall r c, mat_get (ham_A g') r c = mat_get (ham_A g) r c) /\
     (forall r c, mat_get (ham_stiff_A g') r c = mat_get (ham_stiff_A g) r c)).
Proof.
  unfold integrate. cbv zeta.
  set (g1 := if nid g =? 0 then print_dense_ham g else g).
  assert (F1 : same_flags g g1).
  { unfold g1. destruct (nid g =? 0); [apply same_flags_print_dense_ham | apply same_flags_refl]. }
  assert (E1 : full_A g1 = full_A g /\ ham_A g1 = ham_A g /\ ham_stiff_A g1 = ham_stiff_A g /\
               _print_dense_ham g1 = (if nid g =? 0 then 0 else _print_dense_ham g)).
  { unfold g1. destruct (nid g =? 0); [apply print_dense_ham_entries | repeat split]. }
  set (g2 := remove_stabilization g1).
  pose proof (same_flags_remove_stabilization g1) as F2. fold g2 in F2.
  pose proof (remove_stabilization_entries g1) as E2. fold g2 in E2.
  set (g3 := add_zero_diagonals h g2).
  pose proof (same_flags_add_zero_diagonals h g2) as F3. fold g3 in F3.
  pose proof (add_zero_diagonals_entries h g2) as [E3 P3]. fold g3 in E3, P3.
  pose proof (same_flags_set_jacobians h g3) as F4.
  assert (F13 : same_flags g g3).
  { eapply same_flags_trans; [exact F1|]. eapply same_flags_trans; [exact F2 | exact F3]. }
  assert (Hn3 : _num_time_dep g3 = _num_time_dep g) by apply F13.
  assert (Hs3 : _stiff_solver g3 = _stiff_solver g) by apply F13.
  unfold set_jacobians in *. rewrite Hn3, Hs3 in *.
  destruct (truthy (_num_time_dep g)) eqn:Hntd.
  - cbn [fst snd] in F4.
    set (g4 := set_solve_A h g3 (register_time_dep_pattern g3 (get_solve_A h g3))) in *.
    assert (F14 : same_flags g g4) by (eapply same_flags_trans; [exact F13 | exact F4]).
    exists g4, (RHS_time_dep_ham (MatDuplicate (get_solve_A h g4))), None.
    split.
    { destruct F14 as (_ & _ & Hl & Hs & _ & _ & Hq & Hm & _).
      unfold set_event_handlers. rewrite Hl, Hs, Hq, Hm. reflexivity. }
    split; [exact F14|]. split.
    { destruct E1 as (_ & _ & _ & <-). destruct E2 as (_ & _ & _ & <-). rewrite <- P3.
      unfold g4. destruct h; reflexivity. }
    split; [intros _; split; reflexivity | discriminate].
  - exists g3, (TSComputeRHSJacobianConstant (get_solve_A h g3)),
      (if truthy (_stiff_solver g) then Some (ham_stiff_A g3) else None).
    split.
    { destruct F13 as (_ & _ & Hl & Hs & _ & _ & Hq & Hm & _).
      unfold set_event_handlers. rewrite Hl, Hs, Hq, Hm. reflexivity. }
    split; [exact F13|]. split.
    { destruct E1 as (_ & _ & _ & <-). destruct E2 as (_ & _ & _ & <-). exact P3. }
    split; [discriminate|]. intros _. split; [reflexivity|]. split; [reflexivity|].
    destruct E3 as (A3 & B3 & C3). destruct E2 as (A2 & B2 & C2 & _).
    destruct E1 as (A1 & B1 & C1 & _).
    assert (Hsa : stab_added g1 = stab_added g) by apply F1.
    assert (Hni : nid g1 = nid g) by apply F1.
    assert (HD : total_levels g1 = total_levels g) by apply F1.
    repeat split; intros r c.
    + rewrite A3, A2, Hsa, Hni.
      rewrite (stabilization_loop_reads g g1 (Creal (-1)) HD A1), A1. reflexivity.
    + rewrite B3, B2, B1. reflexivity.
    + rewrite C3, C2, C1. reflexivity.
Qed.

(** When [time_step] goes past its head, and on which matrix. *)
Lemma time_step_integrates (g : globals) (x : Vec) (time_max dt : PetscReal) (steps_max : Z) :
  _stiff_solver g = 0 \/ (_lindblad_terms g = 0 /\ _num_time_dep g = 0) ->
  time_step g x time_max dt steps_max =
  integrate (if truthy (_lindblad_terms g) then on_full_A else on_ham_A)
    g x time_max dt steps_max.
Proof.
  intros Hreach. unfold time_step.
  destruct (truthy_cases (_lindblad_terms g)) as [[Hl Hl']|[Hl Hl']];
    destruct (truthy_cases (_stiff_solver g)) as [[Hs Hs']|[Hs Hs']];
    destruct (truthy_cases (_num_time_dep g)) as [[Hn Hn']|[Hn Hn']];
    rewrite ?Hl', ?Hs', ?Hn'; cbn [andb]; try reflexivity;
    exfalso; destruct Hreach as [?|[? ?]]; congruence.
Qed.

(** X4.  Every call of [time_step] without the stiff solver, and every call
    with it that has neither Lindblad nor time-dependent terms, reaches the
    integration with: [x] as passed, the initial time 0 and step [dt], the
    duration [(steps_max, time_max)], the monitor set exactly when one is
    registered; type RK3BS with no implicit function or Jacobian for the
    explicit solver; type ROSW with the implicit function and [ham_stiff_A]
    as implicit Jacobian and [ham_A] as constant Jacobian for the stiff one;
    the callback on a copy of [solve_A] when there are time-dependent terms
    and the constant Jacobian [solve_A] when there are none, where [solve_A]
    is [full_A] with Lindblad terms and [ham_A] without. *)
Theorem time_step_configures_the_stepper (g : globals) (x : Vec) (time_max dt : PetscReal)
    (steps_max : Z) :
  _stiff_solver g = 0 \/ (_lindblad_terms g = 0 /\ _num_time_dep g = 0) ->
  exists g' r,
    time_step g x time_max dt steps_max = Done g' r /\
    in_x r = x /\
    ts_initial_step (in_ts r) = (0%Qc, dt) /\
    ts_duration (in_ts r) = (steps_max, time_max) /\
    ts_monitor_set (in_ts r) = _ts_monitor g /\
    (_stiff_solver g = 0 ->
     ts_type (in_ts r) = TSRK_3BS /\ ts_ifunction_set (in_ts r) = false /\
     ts_ijacobian (in_ts r) = None) /\
    (_stiff_solver g <> 0 ->
     ts_type (in_ts r) = TSROSW /\ ts_ifunction_set (in_ts r) = true /\
     ts_ijacobian (in_ts r) = Some (ham_stiff_A g') /\
     ts_rhs_jacobian (in_ts r) = TSComputeRHSJacobianConstant (ham_A g')) /\
    (_num_time_dep g <> 0 ->
     ts_rhs_jacobian (in_ts r) =
     RHS_time_dep_ham (if truthy (_lindblad_terms g) then full_A g' else ham_A g')) /\
    (_num_time_dep g = 0 ->
     ts_rhs_jacobian (in_ts r) =
     TSComputeRHSJacobianConstant
       (if truthy (_lindblad_terms g) then full_A g' else ham_A g')).
Proof.
  intros Hreach. rewrite (time_step_integrates g x time_max dt steps_max Hreach).
  destruct (integrate_shape (if truthy (_lindblad_terms g) then on_full_A else on_ham_A)
              g x time_max dt steps_max)
    as (g' & jac & ijac & -> & _ & _ & Htd & Hconst).
  exists g'. eexists. split; [reflexivity|]. cbn.
  do 4 (split; [reflexivity|]).
  split; [|split; [|split]].
  - intros Hs. rewrite (truthy_false _ Hs). split; [reflexivity|]. split; [reflexivity|].
    destruct (truthy_cases (_num_time_dep g)) as [[Hn Hn']|[Hn Hn']].
    + destruct (Hconst Hn') as (_ & -> & _). rewrite (truthy_false _ Hs). reflexivity.
    + apply (Htd Hn').
  - intros Hs. rewrite (truthy_true _ Hs). split; [reflexivity|]. split; [reflexivity|].
    destruct Hreach as [?|[Hl Hn]]; [congruence|].
    rewrite (truthy_true _ Hs) in Hconst.
    destruct (Hconst (truthy_false _ Hn)) as (-> & -> & _).
    rewrite (truthy_false _ Hl). split; reflexivity.
  - intros Hn. destruct (Htd (truthy_true _ Hn)) as [-> _].
    destruct (truthy (_lindblad_terms g)); reflexivity.
  - intros Hn. destruct (Hconst (truthy_false _ Hn)) as [-> _].
    destruct (truthy (_lindblad_terms g)); reflexivity.
Qed.

(** X5.  Without time-dependent terms, and with no stabilization to remove
    on this rank, a call of [time_step] that reaches the integration leaves
    every entry of [full_A], [ham_A] and [ham_stiff_A] at its value: what it
    adds to the diagonals is zero. *)
Theorem time_step_keeps_the_matrices (g : globals) (x : Vec) (time_max dt : PetscReal)
    (steps_max : Z) :
  _num_time_dep g = 0 ->
  _stiff_solver g = 0 \/ _lindblad_terms g = 0 ->
  stab_added g = 0 \/ nid g <> 0 ->
  exists g' r,
    time_step g x time_max dt steps_max = Done g' r /\
    (forall row col, mat_get (full_A g') row col = mat_get (full_A g) row col) /\
    (forall row col, mat_get (ham_A g') row col = mat_get (ham_A g) row col) /\
    (forall row col, mat_get (ham_stiff_A g') row col = mat_get (ham_stiff_A g) row col).
Proof.
  intros Hn Hmode Hstab.
  assert (Hreach : _stiff_solver g = 0 \/ (_lindblad_terms g = 0 /\ _num_time_dep g = 0))
    by (destruct Hmode; auto).
  rewrite (time_step_integrates g x time_max dt steps_max Hreach).
  destruct (integrate_shape (if truthy (_lindblad_terms g) then on_full_A else on_ham_A)
              g x time_max dt steps_max)
    as (g' & jac & ijac & -> & _ & _ & _ & Hconst).
  destruct (Hconst (truthy_false _ Hn)) as (_ & _ & HA & HB & HC).
  exists g'. eexists. split; [reflexivity|]. split; [|split; assumption].
  intros row col. rewrite HA.
  destruct Hstab as [Hs|Hnid].
  - rewrite (truthy_false _ Hs). reflexivity.
  - apply Z.eqb_neq in Hnid. rewrite Hnid, andb_false_r. reflexivity.
Qed.

(** X6.  On rank 0, every call of [time_step] that finds the flag set and
    reaches the integration (here without time-dependent terms, in either
    mode) lowers row 0 of [full_A] by 1.0 at every column [i*(D+1)],
    [0 <= i < D], leaves every other entry of [full_A] at its value, and
    leaves the flag as it found it. *)
Theorem time_step_subtracts_while_the_flag_is_set (g : globals) (x : Vec)
    (time_max dt : PetscReal) (steps_max : Z) :
  nid g = 0 -> stab_added g <> 0 ->
  _num_time_dep g = 0 -> _stiff_solver g = 0 \/ _lindblad_terms g = 0 ->
  exists g' r,
    time_step g x time_max dt steps_max = Done g' r /\
    stab_added g' = stab_added g /\
    (forall i, 0 <= i < total_levels g ->
       mat_get (full_A g') 0 (i * (total_levels g + 1)) =
       Cadd (mat_get (full_A g) 0 (i * (total_levels g + 1))) (Creal (-1))) /\
    (forall row col,
       (row <> 0 \/ forall i, 0 <= i < total_levels g -> col <> i * (total_levels g + 1)) ->
       mat_get (full_A g') row col = mat_get (full_A g) row col).
Proof.
  intros Hnid Hstab Hn Hmode.
  assert (Hreach : _stiff_solver g = 0 \/ (_lindblad_terms g = 0 /\ _num_time_dep g = 0))
    by (destruct Hmode; auto).
  rewrite (time_step_integrates g x time_max dt steps_max Hreach).
  destruct (integrate_shape (if truthy (_lindblad_terms g) then on_full_A else on_ham_A)
              g x time_max dt steps_max)
    as (g' & jac & ijac & -> & Hf & _ & _ & Hconst).
  destruct (Hconst (truthy_false _ Hn)) as (_ & _ & HA & _).
  rewrite (truthy_true _ Hstab), Hnid in HA. cbn [andb Z.eqb] in HA.
  exists g'. eexists. split; [reflexivity|]. split; [apply Hf|]. split.
  - intros i Hi. rewrite HA. apply stabilization_loop_hit, Hi.
  - intros row col Hmiss. rewrite HA, stabilization_loop_get.
    rewrite decide_False; [reflexivity|]. intros [-> Hin].
    apply list_elem_of_fmap in Hin as (i & -> & Hi%elem_of_loop_range).
    destruct Hmiss as [Hr|Hc]; [by apply Hr|]. apply (Hc i); lia.
Qed.


(** X8.  In every call of [time_step] that reaches the integration the calls
    to [TSSetEventHandler] are, in this order: the gate event (one event,
    direction -1, no termination) exactly when [_num_quantum_gates > 0], then
    the normalization event exactly when there are Lindblad terms; none
    otherwise. *)
Theorem time_step_sets_the_gate_event (g : globals) (x : Vec) (time_max dt : PetscReal)
    (steps_max : Z) :
  _stiff_solver g = 0 \/ (_lindblad_terms g = 0 /\ _num_time_dep g = 0) ->
  exists g' r,
    time_step g x time_max dt steps_max = Done g' r /\
    ts_event_handlers (in_ts r) =
      (if 0 <? _num_quantum_gates g
       then [mkEventHandler 1 (-1) false QG_EventFunction QG_PostEventFunction] else []) ++
      (if _lindblad_terms g =? 0
       then [] else [mkEventHandler 1 0 false Normalize_EventFunction Normalize_PostEventFunction]).
Proof.
  intros Hreach. rewrite (time_step_integrates g x time_max dt steps_max Hreach).
  destruct (integrate_shape (if truthy (_lindblad_terms g) then on_full_A else on_ham_A)
              g x time_max dt steps_max)
    as (g' & jac & ijac & -> & _).
  exists g'. eexists. split; [reflexivity|]. cbn. unfold set_event_handlers, truthy.
  destruct (_lindblad_terms g =? 0); reflexivity.
Qed.

(** X9.  However [time_step] ends, it has written none of [nid],
    [total_levels], [_lindblad_terms], [_stiff_solver], [_num_time_dep],
    [_time_dep_list], [_num_quantum_gates], [_ts_monitor], [stab_added] and
    [matrix_assembled]; and on a rank other than 0 the request to print the
    dense Hamiltonian is as it was. *)
Theorem time_step_never_writes_the_flags (g : globals) (x : Vec) (time_max dt : PetscReal)
    (steps_max : Z) :
  same_flags g (globals_after (time_step g x time_max dt steps_max)) /\
  (nid g <> 0 ->
   _print_dense_ham (globals_after (time_step g x time_max dt steps_max))
   = _print_dense_ham g).
Proof.
  destruct (time_step_cases g x time_max dt steps_max)
    as [(-> & _)|(g' & r & Heq & Hf & _)].
  - split; [apply same_flags_refl | reflexivity].
  - rewrite Heq. split; [exact Hf|]. intros Hnid. cbn.
    assert (Hreach : _stiff_solver g = 0 \/ (_lindblad_terms g = 0 /\ _num_time_dep g = 0)).
    { unfold time_step in Heq.
      destruct (truthy_cases (_lindblad_terms g)) as [[Hl Hl']|[Hl Hl']];
        destruct (truthy_cases (_stiff_solver g)) as [[Hs Hs']|[Hs Hs']];
        destruct (truthy_cases (_num_time_dep g)) as [[Hn Hn']|[Hn Hn']];
        rewrite ?Hl', ?Hs', ?Hn' in Heq; cbn [andb] in Heq; auto; discriminate. }
    rewrite (time_step_integrates g x time_max dt steps_max Hreach) in Heq.
    destruct (integrate_shape (if truthy (_lindblad_terms g) then on_full_A else on_ham_A)
                g x time_max dt steps_max)
      as (g2 & jac & ijac & Heq2 & _ & Hp & _).
    rewrite Heq2 in Heq. inversion Heq; subst g'.
    apply Z.eqb_neq in Hnid. rewrite Hnid in Hp. exact Hp.
Qed.

(** X10.  The matrix [_RHS_time_dep_ham] builds depends on the matrix it is
    given through its non-zero pattern only, and not on the state vector:
    two calls at the same time on matrices with the same stored positions
    give the same matrix, whatever values those held and whatever [X] is. *)
Theorem rebuild_starts_from_scratch (g : globals) (t : PetscReal) (X X' : Vec) (BB BB' : Mat) :
  dom BB = dom BB' ->
  _RHS_time_dep_ham g t X BB = _RHS_time_dep_ham g t X' BB'.
Proof.
  intros Hdom. unfold _RHS_time_dep_ham. cbv zeta.
  replace (MatCopy (full_A g) (MatZeroEntries BB'))
    with (MatCopy (full_A g) (MatZeroEntries BB)); [reflexivity|].
  unfold MatCopy, MatZeroEntries. f_equal. apply map_eq. intros k.
  rewrite !lookup_fmap.
  destruct (BB !! k) as [v|] eqn:Hk, (BB' !! k) as [v'|] eqn:Hk'; try reflexivity; exfalso.
  - apply (not_elem_of_dom (D := gset (Z * Z))) in Hk'. apply Hk'. rewrite <- Hdom.
    apply elem_of_dom. eauto.
  - apply (not_elem_of_dom (D := gset (Z * Z))) in Hk. apply Hk. rewrite Hdom.
    apply elem_of_dom. eauto.
Qed.

(** X11.  A monitor registered with [set_ts_monitor] is given to
    [TSMonitorSet] by every later call of [time_step] that reaches the
    integration, no monitor is set when the pointer registered is [NULL], and
    the registration is still there when the call returns. *)
Theorem registered_monitor_is_passed_on (g : globals) (monitor : bool) (x : Vec)
    (time_max dt : PetscReal) (steps_max : Z) :
  _stiff_solver g = 0 \/ (_lindblad_terms g = 0 /\ _num_time_dep g = 0) ->
  exists g' r,
    time_step (set_ts_monitor g monitor) x time_max dt steps_max = Done g' r /\
    ts_monitor_set (in_ts r) = monitor /\
    _ts_monitor g' = monitor.
Proof.
  intros Hreach.
  assert (Hreach' : _stiff_solver (set_ts_monitor g monitor) = 0 \/
                    (_lindblad_terms (set_ts_monitor g monitor) = 0 /\
                     _num_time_dep (set_ts_monitor g monitor) = 0)) by exact Hreach.
  rewrite (time_step_integrates _ x time_max dt steps_max Hreach').
  destruct (integrate_shape
              (if truthy (_lindblad_terms (set_ts_monitor g monitor))
               then on_full_A else on_ham_A)
              (set_ts_monitor g monitor) x time_max dt steps_max)
    as (g' & jac & ijac & -> & Hf & _).
  exists g'. eexists. split; [reflexivity|]. split; [reflexivity|].
  destruct Hf as (_ & _ & _ & _ & _ & _ & _ & Hm & _). exact Hm.
Qed.

End Coverage.

(** *** The examples *)

Lemma steady_state_without_lindblad_terms_witness :
  steady_state driven_qubit (VecCreate 2) = Exit driven_qubit.
Proof.
  destruct (steady_state_without_lindblad_terms driven_qubit (VecCreate 2)) as [Hexit _].
  - reflexivity.
  - apply Hexit. reflexivity.
Defined.

Lemma steady_state_resets_the_guess_witness :
  exists g' ls,
    steady_state lindblad_qubit [PETSC_i; PETSC_i; PETSC_i; PETSC_i] = Done g' ls /\
    ls_x ls = [Cone; Czero; Czero; Czero] /\
    ls_b ls = [Cone; Czero; Czero; Czero] /\
    matrix_assembled g' = 1 /\ stab_added g' <> 0.
Proof.
  apply (steady_state_resets_the_guess lindblad_qubit [PETSC_i; PETSC_i; PETSC_i; PETSC_i]).
  discriminate.
Defined.

Lemma steady_state_prints_with_stabilization_witness :
  exists g' ls,
    steady_state after_steady_state (VecCreate 4) = Done g' ls /\
    _print_dense_ham g' = _print_dense_ham after_steady_state.
Proof.
  apply (steady_state_prints_with_stabilization after_steady_state (VecCreate 4)).
  discriminate.
Defined.

Lemma time_step_configures_the_stepper_witness :
  exists g' r,
    time_step lindblad_qubit (VecCreate 4) (Q2Qc 8) (Q2Qc (1 # 100)) 1000 = Done g' r /\
    in_x r = VecCreate 4 /\
    ts_initial_step (in_ts r) = (0%Qc, Q2Qc (1 # 100)) /\
    ts_duration (in_ts r) = (1000, (Q2Qc 8)) /\
    ts_monitor_set (in_ts r) = false /\
    ts_type (in_ts r) = TSRK_3BS /\
    ts_rhs_jacobian (in_ts r) = TSComputeRHSJacobianConstant (full_A g').
Proof.
  destruct (time_step_configures_the_stepper lindblad_qubit (VecCreate 4) (Q2Qc 8)
              (Q2Qc (1 # 100)) 1000)
    as (g' & r & Hrun & Hx & Hstep & Hdur & Hmon & Hexplicit & _ & _ & Hconst).
  - left. reflexivity.
  - exists g', r. repeat split; try assumption.
    + apply Hexplicit. reflexivity.
    + apply Hconst. reflexivity.
Defined.

Lemma time_step_keeps_the_matrices_witness :
  exists g' r,
    time_step lindblad_qubit (VecCreate 4) 1%Qc 1%Qc 10 = Done g' r /\
    (forall row col, mat_get (full_A g') row col = mat_get (full_A lindblad_qubit) row col) /\
    (forall row col, mat_get (ham_A g') row col = mat_get (ham_A lindblad_qubit) row col) /\
    (forall row col,
       mat_get (ham_stiff_A g') row col = mat_get (ham_stiff_A lindblad_qubit) row col).
Proof.
  apply (time_step_keeps_the_matrices lindblad_qubit (VecCreate 4) 1%Qc 1%Qc 10).
  - reflexivity.
  - left. reflexivity.
  - left. reflexivity.
Defined.

Lemma time_step_subtracts_while_the_flag_is_set_witness :
  exists g' r,
    time_step after_first_time_step (VecCreate 4) 1%Qc 1%Qc 10 = Done g' r /\
    stab_added g' = stab_added after_first_time_step /\
    mat_get (full_A g') 0 3 = Cadd (mat_get (full_A after_first_time_step) 0 3) (Creal (-1)).
Proof.
  destruct (time_step_subtracts_while_the_flag_is_set after_first_time_step (VecCreate 4)
              1%Qc 1%Qc 10)
    as (g' & r & Hrun & Hflag & Hrow & _).
  - reflexivity.
  - discriminate.
  - reflexivity.
  - left. reflexivity.
  - exists g', r. split; [exact Hrun|]. split; [exact Hflag|].
    apply (Hrow 1). split; [discriminate | reflexivity].
Defined.


Lemma time_step_sets_the_gate_event_witness :
  exists g' r,
    time_step driven_qubit (VecCreate 2) 1%Qc 1%Qc 10 = Done g' r /\
    ts_event_handlers (in_ts r) = [].
Proof.
  apply (time_step_sets_the_gate_event driven_qubit (VecCreate 2) 1%Qc 1%Qc 10).
  left. reflexivity.
Defined.

Lemma rebuild_starts_from_scratch_witness :
  _RHS_time_dep_ham driven_decaying_qubit 1%Qc (VecCreate 4) {[ (0, 0) := Cone ]}
  = _RHS_time_dep_ham driven_decaying_qubit 1%Qc [Cone; Czero; Czero; Czero]
      {[ (0, 0) := PETSC_i ]}.
Proof.
  apply (rebuild_starts_from_scratch driven_decaying_qubit 1%Qc).
  vm_compute. reflexivity.
Defined.

Lemma registered_monitor_is_passed_on_witness :
  exists g' r,
    time_step (set_ts_monitor lindblad_qubit true) (VecCreate 4) 1%Qc 1%Qc 10 = Done g' r /\
    ts_monitor_set (in_ts r) = true /\
    _ts_monitor g' = true.
Proof.
  apply (registered_monitor_is_passed_on lindblad_qubit true (VecCreate 4) 1%Qc 1%Qc 10).
  left. reflexivity.
Defined.

End SolverCoverage.

(** ** Further properties of the parser *)

Module HamiltonianCoverage.
Import Hamiltonian HamiltonianNotions HamiltonianProofs.

Section Coverage.
Context `{Services}.

(** X12.  Two texts that are equal once their white space is removed are
    parsed alike by each of the three term parsers and by [tryParse]: white
    space counts nowhere, not even inside a number or a name. *)
Theorem white_space_is_ignored (s s' : str) (vars : VarsMap) :
  removeWhiteSpaces s = removeWhiteSpaces s' ->
  HamiltonianSumTerm_fromString s vars = HamiltonianSumTerm_fromString s' vars /\
  HamiltonianTimeDependentTerm_fromString s vars
    = HamiltonianTimeDependentTerm_fromString s' vars /\
  HamiltonianTimeIndependentTerm_fromString s vars
    = HamiltonianTimeIndependentTerm_fromString s' vars /\
  HamiltonianParsingUtil_tryParse s vars = HamiltonianParsingUtil_tryParse s' vars.
Proof.
  intros Heq.
  assert (HS : HamiltonianSumTerm_fromString s vars = HamiltonianSumTerm_fromString s' vars).
  { unfold HamiltonianSumTerm_fromString. rewrite Heq. reflexivity. }
  assert (HD : HamiltonianTimeDependentTerm_fromString s vars
               = HamiltonianTimeDependentTerm_fromString s' vars).
  { rewrite !HamiltonianTimeDependentTerm_fromString_unfold.
    unfold HamiltonianTimeDependentTerm_fromString_body. rewrite Heq. reflexivity. }
  assert (HI : HamiltonianTimeIndependentTerm_fromString s vars
               = HamiltonianTimeIndependentTerm_fromString s' vars).
  { rewrite !HamiltonianTimeIndependentTerm_fromString_unfold.
    unfold HamiltonianTimeIndependentTerm_fromString_body. rewrite Heq. reflexivity. }
  repeat split; try assumption.
  unfold HamiltonianParsingUtil_tryParse. rewrite HS, HD, HI. reflexivity.
Qed.

(** X13.  On a text that is empty or holds white space only, the sum parser
    and the time-dependent parser return null, and the time-independent
    parser, hence [tryParse], calls [back()] on an empty string. *)
Theorem blank_text_reads_past_the_end (s : str) (vars : VarsMap) :
  removeWhiteSpaces s = [] ->
  HamiltonianSumTerm_fromString s vars = Ret None /\
  HamiltonianTimeDependentTerm_fromString s vars = Ret None /\
  HamiltonianTimeIndependentTerm_fromString s vars = Raise undefined_behaviour /\
  HamiltonianParsingUtil_tryParse s vars = Raise undefined_behaviour.
Proof.
  intros Heq.
  assert (HS : HamiltonianSumTerm_fromString s vars = Ret None).
  { unfold HamiltonianSumTerm_fromString. rewrite Heq. reflexivity. }
  assert (HD : HamiltonianTimeDependentTerm_fromString s vars = Ret None).
  { rewrite HamiltonianTimeDependentTerm_fromString_unfold.
    unfold HamiltonianTimeDependentTerm_fromString_body. rewrite Heq. reflexivity. }
  assert (HI : HamiltonianTimeIndependentTerm_fromString s vars = Raise undefined_behaviour).
  { rewrite HamiltonianTimeIndependentTerm_fromString_unfold.
    unfold HamiltonianTimeIndependentTerm_fromString_body. rewrite Heq. reflexivity. }
  repeat split; try assumption.
  unfold HamiltonianParsingUtil_tryParse. rewrite HS, HD, HI. reflexivity.
Qed.

(** X14.  On a text that starts with the separator [||] followed by a
    well-formed channel name, the operator expression is empty and the
    time-dependent parser, hence [tryParse], calls [back()] on an empty
    string. *)
Theorem channel_without_operators_reads_past_the_end (s ch : str) (vars : VarsMap) :
  removeWhiteSpaces s = lit "||" ++ ch ->
  channel_name (toUpperCase ch) = true ->
  HamiltonianTimeDependentTerm_fromString s vars = Raise undefined_behaviour /\
  HamiltonianParsingUtil_tryParse s vars = Raise undefined_behaviour.
Proof.
  intros Heq Hch.
  assert (HD : HamiltonianTimeDependentTerm_fromString s vars = Raise undefined_behaviour).
  { rewrite HamiltonianTimeDependentTerm_fromString_unfold.
    unfold HamiltonianTimeDependentTerm_fromString_body. rewrite Heq.
    change (find (lit "||") (lit "||" ++ ch)) with (Some 0%nat).
    cbv beta iota. change (drop (0 + 2) (lit "||" ++ ch)) with ch.
    unfold channel_name in Hch. apply negb_true_iff in Hch. rewrite Hch. reflexivity. }
  split; [exact HD|].
  unfold HamiltonianParsingUtil_tryParse.
  rewrite not_sum_form.
  - cbn [mbind result_bind]. rewrite HD. reflexivity.
  - rewrite Heq. reflexivity.
Qed.

Lemma GetLastOperator_without_star (e : str) :
  ("*"%char ∉ e) -> GetLastOperator e = Ret None.
Proof.
  intros Hstar. unfold GetLastOperator.
  rewrite (proj2 (find_last_of_None "*" e) Hstar). reflexivity.
Qed.

Lemma parse_product_without_star (e : str) (make : double -> list QubitOp -> HamiltonianTerm)
    (vars : VarsMap) :
  ("*"%char ∉ e) ->
  parse_product e make vars =
  match TryEvaluateExpression [] vars with
  | Some evaled => Ret (Some (make evaled []))
  | None => Ret None
  end.
Proof.
  intros Hstar. unfold parse_product. cbn [collect_operators].
  rewrite (GetLastOperator_without_star e Hstar). reflexivity.
Qed.

(** X15.  A text without [*], without [|], and not ending in [)] or []] is
    never handed to the expression engine: no operator is found,
    [remainderStr] is still empty, and the result is what the engine makes of
    the empty text, with no operators: a term whose coefficient does not
    depend on the text, or null. *)
Theorem text_without_star_is_not_evaluated (s e : str) (vars : VarsMap) (c : ascii) :
  removeWhiteSpaces s = e ->
  last e = Some c -> c <> ")"%char -> c <> "]"%char ->
  ("*"%char ∉ e) -> ("|"%char ∉ e) ->
  HamiltonianParsingUtil_tryParse s vars =
  match TryEvaluateExpression [] vars with
  | Some evaled => Ret (Some (HamiltonianTimeIndependentTerm evaled []))
  | None => Ret None
  end.
Proof.
  intros Heq Hlast Hc1 Hc2 Hstar Hbar.
  assert (Hfind : find (lit "||") e = None).
  { destruct (find (lit "||") e) as [p|] eqn:Hf; [|reflexivity].
    apply find_split in Hf as (a & b & -> & _). exfalso. apply Hbar.
    apply elem_of_app. right. apply list_elem_of_here. }
  rewrite tryParse_not_sum.
  2:{ rewrite Heq. unfold sum_form. rewrite Hlast.
      rewrite (bool_decide_eq_false_2 (Some c = Some "]"%char)) by congruence.
      apply andb_false_r. }
  rewrite TD_of_unseparated by (rewrite Heq; exact Hfind).
  cbn [mbind result_bind].
  rewrite HamiltonianTimeIndependentTerm_fromString_unfold.
  unfold HamiltonianTimeIndependentTerm_fromString_body. rewrite Heq, Hfind.
  unfold back. rewrite Hlast. cbn [mbind result_bind].
  rewrite (ascii_eqb_false c ")" Hc1).
  rewrite (parse_product_without_star e _ vars Hstar).
  destruct (TryEvaluateExpression [] vars); reflexivity.
Qed.

(** X16.  [UnwrapOpExpresion] returns no string or exactly two.  When it
    returns two, the text is [coeff ( e1 pm e2 )] with no bracket inside the
    group, [pm] is the first [+] of the group or, when it holds no [+], its
    first [-], and the two strings are [coeff e1] and [(pm 1.0)* coeff e2]:
    the coefficient text is copied in front of both. *)
Theorem UnwrapOpExpresion_splits_once (s : str) (l : list str) :
  UnwrapOpExpresion s = Ret l ->
  l = [] \/
  exists coeff e1 pm e2,
    s = coeff ++ "("%char :: e1 ++ pm :: e2 ++ [")"%char] /\
    l = [coeff ++ e1; "("%char :: pm :: lit "1.0)*" ++ coeff ++ e2] /\
    (pm = "+"%char \/ pm = "-"%char) /\
    ("+"%char ∉ e1) /\ (pm = "-"%char -> ("+"%char ∉ e2) /\ ("-"%char ∉ e1)) /\
    ("("%char ∉ e1) /\ (")"%char ∉ e1) /\ ("("%char ∉ e2) /\ (")"%char ∉ e2).
Proof.
  intros Hu.
  assert (Hshape : l = [] \/ exists x y, l = [x; y]).
  { revert Hu. unfold UnwrapOpExpresion, back.
    destruct (last s); cbn [mbind result_bind]; [|discriminate].
    destruct (negb _); [intros [= <-]; auto|].
    destruct (find_last_of _ _); [|intros [= <-]; auto].
    destruct (_ || _); [intros [= <-]; auto|].
    match goal with |- match ?p with _ => _ end = _ -> _ => destruct p end;
      intros [= <-]; eauto. }
  destruct Hshape as [->|(x & y & ->)]; [left; reflexivity|right].
  destruct (UnwrapOpExpresion_inv s x y Hu)
    as (coeff & e1 & pm & e2 & Hs & H1 & H2 & H3 & H4 & Hpm & Hp1 & Hm & -> & ->).
  exists coeff, e1, pm, e2. repeat split; try assumption; apply Hm; assumption.
Qed.

Lemma TI_fuel_leaves (vars : VarsMap) (n : nat) (s : str) (t : HamiltonianTerm) :
  HamiltonianTimeIndependentTerm_fromString_fuel n vars s = Ret (Some t) ->
  time_independent t.
Proof.
  revert s t. induction n as [|n IH]; intros s t Hret; [discriminate|].
  simpl in Hret. unfold HamiltonianTimeIndependentTerm_fromString_body in Hret.
  destruct (find (lit "||") (removeWhiteSpaces s)); [discriminate|].
  destruct (back (removeWhiteSpaces s)) as [c|]; simpl in Hret; [|discriminate].
  destruct (Ascii.eqb c ")").
  - destruct (UnwrapOpExpresion (removeWhiteSpaces s)) as [l|]; simpl in Hret; [|discriminate].
    destruct l as [|first [|second [|]]]; try discriminate.
    apply parse_split_inv in Hret as (t1 & t2 & H1 & H2 & ->).
    unfold time_independent. simpl. rewrite app_nil_r. apply Forall_app. split.
    + apply (IH first t1 H1).
    + apply (IH second t2 H2).
  - apply parse_product_inv in Hret as (k & ops & ->).
    unfold time_independent. simpl. constructor; [eauto | constructor].
Qed.

(** X17.  A term returned by the time-dependent parser has, however deep its
    sums are nested, only time-dependent leaves, all bound to the text after
    the separator in upper case; a term returned by the time-independent
    parser comes from a text without separator and has only time-independent
    leaves. *)
Theorem parsed_terms_are_of_one_kind (s : str) (vars : VarsMap) (t : HamiltonianTerm) :
  (HamiltonianTimeDependentTerm_fromString s vars = Ret (Some t) ->
   exists a b, removeWhiteSpaces s = a ++ lit "||" ++ b /\ ("|"%char ∉ b) /\
               bound_to_channel (toUpperCase b) t) /\
  (HamiltonianTimeIndependentTerm_fromString s vars = Ret (Some t) ->
   find (lit "||") (removeWhiteSpaces s) = None /\ time_independent t).
Proof.
  split.
  - apply TD_fuel_channel.
  - intros Hret. split; [apply (TI_Some_separator s vars t Hret)|].
    apply (TI_fuel_leaves _ _ _ _ Hret).
Qed.

(** X18.  When every entry of [h_str] parses under the variables read from
    [vars], the JSON-level parse returns true and has handed the terms to
    the consumer, one per entry, in the order of the array. *)
Theorem tryParse_json_hands_over_every_term {St : Type}
    (in_forEachTermFn : HamiltonianTerm -> St -> St) (st : St)
    (varsArray : list (str * json_value)) (vars : VarsMap)
    (exprs : list str) (ts : list HamiltonianTerm) :
  read_vars varsArray [] = Ret vars ->
  Forall2 (fun e t => HamiltonianParsingUtil_tryParse e vars = Ret (Some t)) exprs ts ->
  HamiltonianParsingUtil_tryParse_json
    (json_object (map json_string exprs) varsArray) in_forEachTermFn st
  = (fold_left (fun st t => in_forEachTermFn t st) ts st, Ret true).
Proof.
  intros Hvars Hparsed. unfold HamiltonianParsingUtil_tryParse_json. rewrite Hvars.
  revert st. induction Hparsed as [|e t exprs ts He _ IH]; intros st; simpl.
  - reflexivity.
  - rewrite He. apply IH.
Qed.

Lemma read_vars_type_error (members : list (str * double)) (key : str) (v : json_value)
    (rest : list (str * json_value)) (vars : VarsMap) :
  (forall d, v <> json_number d) ->
  read_vars (map (fun kv => (kv.1, json_number kv.2)) members ++ (key, v) :: rest) vars
  = Raise type_error.
Proof.
  intros Hv. revert vars.
  induction members as [|[k d] members IH]; intros vars; simpl.
  - destruct v; try reflexivity. exfalso. apply (Hv d). reflexivity.
  - apply IH.
Qed.

(** X19.  The JSON-level parse returns false on a document that is not an
    object, with nothing handed over; it leaves by the JSON library's type
    error at the first member of [vars] that is not a number, with nothing
    handed over; and at the first entry of [h_str] that is not a string,
    after the terms of the entries before it have been handed over. *)
Theorem tryParse_json_type_errors {St : Type}
    (in_forEachTermFn : HamiltonianTerm -> St -> St) (st : St) :
  HamiltonianParsingUtil_tryParse_json json_not_object in_forEachTermFn st = (st, Ret false) /\
  (forall hamStrArray members key v rest,
     (forall d, v <> json_number d) ->
     HamiltonianParsingUtil_tryParse_json
       (json_object hamStrArray
          (map (fun kv => (kv.1, json_number kv.2)) members ++ (key, v) :: rest))
       in_forEachTermFn st
     = (st, Raise type_error)) /\
  (forall varsArray vars exprs ts v rest,
     read_vars varsArray [] = Ret vars ->
     Forall2 (fun e t => HamiltonianParsingUtil_tryParse e vars = Ret (Some t)) exprs ts ->
     (forall e, v <> json_string e) ->
     HamiltonianParsingUtil_tryParse_json
       (json_object (map json_string exprs ++ v :: rest) varsArray) in_forEachTermFn st
     = (fold_left (fun st t => in_forEachTermFn t st) ts st, Raise type_error)).
Proof.
  split; [reflexivity|]. split.
  - intros hamStrArray members key v rest Hv. unfold HamiltonianParsingUtil_tryParse_json.
    rewrite (read_vars_type_error members key v rest [] Hv). reflexivity.
  - intros varsArray vars exprs ts v rest Hvars Hparsed Hv.
    unfold HamiltonianParsingUtil_tryParse_json. rewrite Hvars.
    revert st. induction Hparsed as [|e t exprs ts He _ IH]; intros st; simpl.
    + destruct v; try reflexivity. exfalso. apply (Hv s). reflexivity.
    + rewrite He. apply IH.
Qed.

Lemma digits_toUpperCase (idx : str) : isNumberString idx = true -> toUpperCase idx = idx.
Proof.
  unfold isNumberString, toUpperCase. induction idx as [|d idx IH]; simpl; [reflexivity|].
  intros [Hd Hrest]%andb_true_iff. rewrite (proj1 (is_digit_toupper d Hd)), (IH Hrest).
  reflexivity.
Qed.

Lemma alpha_not_star (name : str) :
  Forall (fun c => isalpha c = true) name -> "*"%char ∉ name.
Proof.
  intros Halpha Hin. rewrite Forall_forall in Halpha. specialize (Halpha _ Hin).
  discriminate.
Qed.

Lemma digits_not_star (idx : str) : isNumberString idx = true -> "*"%char ∉ idx.
Proof.
  unfold isNumberString. intros Hnum Hin.
  rewrite forallb_forall in Hnum. apply list_elem_of_In in Hin.
  specialize (Hnum _ Hin). discriminate.
Qed.

Lemma GetLastOperator_factor (r : str) (f : str * str) :
  valid_factor f ->
  GetLastOperator (r ++ factor_text f) =
  (qIdx ← stoi f.2; Ret (Some ((ConvertOperatorFromString (toUpperCase f.1), qIdx), r))).
Proof.
  destruct f as [name idx]. intros (Hname & Halpha & Hidx & Hnum & Hop).
  cbn [fst snd] in *. unfold factor_text. cbn [fst snd]. unfold GetLastOperator.
  assert (Hstar : "*"%char ∉ name ++ idx).
  { intros [Hin|Hin]%elem_of_app;
      [apply (alpha_not_star name Halpha Hin) | apply (digits_not_star idx Hnum Hin)]. }
  rewrite (find_last_of_app "*" r (name ++ idx) Hstar).
  destruct (split_at (r ++ "*"%char :: name ++ idx) r (name ++ idx) "*" (length r) eq_refl eq_refl)
    as (Ht & Hd & _).
  replace (length r + 1)%nat with (S (length r)) by lia. rewrite Hd, Ht.
  assert (Hup : toUpperCase (name ++ idx) = toUpperCase name ++ idx).
  { unfold toUpperCase. rewrite map_app. f_equal. apply digits_toUpperCase, Hnum. }
  rewrite Hup.
  assert (Hfind : exists d,
    list_find (fun c => negb (isalpha c) = true) (toUpperCase name ++ idx)
    = Some (length (toUpperCase name), d)).
  { destruct idx as [|d idx']; [contradiction|]. exists d.
    assert (Hd0 : is_digit d = true).
    { unfold isNumberString in Hnum. simpl in Hnum.
      apply andb_true_iff in Hnum as [Hd0 _]. exact Hd0. }
    apply list_find_first.
    - apply Forall_forall. intros y Hy. unfold toUpperCase in Hy.
      apply list_elem_of_fmap in Hy as (c & -> & Hc).
      rewrite isalpha_toupper. rewrite Forall_forall in Halpha. rewrite (Halpha c Hc).
      discriminate.
    - rewrite (proj2 (is_digit_toupper d Hd0)). reflexivity. }
  destruct Hfind as [d ->].
  rewrite take_app_length, drop_app_length.
  unfold toUpperCase at 1. rewrite length_map.
  destruct name as [|n0 name']; [contradiction|].
  simpl length. cbn [Nat.ltb Nat.leb orb].
  rewrite (bool_decide_eq_false_2 _ Hop). rewrite Hnum. cbn [negb]. reflexivity.
Qed.

Lemma collect_operators_factors (fs : list (str * str)) :
  forall (fuel : nat) (c rem : str) (ops : list QubitOp),
  Forall valid_factor fs ->
  Forall (fun f => decimal_value f.2 <= INT_MAX) fs ->
  GetLastOperator c = Ret None ->
  (length (c ++ concat (map factor_text fs)) < fuel)%nat ->
  collect_operators fuel (c ++ concat (map factor_text fs)) rem ops =
  Ret (ops ++ rev (map factor_op fs), match fs with [] => rem | _ => c end).
Proof.
  induction fs as [|f fs IH] using rev_ind; intros fuel c rem ops Hvalid Hfit Hc Hlen.
  - simpl. rewrite !app_nil_r in *. destruct fuel as [|fuel]; [lia|]. simpl.
    rewrite Hc. reflexivity.
  - apply Forall_app in Hvalid as [Hvalid Hf]. apply Forall_app in Hfit as [Hfit Hff].
    apply Forall_cons in Hf as [Hf _]. apply Forall_cons in Hff as [Hff _].
    rewrite map_app, concat_app in *. simpl concat in *. rewrite app_nil_r in *.
    rewrite app_assoc in *.
    destruct fuel as [|fuel]; [lia|]. cbn [collect_operators].
    rewrite (GetLastOperator_factor _ f Hf).
    destruct Hf as (_ & _ & Hidx & Hnum & _).
    rewrite (stoi_digits f.2 Hidx Hnum Hff). cbn [mbind result_bind].
    rewrite IH; try assumption.
    2:{ rewrite !length_app in Hlen. simpl in Hlen. rewrite !length_app. lia. }
    rewrite map_app, rev_app_distr. cbn [map rev app]. rewrite <- app_assoc. cbn [app].
    destruct fs as [|f0 fs]; cbn [map concat app]; rewrite ?app_nil_r; reflexivity.
Qed.

Lemma parse_product_factors (c : str) (fs : list (str * str))
    (make : double -> list QubitOp -> HamiltonianTerm) (vars : VarsMap) :
  fs <> [] -> Forall valid_factor fs ->
  Forall (fun f => decimal_value f.2 <= INT_MAX) fs ->
  GetLastOperator c = Ret None ->
  parse_product (c ++ concat (map factor_text fs)) make vars =
  match TryEvaluateExpression c vars with
  | Some evaled => Ret (Some (make evaled (map factor_op fs)))
  | None => Ret None
  end.
Proof.
  intros Hne Hvalid Hfit Hc. unfold parse_product.
  rewrite (collect_operators_factors fs _ c [] [] Hvalid Hfit Hc) by lia.
  cbn [mbind result_bind]. rewrite app_nil_l, rev_involutive.
  destruct fs; [contradiction|]. reflexivity.
Qed.

Lemma digit_not_closing (d : ascii) :
  is_digit d = true -> d <> ")"%char /\ d <> "]"%char /\ d <> "|"%char.
Proof. intros Hd. repeat split; intros ->; discriminate. Qed.

Lemma alpha_not_bar (x : ascii) : isalpha x = true -> x <> "|"%char.
Proof. intros Hx ->. discriminate. Qed.

Lemma factor_text_chars (f : str * str) (x : ascii) :
  valid_factor f -> x ∈ factor_text f ->
  x = "*"%char \/ isalpha x = true \/ is_digit x = true.
Proof.
  intros (_ & Halpha & _ & Hnum & _) Hin. unfold factor_text in Hin.
  apply elem_of_cons in Hin as [->|Hin]; [left; reflexivity|right].
  apply elem_of_app in Hin as [Hin|Hin].
  - left. rewrite Forall_forall in Halpha. apply Halpha, Hin.
  - right. unfold isNumberString in Hnum. rewrite forallb_forall in Hnum.
    apply Hnum, list_elem_of_In, Hin.
Qed.

Lemma factors_without_bar (fs : list (str * str)) :
  Forall valid_factor fs -> "|"%char ∉ concat (map factor_text fs).
Proof.
  intros Hvalid Hin. apply list_elem_of_In, in_concat in Hin as (t & Ht & Hin).
  apply in_map_iff in Ht as (f & <- & Hf).
  rewrite Forall_forall in Hvalid. apply list_elem_of_In in Hf, Hin.
  destruct (factor_text_chars f _ (Hvalid f Hf) Hin) as [?|[?|?]]; discriminate.
Qed.

Lemma factors_last (c : str) (fs : list (str * str)) :
  fs <> [] -> Forall valid_factor fs ->
  exists d, last (c ++ concat (map factor_text fs)) = Some d /\ is_digit d = true.
Proof.
  intros Hne Hvalid. destruct fs as [|f fs] using rev_ind; [contradiction|]. clear IHfs.
  apply Forall_app in Hvalid as [_ Hf]. apply Forall_cons in Hf as [(_ & _ & Hidx & Hnum & _) _].
  rewrite map_app, concat_app. simpl concat. rewrite app_nil_r.
  change (factor_text f) with ("*"%char :: f.1 ++ f.2).
  destruct (f.2) as [|d idx] using rev_ind; [contradiction|]. clear IHidx.
  exists d. split.
  - replace (c ++ concat (map factor_text fs) ++ "*"%char :: f.1 ++ idx ++ [d])
      with ((c ++ concat (map factor_text fs) ++ "*"%char :: f.1 ++ idx) ++ [d]).
    + apply last_snoc.
    + rewrite <- !app_assoc. simpl. rewrite <- !app_assoc. reflexivity.
  - unfold isNumberString in Hnum. rewrite forallb_app in Hnum.
    apply andb_true_iff in Hnum as [_ Hd]. simpl in Hd. rewrite andb_true_r in Hd. exact Hd.
Qed.

Lemma no_bar_no_separator (e : str) : ("|"%char ∉ e) -> find (lit "||") e = None.
Proof.
  intros Hbar. destruct (find (lit "||") e) as [p|] eqn:Hf; [|reflexivity].
  apply find_split in Hf as (a & b & -> & _). exfalso. apply Hbar.
  apply elem_of_app. right. apply list_elem_of_here.
Qed.

Lemma sum_form_by_last (e : str) (x : ascii) :
  last e = Some x -> x <> "]"%char -> sum_form e = false.
Proof.
  intros Hlast Hx. unfold sum_form. rewrite Hlast.
  rewrite (bool_decide_eq_false_2 (Some x = Some "]"%char)) by congruence.
  apply andb_false_r.
Qed.

Lemma TI_spaceless (s : str) (vars : VarsMap) :
  HamiltonianTimeIndependentTerm_fromString s vars
  = HamiltonianTimeIndependentTerm_fromString (removeWhiteSpaces s) vars.
Proof.
  rewrite !HamiltonianTimeIndependentTerm_fromString_unfold.
  unfold HamiltonianTimeIndependentTerm_fromString_body.
  rewrite removeWhiteSpaces_idem. reflexivity.
Qed.

Lemma TD_spaceless (s : str) (vars : VarsMap) :
  HamiltonianTimeDependentTerm_fromString s vars
  = HamiltonianTimeDependentTerm_fromString (removeWhiteSpaces s) vars.
Proof.
  rewrite !HamiltonianTimeDependentTerm_fromString_unfold.
  unfold HamiltonianTimeDependentTerm_fromString_body.
  rewrite removeWhiteSpaces_idem. reflexivity.
Qed.

(** The time-independent parser on a text that has no channel separator
    and does not end in a closing bracket. *)
Lemma TI_on_product (s e : str) (vars : VarsMap) (x : ascii) :
  removeWhiteSpaces s = e -> ("|"%char ∉ e) -> last e = Some x -> x <> ")"%char ->
  HamiltonianTimeIndependentTerm_fromString s vars
  = parse_product e HamiltonianTimeIndependentTerm vars.
Proof.
  intros Heq Hbar Hlast Hx.
  rewrite HamiltonianTimeIndependentTerm_fromString_unfold.
  unfold HamiltonianTimeIndependentTerm_fromString_body.
  rewrite Heq, (no_bar_no_separator e Hbar). unfold back. rewrite Hlast.
  cbn [mbind result_bind]. rewrite (ascii_eqb_false x ")" Hx). reflexivity.
Qed.

(** The time-dependent parser on a text with one well-formed channel whose
    operator expression does not end in a closing bracket. *)
Lemma TD_on_product (s e ch : str) (vars : VarsMap) (x : ascii) :
  removeWhiteSpaces s = e ++ lit "||" ++ ch -> ("|"%char ∉ e) ->
  channel_name (toUpperCase ch) = true ->
  last e = Some x -> x <> ")"%char ->
  HamiltonianTimeDependentTerm_fromString s vars
  = parse_product e (HamiltonianTimeDependentTerm (toUpperCase ch)) vars.
Proof.
  intros Heq Hbar Hch Hlast Hx.
  rewrite TD_spaceless, Heq.
  rewrite TD_on_separated; [|rewrite <- Heq; apply nospace_removeWhiteSpaces | exact Hbar].
  cbv zeta. unfold channel_name in Hch. apply negb_true_iff in Hch. rewrite Hch.
  unfold back. rewrite Hlast. cbn [mbind result_bind].
  rewrite (ascii_eqb_false x ")" Hx). reflexivity.
Qed.

Lemma channel_name_last (ch : str) :
  channel_name (toUpperCase ch) = true ->
  exists x, last ch = Some x /\ x <> "]"%char.
Proof.
  intros Hch. destruct ch as [|x ch] using rev_ind; [discriminate|]. clear IHch.
  exists x. split; [apply last_snoc|].
  assert (Hin : x ∈ ch ++ [x]) by (apply elem_of_app; right; apply list_elem_of_here).
  pose proof (channel_name_chars (ch ++ [x]) x Hch Hin) as Hx.
  intros ->. destruct Hx; discriminate.
Qed.

(** X20.  A text [c *N1 i1 ... *Nk ik] with [k >= 1], where every [Nj] is a
    name the operator table knows, every [ij] a decimal index within [int],
    and [c] a text without [|] in which no operator is found, is parsed by [tryParse]
    into the time-independent term with the value of [c] as coefficient and
    the operators [(N1, i1), ..., (Nk, ik)] in the order of the text, or
    into null when [c] has no value; followed by [||] and a channel name, into
    the time-dependent term with the same coefficient and operators on that
    channel in upper case. *)
Theorem product_is_read_in_order (c : str) (fs : list (str * str)) (vars : VarsMap) :
  fs <> [] -> Forall valid_factor fs ->
  Forall (fun f => decimal_value f.2 <= INT_MAX) fs ->
  GetLastOperator c = Ret None -> ("|"%char ∉ c) ->
  (forall s,
     removeWhiteSpaces s = c ++ concat (map factor_text fs) ->
     HamiltonianParsingUtil_tryParse s vars =
     match TryEvaluateExpression c vars with
     | Some evaled => Ret (Some (HamiltonianTimeIndependentTerm evaled (map factor_op fs)))
     | None => Ret None
     end) /\
  (forall s ch,
     removeWhiteSpaces s = (c ++ concat (map factor_text fs)) ++ lit "||" ++ ch ->
     channel_name (toUpperCase ch) = true ->
     HamiltonianParsingUtil_tryParse s vars =
     match TryEvaluateExpression c vars with
     | Some evaled =>
         Ret (Some (HamiltonianTimeDependentTerm (toUpperCase ch) evaled (map factor_op fs)))
     | None => Ret None
     end).
Proof.
  intros Hne Hvalid Hfit Hc Hbar.
  set (e := c ++ concat (map factor_text fs)).
  assert (Hbare : "|"%char ∉ e).
  { intros [Hin|Hin]%elem_of_app; [exact (Hbar Hin) | exact (factors_without_bar fs Hvalid Hin)]. }
  destruct (factors_last c fs Hne Hvalid) as (d & Hlast & Hd). fold e in Hlast.
  destruct (digit_not_closing d Hd) as (Hd1 & Hd2 & _).
  split.
  - intros s Heq.
    rewrite tryParse_not_sum by (rewrite Heq; apply (sum_form_by_last e d Hlast Hd2)).
    rewrite TD_of_unseparated by (rewrite Heq; apply no_bar_no_separator, Hbare).
    cbn [mbind result_bind].
    rewrite (TI_on_product s e vars d Heq Hbare Hlast Hd1).
    unfold e. rewrite (parse_product_factors c fs _ vars Hne Hvalid Hfit Hc).
    destruct (TryEvaluateExpression c vars); reflexivity.
  - intros s ch Heq Hch.
    destruct (channel_name_last ch Hch) as (x & Hx & Hx2).
    rewrite tryParse_not_sum.
    2:{ rewrite Heq. apply (sum_form_by_last _ x); [|exact Hx2].
        rewrite !last_app, Hx. reflexivity. }
    rewrite (TD_on_product s e ch vars d Heq Hbare Hch Hlast Hd1).
    unfold e. rewrite (parse_product_factors c fs _ vars Hne Hvalid Hfit Hc).
    destruct (TryEvaluateExpression c vars); cbn [mbind result_bind]; [reflexivity|].
    rewrite TI_of_separated; [reflexivity|].
    rewrite Heq. fold e. rewrite (find_separator e ch Hbare). discriminate.
Qed.

Lemma stoi_beyond_int (idx : str) :
  idx <> [] -> isNumberString idx = true -> INT_MAX < decimal_value idx ->
  stoi idx = Raise out_of_range.
Proof.
  intros Hidx Hnum Hbig. unfold stoi. destruct idx; [contradiction|].
  unfold isNumberString in Hnum. rewrite Hnum.
  replace (_ <=? _) with false by (symmetry; apply Z.leb_gt; exact Hbig). reflexivity.
Qed.

(** X21.  A text without channel whose last factor is a known operator with
    a decimal index above [INT_MAX] is not answered with null: [std::stoi]
    throws [std::out_of_range], which leaves the time-independent parser and
    [tryParse]. *)
Theorem qubit_index_beyond_int_is_thrown (s r : str) (f : str * str) (vars : VarsMap) :
  removeWhiteSpaces s = r ++ factor_text f ->
  valid_factor f -> INT_MAX < decimal_value f.2 -> ("|"%char ∉ r) ->
  HamiltonianTimeIndependentTerm_fromString s vars = Raise out_of_range /\
  HamiltonianParsingUtil_tryParse s vars = Raise out_of_range.
Proof.
  intros Heq Hf Hbig Hbar.
  assert (Hvalid : Forall valid_factor [f]) by (constructor; [exact Hf | constructor]).
  destruct (factors_last r [f] ltac:(discriminate) Hvalid) as (d & Hlast & Hd).
  simpl concat in Hlast. rewrite app_nil_r in Hlast.
  destruct (digit_not_closing d Hd) as (Hd1 & Hd2 & _).
  assert (Hbare : "|"%char ∉ r ++ factor_text f).
  { intros [Hin|Hin]%elem_of_app; [exact (Hbar Hin)|].
    apply (factors_without_bar [f] Hvalid). simpl. rewrite app_nil_r. exact Hin. }
  assert (HI : HamiltonianTimeIndependentTerm_fromString s vars = Raise out_of_range).
  { rewrite (TI_on_product s _ vars d Heq Hbare Hlast Hd1).
    unfold parse_product. cbn [collect_operators].
    rewrite (GetLastOperator_factor r f Hf).
    destruct Hf as (_ & _ & Hidx & Hnum & _).
    rewrite (stoi_beyond_int f.2 Hidx Hnum Hbig). reflexivity. }
  split; [exact HI|].
  rewrite tryParse_not_sum by (rewrite Heq; apply (sum_form_by_last _ d Hlast Hd2)).
  rewrite TD_of_unseparated by (rewrite Heq; apply no_bar_no_separator, Hbare).
  cbn [mbind result_bind]. rewrite HI. reflexivity.
Qed.

(** X22.  A macro [_SUM[v,a,b,body]] with a body that holds [{v}] and a
    decimal bound above [INT_MAX] is not answered with null: [std::stoi]
    throws [std::out_of_range], which leaves the sum parser and [tryParse]. *)
Theorem loop_bound_beyond_int_is_thrown (in_string v sa sb body : str) (vars : VarsMap) :
  removeWhiteSpaces in_string =
    lit "_SUM[" ++ v ++ lit "," ++ sa ++ lit "," ++ sb ++ lit "," ++ body ++ lit "]" ->
  (","%char ∉ v) -> (","%char ∉ sa) -> (","%char ∉ sb) ->
  v <> [] -> sa <> [] -> sb <> [] ->
  isNumberString sa = true -> isNumberString sb = true ->
  find (lit "{" ++ v ++ lit "}") body <> None ->
  INT_MAX < decimal_value sa \/ INT_MAX < decimal_value sb ->
  HamiltonianSumTerm_fromString in_string vars = Raise out_of_range /\
  HamiltonianParsingUtil_tryParse in_string vars = Raise out_of_range.
Proof.
  intros Hin Hcv Hca Hcb Hv Ha Hb Hna Hnb Hfmt Hbig.
  assert (HS : HamiltonianSumTerm_fromString in_string vars = Raise out_of_range).
  { rewrite (HamiltonianSumTerm_fromString_fields in_string v sa sb body vars Hin Hcv Hca Hcb).
    unfold sum_over_loop. cbv zeta.
    assert (Hbody : body <> []).
    { intros ->. apply Hfmt. reflexivity. }
    rewrite !bool_decide_eq_false_2 by assumption.
    rewrite Hna, Hnb. cbn [negb orb].
    destruct (Z_le_gt_dec (decimal_value sa) INT_MAX) as [Hfit|Hover].
    - rewrite (stoi_digits sa Ha Hna Hfit). cbn [mbind result_bind].
      rewrite (stoi_beyond_int sb Hb Hnb) by (destruct Hbig; lia). reflexivity.
    - rewrite (stoi_beyond_int sa Ha Hna) by lia. reflexivity. }
  split; [exact HS|].
  unfold HamiltonianParsingUtil_tryParse. rewrite HS. reflexivity.
Qed.

(** X23.  A macro [_SUM[v,a,b,body]] with the end bound [INT_MAX] never
    yields a term: whatever the earlier rounds do, the loop condition
    [i <= endLoopVal] cannot fail, and the increment after the round of
    [INT_MAX] is out of the range of [int]. *)
Theorem loop_up_to_INT_MAX_returns_no_term (in_string v sa sb body : str) (vars : VarsMap)
    (t : HamiltonianTerm) :
  removeWhiteSpaces in_string =
    lit "_SUM[" ++ v ++ lit "," ++ sa ++ lit "," ++ sb ++ lit "," ++ body ++ lit "]" ->
  (","%char ∉ v) -> (","%char ∉ sa) -> (","%char ∉ sb) ->
  decimal_value sb = INT_MAX ->
  HamiltonianSumTerm_fromString in_string vars <> Ret (Some t).
Proof.
  intros Hin Hcv Hca Hcb Hmax.
  rewrite (HamiltonianSumTerm_fromString_fields in_string v sa sb body vars Hin Hcv Hca Hcb).
  unfold sum_over_loop. cbv zeta.
  match goal with |- (if ?g then _ else _) <> _ => destruct g eqn:Hguard end; [discriminate|].
  repeat (apply orb_false_iff in Hguard as [Hguard ?]).
  destruct (stoi sa) as [a|]; cbn [mbind result_bind]; [|discriminate].
  assert (Hsb : stoi sb = Ret INT_MAX).
  { rewrite <- Hmax. apply stoi_digits.
    - intros ->. discriminate.
    - apply negb_false_iff. assumption.
    - rewrite Hmax. reflexivity. }
  rewrite Hsb. cbn [mbind result_bind].
  destruct (INT_MAX <? a); [discriminate|].
  destruct (resolveLoopTemplate _ _ _ _); cbn [mbind result_bind]; [|discriminate].
  destruct (HamiltonianTimeIndependentTerm_fromString _ _); cbn [mbind result_bind];
    [|discriminate].
  destruct (HamiltonianTimeDependentTerm_fromString _ _); cbn [mbind result_bind];
    [|discriminate].
  destruct (_ && _); [discriminate|].
  destruct (mapM _ _); cbn [mbind result_bind]; [|discriminate].
  change (INT_MAX =? INT_MAX) with true. discriminate.
Qed.

Lemma count_commas_split (s a b : str) :
  s = a ++ lit "," ++ b ->
  count_occ ascii_dec s ","%char = S (count_occ ascii_dec a ","%char + count_occ ascii_dec b ","%char).
Proof.
  intros ->. rewrite count_occ_app. simpl.
  destruct (ascii_dec "," ","); [lia | contradiction].
Qed.

(** X24.  A text [_SUM[...]] with fewer than three commas between its
    brackets is parsed into no term by the sum parser: a field that is not
    there is read as the empty string. *)
Theorem macro_with_missing_fields_is_rejected (s inner : str) (vars : VarsMap) :
  removeWhiteSpaces s = lit "_SUM[" ++ inner ++ lit "]" ->
  (count_occ ascii_dec inner ","%char < 3)%nat ->
  HamiltonianSumTerm_fromString s vars = Ret None.
Proof.
  intros Heq Hcount. unfold HamiltonianSumTerm_fromString. cbv zeta. rewrite Heq.
  change (take (length (lit "_SUM[")) (lit "_SUM[" ++ inner ++ lit "]")) with (lit "_SUM[").
  rewrite str_eqb_refl. cbn [negb].
  assert (Hback : back (lit "_SUM[" ++ inner ++ lit "]") = Ret "]"%char).
  { apply back_Ret.
    change (lit "_SUM[" ++ inner ++ lit "]") with (lit "_SUM[" ++ inner ++ ["]"%char]).
    rewrite app_assoc. apply last_snoc. }
  rewrite Hback. cbn [mbind result_bind]. change (Ascii.eqb "]" "]") with true. cbn [negb].
  change (drop (length (lit "_SUM[")) (lit "_SUM[" ++ inner ++ lit "]")) with (inner ++ lit "]").
  replace (pop_back (inner ++ lit "]")) with inner
    by (unfold pop_back; change (lit "]") with ["]"%char]; rewrite removelast_last; reflexivity).
  unfold GetNextCommaSeparatedSubString at 1.
  destruct (find (lit ",") inner) as [p1|] eqn:H1.
  2:{ cbv beta iota. destruct (GetNextCommaSeparatedSubString inner) as [sa r1].
      destruct (GetNextCommaSeparatedSubString r1) as [sb r2]. reflexivity. }
  apply find_split in H1 as (a1 & b1 & E1 & ->).
  rewrite E1. rewrite take_app_length.
  replace (drop (length a1 + 1) (a1 ++ lit "," ++ b1)) with b1
    by (rewrite drop_app_add; reflexivity).
  cbv beta iota.
  unfold GetNextCommaSeparatedSubString at 1.
  destruct (find (lit ",") b1) as [p2|] eqn:H2.
  2:{ cbv beta iota. destruct (GetNextCommaSeparatedSubString b1) as [sb r2].
      unfold sum_over_loop. cbv zeta.
      rewrite (bool_decide_eq_true_2 (@nil ascii = [])) by reflexivity.
      rewrite orb_true_r. reflexivity. }
  apply find_split in H2 as (a2 & b2 & E2 & ->).
  rewrite E2. rewrite take_app_length.
  replace (drop (length a2 + 1) (a2 ++ lit "," ++ b2)) with b2
    by (rewrite drop_app_add; reflexivity).
  cbv beta iota.
  unfold GetNextCommaSeparatedSubString.
  destruct (find (lit ",") b2) as [p3|] eqn:H3.
  2:{ unfold sum_over_loop. cbv zeta.
      rewrite (bool_decide_eq_true_2 (@nil ascii = [])) by reflexivity.
      rewrite !orb_true_r. reflexivity. }
  exfalso. apply find_split in H3 as (a3 & b3 & E3 & _).
  rewrite (count_commas_split inner a1 b1 E1), (count_commas_split b1 a2 b2 E2),
    (count_commas_split b2 a3 b3 E3) in Hcount. lia.
Qed.

Lemma bind_Raise {A B : Type} (m : result A) (k : A -> result B) (e : failure) :
  (x ← m; k x) = Raise e -> m = Raise e \/ exists a, m = Ret a /\ k a = Raise e.
Proof. destruct m as [a|e']; cbn [mbind result_bind]; [eauto | intros [= ->]; auto]. Qed.

Lemma mapM_Raise {A B : Type} (f : A -> result B) (l : list A) (e : failure) :
  mapM f l = Raise e -> exists x, x ∈ l /\ f x = Raise e.
Proof.
  induction l as [|x l IH]; [discriminate|]. cbn [mapM].
  intros [Hx|(y & Hy & Hrest)]%bind_Raise.
  - exists x. split; [apply list_elem_of_here | exact Hx].
  - apply bind_Raise in Hrest as [Hrest|(k & _ & Hk)]; [|discriminate].
    destruct (IH Hrest) as (x' & Hin & Hx'). exists x'. split; [|exact Hx'].
    apply list_elem_of_further, Hin.
Qed.

Lemma stoi_Raise (s : str) (e : failure) :
  s <> [] -> isNumberString s = true -> stoi s = Raise e -> e = out_of_range.
Proof.
  intros Hs Hnum. unfold stoi. destruct s; [contradiction|].
  unfold isNumberString in Hnum. rewrite Hnum.
  destruct (_ <=? _); [discriminate|]. intros [= <-]. reflexivity.
Qed.

Lemma GetLastOperator_Raise (s : str) (e : failure) :
  GetLastOperator s = Raise e -> e = out_of_range.
Proof.
  unfold GetLastOperator. destruct (find_last_of "*" s) as [pos|]; [|discriminate].
  destruct (list_find _ _) as [[k y]|] eqn:Hfind; [|discriminate].
  match goal with |- (if ?c then _ else _) = _ -> _ => destruct c; [discriminate|] end.
  destruct (isNumberString _) eqn:Hnum; cbn [negb]; [|discriminate].
  intros [Hraise|(q & _ & Hq)]%bind_Raise; [|discriminate].
  apply (stoi_Raise _ e) in Hraise; [exact Hraise | | exact Hnum].
  apply list_find_Some in Hfind as (Hk & _).
  intros Hnil. apply (f_equal length) in Hnil. rewrite length_drop in Hnil. simpl in Hnil.
  apply lookup_lt_Some in Hk. lia.
Qed.

Lemma collect_operators_Raise (fuel : nat) (tempStr rem : str) (ops : list QubitOp)
    (e : failure) :
  (length tempStr < fuel)%nat ->
  collect_operators fuel tempStr rem ops = Raise e -> e = out_of_range.
Proof.
  revert tempStr rem ops. induction fuel as [|fuel IH]; intros tempStr rem ops Hlen; [lia|].
  cbn [collect_operators].
  intros [Hg|([[op sub]|] & Hg & Hrest)]%bind_Raise.
  - apply (GetLastOperator_Raise _ _ Hg).
  - apply (IH sub sub _) in Hrest; [exact Hrest|].
    apply GetLastOperator_shorter in Hg. lia.
  - discriminate.
Qed.

Lemma parse_product_Raise (E : str) (make : double -> list QubitOp -> HamiltonianTerm)
    (vars : VarsMap) (e : failure) :
  parse_product E make vars = Raise e -> e = out_of_range.
Proof.
  unfold parse_product. intros [Hc|([ops r] & _ & Hrest)]%bind_Raise.
  - apply (collect_operators_Raise _ _ _ _ _ (Nat.lt_succ_diag_r _) Hc).
  - destruct (TryEvaluateExpression r vars); discriminate.
Qed.

Lemma back_Raise (s : str) (e : failure) : back s = Raise e -> e = undefined_behaviour.
Proof. unfold back. destruct (last s); [discriminate|]. intros [= <-]. reflexivity. Qed.

Lemma UnwrapOpExpresion_Raise (s : str) (e : failure) :
  UnwrapOpExpresion s = Raise e -> e = undefined_behaviour.
Proof.
  unfold UnwrapOpExpresion. intros [Hb|(b & _ & Hrest)]%bind_Raise.
  - apply (back_Raise _ _ Hb).
  - revert Hrest. destruct (negb _); [discriminate|].
    destruct (find_last_of _ _); [|discriminate].
    destruct (_ || _); [discriminate|].
    match goal with |- match ?p with _ => _ end = _ -> _ => destruct p; discriminate end.
Qed.

Lemma parse_split_Raise (f : str -> result (option HamiltonianTerm)) (a b : str)
    (e : failure) :
  (f a = Raise e -> term_failure e) -> (f b = Raise e -> term_failure e) ->
  parse_split f a b = Raise e -> term_failure e.
Proof.
  unfold parse_split. intros Ha Hb [H1|(t1 & _ & [H2|(t2 & _ & Hrest)]%bind_Raise)]%bind_Raise.
  - apply Ha, H1.
  - apply Hb, H2.
  - destruct t1, t2; discriminate.
Qed.

Lemma TD_fuel_Raise (vars : VarsMap) (n : nat) (s : str) (e : failure) :
  (open_brackets (removeWhiteSpaces s) < n)%nat ->
  HamiltonianTimeDependentTerm_fromString_fuel n vars s = Raise e -> term_failure e.
Proof.
  revert s. induction n as [|n IH]; intros s Hn; [lia|].
  simpl. unfold HamiltonianTimeDependentTerm_fromString_body.
  pose proof (nospace_removeWhiteSpaces s) as Hns.
  set (exprStr := removeWhiteSpaces s) in *.
  destruct (find (lit "||") exprStr) as [sep|] eqn:Hfind; [|discriminate].
  match goal with |- (if ?c then _ else _) = _ -> _ => destruct c; [discriminate|] end.
  intros [Hb|(b & _ & Hrest)]%bind_Raise.
  { right. apply (back_Raise _ _ Hb). }
  revert Hrest. destruct (Ascii.eqb b ")").
  2:{ intros Hp. left. apply (parse_product_Raise _ _ _ _ Hp). }
  intros [Hu|(l & Hue & Hrest)]%bind_Raise.
  { right. apply (UnwrapOpExpresion_Raise _ _ Hu). }
  destruct l as [|first [|second [|]]]; try discriminate.
  assert (Hr : head (drop sep exprStr) <> Some "*"%char).
  { apply find_split in Hfind as (a & b' & Hs & ->). rewrite Hs.
    rewrite drop_app_length. discriminate. }
  destruct (split_children_smaller exprStr first second sep Hns Hue Hr) as [H1 H2].
  revert Hrest. apply parse_split_Raise; apply IH; lia.
Qed.

Lemma TI_fuel_Raise (vars : VarsMap) (n : nat) (s : str) (e : failure) :
  (open_brackets (removeWhiteSpaces s) < n)%nat ->
  HamiltonianTimeIndependentTerm_fromString_fuel n vars s = Raise e -> term_failure e.
Proof.
  revert s. induction n as [|n IH]; intros s Hn; [lia|].
  simpl. unfold HamiltonianTimeIndependentTerm_fromString_body.
  pose proof (nospace_removeWhiteSpaces s) as Hns.
  set (exprStr := removeWhiteSpaces s) in *.
  destruct (find (lit "||") exprStr) as [sep|] eqn:Hfind; [discriminate|].
  intros [Hb|(b & _ & Hrest)]%bind_Raise.
  { right. apply (back_Raise _ _ Hb). }
  revert Hrest. destruct (Ascii.eqb b ")").
  2:{ intros Hp. left. apply (parse_product_Raise _ _ _ _ Hp). }
  intros [Hu|(l & Hue & Hrest)]%bind_Raise.
  { right. apply (UnwrapOpExpresion_Raise _ _ Hu). }
  destruct l as [|first [|second [|]]]; try discriminate.
  assert (Hu' : UnwrapOpExpresion (take (length exprStr) exprStr) = Ret [first; second]).
  { rewrite firstn_all. exact Hue. }
  assert (Hr : head (drop (length exprStr) exprStr) <> Some "*"%char).
  { rewrite drop_all. discriminate. }
  destruct (split_children_smaller exprStr first second _ Hns Hu' Hr) as [H1 H2].
  rewrite drop_all, !app_nil_r in H1, H2.
  revert Hrest. apply parse_split_Raise; apply IH; lia.
Qed.

Lemma resolveLoopTemplate_Raise (varFmt body v : str) (k : Z) (e : failure) :
  resolveLoopTemplate varFmt body v k = Raise e -> e = undefined_behaviour.
Proof.
  unfold resolveLoopTemplate. cbv zeta.
  intros [Hm|(values & _ & Hrest)]%bind_Raise; [|discriminate].
  apply mapM_Raise in Hm as (key & _ & Hkey).
  apply bind_Raise in Hkey as [Hkey|(val & _ & Hrest)]; [|discriminate].
  revert Hkey. unfold loop_template_value. destruct (str_eqb _ _); [discriminate|].
  destruct (TryEvaluateExpression _ _); [|discriminate].
  unfold cast_int. destruct (_ && _); [discriminate|]. intros [= <-]. reflexivity.
Qed.

Lemma sum_over_loop_Raise (v sa sb body : str) (vars : VarsMap) (e : failure) :
  sum_over_loop v sa sb body vars = Raise e ->
  term_failure e \/ e = assertion_failed.
Proof.
  unfold sum_over_loop. cbv zeta.
  match goal with |- (if ?g then _ else _) = _ -> _ => destruct g eqn:Hguard end; [discriminate|].
  repeat (apply orb_false_iff in Hguard as [Hguard ?]).
  repeat match goal with
         | Hb : bool_decide _ = false |- _ => apply bool_decide_eq_false_1 in Hb
         | Hb : negb _ = false |- _ => apply negb_false_iff in Hb
         end.
  intros [Ha|(a & _ & [Hb|(b & _ & Hrest)]%bind_Raise)]%bind_Raise.
  { left. left. apply (stoi_Raise sa e); assumption. }
  { left. left. apply (stoi_Raise sb e); assumption. }
  revert Hrest. destruct (b <? a); [discriminate|].
  intros [Hr|(r0 & _ & [HI|(ti & _ & [HD|(td & _ & Hrest)]%bind_Raise)]%bind_Raise)]%bind_Raise.
  { left. right. apply (resolveLoopTemplate_Raise _ _ _ _ _ Hr). }
  { left. apply (TI_fuel_Raise _ _ _ _ (Nat.lt_succ_diag_r _) HI). }
  { left. apply (TD_fuel_Raise _ _ _ _ (Nat.lt_succ_diag_r _) HD). }
  revert Hrest. destruct (_ && _); [discriminate|].
  intros [Hm|(ops & _ & Hrest)]%bind_Raise.
  - apply mapM_Raise in Hm as (i & _ & Hi).
    apply bind_Raise in Hi as [Hr|(ri & _ & [Hp|([t|] & _ & Hrest)]%bind_Raise)].
    + left. right. apply (resolveLoopTemplate_Raise _ _ _ _ _ Hr).
    + left. revert Hp. destruct (negb _).
      * apply TD_fuel_Raise. apply Nat.lt_succ_diag_r.
      * apply TI_fuel_Raise. apply Nat.lt_succ_diag_r.
    + discriminate.
    + right. injection Hrest as <-. reflexivity.
  - revert Hrest. destruct (b =? INT_MAX); [|discriminate].
    intros [= <-]. left. right. reflexivity.
Qed.

Lemma HamiltonianSumTerm_fromString_Raise (s : str) (vars : VarsMap) (e : failure) :
  HamiltonianSumTerm_fromString s vars = Raise e ->
  term_failure e \/ e = assertion_failed.
Proof.
  unfold HamiltonianSumTerm_fromString. cbv zeta.
  destruct (negb _); [discriminate|].
  intros [Hb|(b & _ & Hrest)]%bind_Raise.
  { left. right. apply (back_Raise _ _ Hb). }
  revert Hrest. destruct (negb _); [discriminate|].
  destruct (GetNextCommaSeparatedSubString _) as [v r1].
  destruct (GetNextCommaSeparatedSubString r1) as [sa r2].
  destruct (GetNextCommaSeparatedSubString r2) as [sb body].
  apply sum_over_loop_Raise.
Qed.

(** X25.  The two term parsers end, when they do not return, in
    [std::out_of_range] (an index that does not fit [int]) or in [back()] on
    an empty string; [tryParse] ends in one of these, in the cast or
    increment out of the range of [int], or in the failed [assert] of the
    loop.  [std::stoi] is only ever called on a string of digits that is
    not empty, so [std::invalid_argument] never leaves the parser. *)
Theorem parsers_leave_by_few_exceptions (s : str) (vars : VarsMap) (e : failure) :
  (HamiltonianTimeDependentTerm_fromString s vars = Raise e ->
   e = out_of_range \/ e = undefined_behaviour) /\
  (HamiltonianTimeIndependentTerm_fromString s vars = Raise e ->
   e = out_of_range \/ e = undefined_behaviour) /\
  (HamiltonianParsingUtil_tryParse s vars = Raise e ->
   e = out_of_range \/ e = undefined_behaviour \/ e = assertion_failed).
Proof.
  assert (HD : HamiltonianTimeDependentTerm_fromString s vars = Raise e -> term_failure e)
    by (apply TD_fuel_Raise; apply Nat.lt_succ_diag_r).
  assert (HI : HamiltonianTimeIndependentTerm_fromString s vars = Raise e -> term_failure e)
    by (apply TI_fuel_Raise; apply Nat.lt_succ_diag_r).
  split; [exact HD|]. split; [exact HI|].
  unfold HamiltonianParsingUtil_tryParse.
  intros [HS|([t|] & _ & Hrest)]%bind_Raise.
  - destruct (HamiltonianSumTerm_fromString_Raise s vars e HS) as [[?|?]|?]; auto.
  - discriminate.
  - apply bind_Raise in Hrest as [Hd|([t|] & _ & Hrest)].
    + destruct (HD Hd); auto.
    + discriminate.
    + apply bind_Raise in Hrest as [Hi|([t|] & _ & Hrest)]; try discriminate.
      destruct (HI Hi); auto.
Qed.

End Coverage.

Import ReferenceServices.

(** *** The examples *)

Lemma white_space_is_ignored_witness :
  HamiltonianParsingUtil_tryParse (lit "0.5 * X0 || D0") []
  = HamiltonianParsingUtil_tryParse (lit "0.5*X0||D0") [].
Proof.
  apply (@white_space_is_ignored reference_services (lit "0.5 * X0 || D0") (lit "0.5*X0||D0") []).
  reflexivity.
Defined.

Lemma blank_text_reads_past_the_end_witness :
  HamiltonianParsingUtil_tryParse (lit "  ") [] = Raise undefined_behaviour.
Proof.
  apply (@blank_text_reads_past_the_end reference_services (lit "  ") []). reflexivity.
Defined.

Lemma channel_without_operators_reads_past_the_end_witness :
  HamiltonianParsingUtil_tryParse (lit "|| D0") [] = Raise undefined_behaviour.
Proof.
  apply (@channel_without_operators_reads_past_the_end reference_services
           (lit "|| D0") (lit "D0") []); reflexivity.
Defined.

Lemma text_without_star_is_not_evaluated_witness :
  HamiltonianParsingUtil_tryParse (lit "0.5") [] = Ret None.
Proof.
  apply (@text_without_star_is_not_evaluated reference_services
           (lit "0.5") (lit "0.5") [] "5"%char); try reflexivity; try discriminate; absent.
Defined.

Lemma UnwrapOpExpresion_splits_once_witness :
  [lit "0.5*X0-Y0"; lit "(+1.0)*0.5*Z0"] = [] \/
  exists coeff e1 pm e2,
    lit "0.5*(X0-Y0+Z0)" = coeff ++ "("%char :: e1 ++ pm :: e2 ++ [")"%char] /\
    [lit "0.5*X0-Y0"; lit "(+1.0)*0.5*Z0"]
      = [coeff ++ e1; "("%char :: pm :: lit "1.0)*" ++ coeff ++ e2] /\
    (pm = "+"%char \/ pm = "-"%char) /\
    ("+"%char ∉ e1) /\ (pm = "-"%char -> ("+"%char ∉ e2) /\ ("-"%char ∉ e1)) /\
    ("("%char ∉ e1) /\ (")"%char ∉ e1) /\ ("("%char ∉ e2) /\ (")"%char ∉ e2).
Proof.
  apply (UnwrapOpExpresion_splits_once (lit "0.5*(X0-Y0+Z0)")). reflexivity.
Defined.

Lemma tryParse_json_hands_over_every_term_witness :
  HamiltonianParsingUtil_tryParse_json
    (json_object (map json_string [lit "w*X0"; lit "1.0*Z0||D0"])
       [(lit "w", json_number (1 # 2)%Q)])
    (fun t seen => seen ++ [t]) []
  = (fold_left (fun seen t => seen ++ [t])
       [HamiltonianTimeIndependentTerm (1 # 2) [(op_X, 0)];
        HamiltonianTimeDependentTerm (lit "D0") 1 [(op_Z, 0)]] [],
     Ret true).
Proof.
  apply (@tryParse_json_hands_over_every_term reference_services (list HamiltonianTerm)
           (fun t seen => seen ++ [t]) [] [(lit "w", json_number (1 # 2)%Q)]
           [(lit "w", (1 # 2)%Q)] [lit "w*X0"; lit "1.0*Z0||D0"]
           [@HamiltonianTimeIndependentTerm reference_services (1 # 2) [(op_X, 0)];
            @HamiltonianTimeDependentTerm reference_services (lit "D0") 1 [(op_Z, 0)]]).
  - reflexivity.
  - repeat constructor.
Defined.

Lemma product_is_read_in_order_witness :
  HamiltonianParsingUtil_tryParse (lit "0.5 * X0 * Y1") []
  = Ret (Some (HamiltonianTimeIndependentTerm (1 # 2) [(op_X, 0); (op_Y, 1)])) /\
  HamiltonianParsingUtil_tryParse (lit "0.5 * X0 * Y1 || d1") []
  = Ret (Some (HamiltonianTimeDependentTerm (lit "D1") (1 # 2) [(op_X, 0); (op_Y, 1)])).
Proof.
  destruct (@product_is_read_in_order reference_services (lit "0.5")
              [(lit "X", lit "0"); (lit "Y", lit "1")] []) as [Hfree Hbound].
  - discriminate.
  - repeat constructor; discriminate.
  - repeat constructor; discriminate.
  - reflexivity.
  - absent.
  - split.
    + apply (Hfree (lit "0.5 * X0 * Y1")). reflexivity.
    + apply (Hbound (lit "0.5 * X0 * Y1 || d1") (lit "d1")); reflexivity.
Defined.

Lemma qubit_index_beyond_int_is_thrown_witness :
  HamiltonianParsingUtil_tryParse (lit "1.0*X2147483648") [] = Raise out_of_range.
Proof.
  apply (@qubit_index_beyond_int_is_thrown reference_services (lit "1.0*X2147483648")
           (lit "1.0") (lit "X", lit "2147483648") []).
  - reflexivity.
  - repeat constructor; discriminate.
  - reflexivity.
  - absent.
Defined.

Lemma loop_bound_beyond_int_is_thrown_witness :
  HamiltonianParsingUtil_tryParse (lit "_SUM[i,0,2147483648,1.0*X{i}]") []
  = Raise out_of_range.
Proof.
  apply (@loop_bound_beyond_int_is_thrown reference_services
           (lit "_SUM[i,0,2147483648,1.0*X{i}]") (lit "i") (lit "0") (lit "2147483648")
           (lit "1.0*X{i}") []); try reflexivity; try discriminate; try absent.
  right. reflexivity.
Defined.

Lemma loop_up_to_INT_MAX_returns_no_term_witness :
  ~ exists t,
      HamiltonianSumTerm_fromString (lit "_SUM[i,0,2147483647,1.0*X{i}]") [] = Ret (Some t).
Proof.
  intros [t Ht]. revert Ht.
  apply (@loop_up_to_INT_MAX_returns_no_term reference_services
           (lit "_SUM[i,0,2147483647,1.0*X{i}]") (lit "i") (lit "0") (lit "2147483647")
           (lit "1.0*X{i}") []); try reflexivity; absent.
Defined.

Lemma macro_with_missing_fields_is_rejected_witness :
  HamiltonianSumTerm_fromString (lit "_SUM[i,0,1.0*X{i}]") [] = Ret None.
Proof.
  apply (@macro_with_missing_fields_is_rejected reference_services
           (lit "_SUM[i,0,1.0*X{i}]") (lit "i,0,1.0*X{i}") []).
  - reflexivity.
  - vm_compute. lia.
Defined.

End HamiltonianCoverage.

(** ** Properties of [apply], [collect] and [clone] *)

Module HamiltonianMethodsProofs.
Import Hamiltonian HamiltonianMethods.

Section Proofs.
Context `{Host}.

Lemma at_most_two_operators_ok (ops : list QubitOp) :
  (length ops <= 2)%nat -> at_most_two_operators ops = Ret tt.
Proof.
  intros Hlen. unfold at_most_two_operators.
  replace (2 <? length ops)%nat with false by (symmetry; apply Nat.ltb_ge; exact Hlen).
  reflexivity.
Qed.

Lemma apply_leaf (leaf : HamiltonianTerm) (GetChannelId : str -> Z)
    (q : FunctorExecutorBase) :
  one_or_two_operators leaf ->
  apply leaf GetChannelId q = Ret (q ++ functor_of GetChannelId leaf).
Proof.
  destruct leaf as [k ops|ch k ops|ts]; cbn [one_or_two_operators apply functor_of];
    [| |contradiction].
  - intros Hlen. unfold HamiltonianTimeIndependentTerm_apply.
    rewrite at_most_two_operators_ok by (destruct Hlen; lia). cbn [mbind result_bind].
    destruct ops as [|op1 [|op2 [|op3 ops]]]; simpl in Hlen; try (destruct Hlen; discriminate);
      reflexivity.
  - intros Hlen. unfold HamiltonianTimeDependentTerm_apply.
    destruct ops as [|op1 [|op2 [|op3 ops]]]; simpl in Hlen; try (destruct Hlen; discriminate);
      reflexivity.
Qed.

Lemma collect_leaf (leaf : HamiltonianTerm) (st : str) (ctrl : list str) :
  one_or_two_operators leaf ->
  collect leaf st ctrl = Ret (st ++ static_text leaf, ctrl ++ control_text leaf).
Proof.
  destruct leaf as [k ops|ch k ops|ts];
    cbn [one_or_two_operators collect static_text control_text]; [| |contradiction].
  - intros Hlen. unfold HamiltonianTimeIndependentTerm_collect.
    rewrite at_most_two_operators_ok by (destruct Hlen; lia). cbn [mbind result_bind].
    destruct ops as [|op1 [|op2 [|op3 ops]]]; simpl in Hlen; try (destruct Hlen; discriminate);
      cbn [map concat]; rewrite ?app_nil_r; reflexivity.
  - intros Hlen. unfold HamiltonianTimeDependentTerm_collect.
    destruct ops as [|op1 [|op2 [|op3 ops]]]; simpl in Hlen; try (destruct Hlen; discriminate);
      cbn [map concat negb Nat.eqb orb length]; rewrite ?app_nil_r; reflexivity.
Qed.

(** X26.  For a term all of whose leaves are products of one or two
    operators, [apply] posts exactly one functor per leaf, after those
    already posted and in the order of the leaves: with the leaf's
    coefficient, its operators by name and qubit in order, and, for a
    time-dependent leaf, the id the resolver gives for its channel name. *)
Theorem apply_posts_one_functor_per_leaf (t : HamiltonianTerm) (GetChannelId : str -> Z)
    (in_executor : FunctorExecutorBase) :
  Forall one_or_two_operators (term_leaves t) ->
  apply t GetChannelId in_executor
  = Ret (in_executor ++ flat_map (functor_of GetChannelId) (term_leaves t)).
Proof.
  revert t in_executor. fix IH 1. intros t q Hleaves.
  destruct t as [k ops|ch k ops|ts].
  - cbn [term_leaves flat_map]. rewrite app_nil_r. apply apply_leaf.
    apply Forall_inv in Hleaves. exact Hleaves.
  - cbn [term_leaves flat_map]. rewrite app_nil_r. apply apply_leaf.
    apply Forall_inv in Hleaves. exact Hleaves.
  - cbn [term_leaves apply] in *. revert q Hleaves.
    induction ts as [|t ts IHts]; intros q Hleaves.
    + cbn. rewrite app_nil_r. reflexivity.
    + cbn [flat_map] in *. apply Forall_app in Hleaves as [Ht Hts].
      rewrite (IH t q Ht). cbn [mbind result_bind].
      rewrite (IHts _ Hts). rewrite flat_map_app, app_assoc. reflexivity.
Qed.

(** X27.  A time-dependent term whose operators are neither one nor two
    fails the [assert] of [apply]; a time-independent term with none posts
    nothing and returns, and with more than two posts nothing either,
    whether [xacc::error] comes back or not. *)
Theorem apply_outside_one_or_two_operators (ch : str) (k : double) (ops : list QubitOp)
    (GetChannelId : str -> Z) (in_executor : FunctorExecutorBase) :
  length ops <> 1%nat -> length ops <> 2%nat ->
  apply (HamiltonianTimeDependentTerm ch k ops) GetChannelId in_executor
    = Raise assertion_failed /\
  (forall posted,
     apply (HamiltonianTimeIndependentTerm k ops) GetChannelId in_executor = Ret posted ->
     posted = in_executor) /\
  (ops = [] ->
   apply (HamiltonianTimeIndependentTerm k ops) GetChannelId in_executor = Ret in_executor).
Proof.
  intros H1 H2. cbn [apply]. split; [|split].
  - unfold HamiltonianTimeDependentTerm_apply.
    destruct ops as [|op1 [|op2 [|op3 ops]]]; simpl in *; try contradiction; reflexivity.
  - intros posted. unfold HamiltonianTimeIndependentTerm_apply.
    destruct (at_most_two_operators ops) as [[]|]; cbn [mbind result_bind]; [|discriminate].
    destruct ops as [|op1 [|op2 [|op3 ops]]]; simpl in *; try contradiction;
      intros [= <-]; reflexivity.
  - intros ->. reflexivity.
Qed.

(** X28.  For a term all of whose leaves are products of one or two
    operators, [collect] appends to the static string, for every
    time-independent leaf in order, [+ ] the coefficient [*] the operators as
    name and index without separator; and appends to the control strings, for
    every time-dependent leaf in order, one entry of the same form without
    [+ ] and without the channel name.  What the two held before stays in
    front. *)
Theorem collect_appends_per_leaf (t : HamiltonianTerm) (io_staticHstr : str)
    (io_ctrlHstr : list str) :
  Forall one_or_two_operators (term_leaves t) ->
  collect t io_staticHstr io_ctrlHstr
  = Ret (io_staticHstr ++ flat_map static_text (term_leaves t),
         io_ctrlHstr ++ flat_map control_text (term_leaves t)).
Proof.
  revert t io_staticHstr io_ctrlHstr. fix IH 1. intros t st ctrl Hleaves.
  destruct t as [k ops|ch k ops|ts].
  - rewrite collect_leaf by (apply Forall_inv in Hleaves; exact Hleaves).
    cbn [term_leaves flat_map]. rewrite !app_nil_r. reflexivity.
  - rewrite collect_leaf by (apply Forall_inv in Hleaves; exact Hleaves).
    cbn [term_leaves flat_map]. rewrite !app_nil_r. reflexivity.
  - cbn [term_leaves collect] in *. revert st ctrl Hleaves.
    induction ts as [|t ts IHts]; intros st ctrl Hleaves.
    + cbn. rewrite !app_nil_r. reflexivity.
    + cbn [flat_map] in *. apply Forall_app in Hleaves as [Ht Hts].
      cbn [fst snd]. rewrite (IH t st ctrl Ht). cbn [mbind result_bind].
      rewrite (IHts _ _ Hts). rewrite !flat_map_app, !app_assoc. reflexivity.
Qed.

(** X29.  [clone] returns a term equal to the one cloned, the terms of a
    sum cloned in order at every depth; [apply] and [collect] act on the
    copy as on the original. *)
Theorem clone_is_a_deep_copy (t : HamiltonianTerm) (GetChannelId : str -> Z)
    (in_executor : FunctorExecutorBase) (io_staticHstr : str) (io_ctrlHstr : list str) :
  clone t = t /\
  apply (clone t) GetChannelId in_executor = apply t GetChannelId in_executor /\
  collect (clone t) io_staticHstr io_ctrlHstr = collect t io_staticHstr io_ctrlHstr.
Proof.
  assert (Hclone : forall t, clone t = t).
  { fix IH 1. intros [k ops|ch k ops|ts]; cbn [clone]; try reflexivity.
    f_equal. induction ts as [|t' ts IHts]; [reflexivity|].
    rewrite (IH t'), IHts. reflexivity. }
  rewrite Hclone. repeat split.
Qed.

End Proofs.

Import ReferenceServices ReferenceHost.

(** *** The examples *)

Lemma apply_posts_one_functor_per_leaf_witness :
  @apply reference_services (reference_host None)
    (HamiltonianSumTerm
       [HamiltonianTimeIndependentTerm (1 # 2) [(op_Z, 0)];
        HamiltonianTimeDependentTerm (lit "D1") 1 [(op_X, 0); (op_X, 1)]])
    (fun channel => Z.of_nat (length channel)) []
  = Ret [mkAddHamiltonianTerm (1 # 2) [(lit "Z", 0)] None;
         mkAddHamiltonianTerm 1 [(lit "X", 0); (lit "X", 1)] (Some 2)].
Proof.
  apply (@apply_posts_one_functor_per_leaf reference_services (reference_host None)).
  constructor; [left; reflexivity|]. constructor; [right; reflexivity|]. constructor.
Defined.

Lemma apply_outside_one_or_two_operators_witness :
  @apply reference_services (reference_host None)
    (HamiltonianTimeDependentTerm (lit "D0") 1 [(op_X, 0); (op_Y, 1); (op_Z, 2)])
    (fun channel => 0) []
  = Raise assertion_failed.
Proof.
  apply (@apply_outside_one_or_two_operators reference_services (reference_host None));
    discriminate.
Defined.

Lemma collect_appends_per_leaf_witness :
  @collect reference_services (reference_host None)
    (HamiltonianSumTerm
       [HamiltonianTimeIndependentTerm (1 # 2) [(op_Z, 0)];
        HamiltonianTimeDependentTerm (lit "D1") 1 [(op_X, 0); (op_X, 1)]])
    [] []
  = Ret (lit "+ 0.500000*Z0", [lit "1.000000*X0X1"]).
Proof.
  apply (@collect_appends_per_leaf reference_services (reference_host None)).
  constructor; [left; reflexivity|]. constructor; [right; reflexivity|]. constructor.
Defined.

End HamiltonianMethodsProofs.
